(** * Coherence scoring for DarijaGenie: a shallow embedding

    The two notebooks of the repository, [LCD_in_final.ipynb] (the pairwise
    local coherence discriminator) and [HT_in_final.ipynb] (the order-aware
    document classifier), are embedded function by function.

    - Tensor arithmetic is carried out over the reals ([R]); a rank-1 tensor
      is a [list R], a rank-2 tensor a list of rows.
    - Python lists are lists; in-place writes [l[i] = x] are stdpp's
      [<[i:=x]> l]; Python sets are [gset]s.
    - The [random] module is an explicit generator state threaded through
      every call that draws from it.
    - The neural components (pretrained encoder, the two MLP scorers, the
      optimizers) are parameters of the sections that use them. *)

From Stdlib Require Import Reals Lra Lia.
From stdpp Require Import base option list strings gmap sets.

(** ** Scalars and rank-1 tensors *)

Module Tensor.
Local Open Scope R_scope.

Definition vec := list R.

(** [torch.clamp(x, min=lo)] on a scalar. *)
Definition clamp_min (x lo : R) : R := Rmax x lo.

(** Elementwise binary operation on two tensors of the same shape. *)
Fixpoint map2 (f : R → R → R) (s t : vec) : vec :=
  match s, t with
  | x :: s', y :: t' => f x y :: map2 f s' t'
  | _, _ => []
  end.

Definition vsub : vec → vec → vec := map2 Rminus.
Definition vmul : vec → vec → vec := map2 Rmult.
Definition vadd : vec → vec → vec := map2 Rplus.
Definition vabs (s : vec) : vec := map Rabs s.
Definition vscale (c : R) (s : vec) : vec := map (Rmult c) s.
Definition vdiv (s : vec) (c : R) : vec := map (λ x, x / c) s.
Definition zeros (d : nat) : vec := replicate d 0.
End Tensor.

(** ** The bounded margin ranking loss (LCD notebook) *)

Module Loss.
Import Tensor.
Local Open Scope R_scope.

(** [bounded_margin_loss(score_pos, score_neg, margin, upper_bound,
    lower_bound, lambda_upper, lambda_lower)]. *)
Definition bounded_margin_loss
    (score_pos score_neg margin upper_bound lower_bound
     lambda_upper lambda_lower : R) : R :=
  let margin_loss := clamp_min (margin - (score_pos - score_neg)) 0 in
  let upper_penalty := clamp_min (score_pos - upper_bound) 0 in
  let lower_penalty := clamp_min (lower_bound - score_pos) 0 in
  margin_loss + lambda_upper * upper_penalty + lambda_lower * lower_penalty.

(** The keyword defaults of the Python signature. *)
Definition default_margin : R := 10.
Definition default_upper_bound : R := 10.
Definition default_lower_bound : R := 0.
Definition default_lambda_upper : R := 1.
Definition default_lambda_lower : R := 1.

(** The call [bounded_margin_loss(score_pos, score_neg)] made by the
    training and evaluation loops. *)
Definition bounded_margin_loss_default (score_pos score_neg : R) : R :=
  bounded_margin_loss score_pos score_neg default_margin
    default_upper_bound default_lower_bound
    default_lambda_upper default_lambda_lower.
End Loss.

(** ** Sentence encoder with mean pooling (LCD notebook) *)

Module Encoder.
Import Tensor.
Local Open Scope R_scope.

(** [embeddings * attention_mask] for one sentence: every token vector is
    scaled by its mask entry (the mask is broadcast over the hidden axis). *)
Definition masked_embeddings (embeddings : list vec) (attention_mask : list Z)
    : list vec :=
  zip_with (λ e m, vscale (IZR m) e) embeddings attention_mask.

(** [.sum(dim=1)]: the sum over the token axis of a [T x d] slice. *)
Definition sum_tokens (d : nat) (rows : list vec) : vec :=
  foldr vadd (zeros d) rows.

(** [attention_mask.sum(dim=1).clamp(min=1)]: an integer tensor. *)
Definition counts (attention_mask : list Z) : Z :=
  Z.max (foldr Z.add 0%Z attention_mask) 1.

(** [summed / counts] for one sentence of the batch. *)
Definition mean_pool (d : nat) (embeddings : list vec)
    (attention_mask : list Z) : vec :=
  let summed := sum_tokens d (masked_embeddings embeddings attention_mask) in
  vdiv summed (IZR (counts attention_mask)).

Section Forward.
(** The pretrained tokenizer and transformer are external: the tokenizer
    yields the attention mask of every sentence, the transformer the
    [last_hidden_state] of every sentence; [hidden_size] is the width
    of a token vector. *)
Variable hidden_size : nat.
Variable tokenizer : list string → list (list Z).
Variable model : list string → list (list vec).

(** [SentenceEncoder.forward(sentences)]. *)
Definition forward (sentences : list string) : list vec :=
  let attention_mask := tokenizer sentences in
  let embeddings := model sentences in
  zip_with (mean_pool hidden_size) embeddings attention_mask.
End Forward.

(** The componentwise arithmetic mean of [n] vectors of width [d], written
    independently of the pooling code: component [j] is the sum of the
    [j]-th components divided by [n]. *)
Definition component_sum (rows : list vec) (j : nat) : R :=
  foldr Rplus 0 (map (λ e, nth j e 0) rows).
Definition arithmetic_mean (d : nat) (rows : list vec) : vec :=
  map (λ j, component_sum rows j / INR (length rows)) (seq 0 d).
End Encoder.

(** ** Pairwise features (LCD notebook) *)

Module Features.
Import Tensor.
Local Open Scope R_scope.

(** [build_pairwise_features(s, t)] for two embeddings of the same shape
    [[d]]: [torch.cat([s, t, s - t, |s - t|, s * t], dim=-1)]. *)
Definition build_pairwise_features (s t : vec) : vec :=
  let diff := vsub s t in
  let abs_diff := vabs (vsub s t) in
  let dot := vmul s t in
  s ++ t ++ diff ++ abs_diff ++ dot.

(** The Python slice [v[lo:hi]]. *)
Definition slice (lo hi : nat) (v : vec) : vec := take (hi - lo) (drop lo v).

(** The five blocks of a feature vector over embeddings of width [d]. *)
Definition block (k d : nat) (v : vec) : vec := slice (k * d) (S k * d) v.
(** The sentence of the specification read literally: swapping two
    distinct embeddings changes each of the three derived blocks. *)
Definition swap_changes_every_derived_block : Prop :=
  ∀ d s t, length s = d → length t = d → s ≠ t →
    block 2 d (build_pairwise_features s t)
      ≠ block 2 d (build_pairwise_features t s)
    ∧ block 3 d (build_pairwise_features s t)
      ≠ block 3 d (build_pairwise_features t s)
    ∧ block 4 d (build_pairwise_features s t)
      ≠ block 4 d (build_pairwise_features t s).
End Features.

(** ** Exceptions and results *)

Module Py.
(** The exceptions the embedded code can raise. *)
Inductive exn : Type :=
| ValueError (msg : string)
| IndexError
| AttributeError
| TypeError
| UnboundLocalError.

(** The outcome of running a fragment: a value, an uncaught exception, or
    [Timeout] when a loop with no bound of its own is still running after
    the number of iterations granted to it. *)
Inductive result (A : Type) : Type :=
| Return (a : A)
| Raise (e : exn)
| Timeout.
Arguments Return {A} a.
Arguments Raise {A} e.
Arguments Timeout {A}.

Definition bind {A B} (m : result A) (k : A → result B) : result B :=
  match m with
  | Return a => k a
  | Raise e => Raise e
  | Timeout => Timeout
  end.

Global Instance result_ret : MRet result := @Return.
Global Instance result_bind : MBind result := λ A B k m, bind m k.

Definition is_return {A} (m : result A) : Prop :=
  match m with Return _ => True | _ => False end.

(** [enumerate(l)]. *)
Definition enumerate {A} (l : list A) : list (nat * A) := imap pair l.
End Py.

(** ** The [random] module *)

Module Random.
(** The state of Python's global generator together with the functions of
    the [random] module that the notebooks call. Each function returns its
    result and the next state. The laws are the documented contracts of
    the module; outside them (an empty range, a sample larger than the
    population) Python raises and no call site of the notebooks gets
    there. *)
Class Random (G : Type) := {
  (** [random.seed(n)] *)
  seed : Z → G;
  (** the index drawn by [random.choice] on a sequence of length [n] *)
  randbelow : nat → G → nat * G;
  (** [random.randint(a, b)] *)
  randint : nat → nat → G → nat * G;
  (** [random.sample(range(n), k)] *)
  sample : nat → nat → G → list nat * G;
  (** [random.shuffle(x)]: the content of [x] after the call *)
  shuffle : ∀ {A : Type}, list A → G → list A * G;
  randbelow_lt : ∀ n g, 0 < n → (randbelow n g).1 < n;
  randint_range : ∀ a b g, a ≤ b → a ≤ (randint a b g).1 ≤ b;
  sample_length : ∀ n k g, k ≤ n → length (sample n k g).1 = k;
  sample_NoDup : ∀ n k g, k ≤ n → NoDup (sample n k g).1;
  sample_lt : ∀ n k g, k ≤ n → Forall (λ i, i < n) (sample n k g).1;
  shuffle_Permutation : ∀ A (x : list A) g, (shuffle x g).1 ≡ₚ x;
}.

(** [random.choice(seq)]: [seq[randbelow(len(seq))]]; an empty sequence
    raises [IndexError]. *)
Definition choice {G} {RG : Random G} {A} (seq : list A) (g : G)
    : Py.result (A * G) :=
  let '(i, g') := randbelow (length seq) g in
  match seq !! i with
  | Some x => Py.Return (x, g')
  | None => Py.Raise Py.IndexError
  end.

(** A generator to run the code on: the state is a counter, every draw
    uses it and increments it. [shuffle] rotates the list, [sample] takes
    a rotated prefix of the range. *)
Definition counter_shuffle {A} (x : list A) (g : nat) : list A * nat :=
  (rotate g x, S g).
Definition counter_sample (n k g : nat) : list nat * nat :=
  (take k (rotate g (seq 0 n)), S g).
Definition counter_randint (a b g : nat) : nat * nat :=
  (a + g `mod` (b - a + 1), S g).
Definition counter_randbelow (n g : nat) : nat * nat :=
  (g `mod` n, S g).

(** The counter generator obeys the contracts of the [random] module, so
    statements that quantify over generators are not vacuous. *)
#[export] Program Instance counter_random : Random nat := {|
  seed := Z.to_nat;
  randbelow := counter_randbelow;
  randint := counter_randint;
  sample := counter_sample;
  shuffle := @counter_shuffle;
|}.
Next Obligation. intros n g Hn. simpl. apply Nat.mod_upper_bound. lia. Qed.
Next Obligation.
  intros a b g Hab. simpl.
  pose proof (Nat.mod_upper_bound g (b - a + 1)). lia.
Qed.
Next Obligation.
  intros n k g Hk. simpl.
  rewrite length_take, length_rotate, length_seq. lia.
Qed.
Next Obligation.
  intros n k g Hk. simpl.
  eapply sublist_NoDup; [|apply sublist_take].
  unfold rotate. rewrite Permutation_app_comm, take_drop. apply NoDup_seq.
Qed.
Next Obligation.
  intros n k g Hk. simpl. apply Forall_forall. intros i Hi.
  apply elem_of_take in Hi as (j & Hj & _).
  apply list_elem_of_lookup_2 in Hj. apply elem_of_rotate in Hj.
  apply elem_of_seq in Hj. lia.
Qed.
Next Obligation.
  intros A x g. simpl. unfold rotate.
  rewrite Permutation_app_comm. now rewrite take_drop.
Qed.
End Random.

(** ** Dialogues and their synthetic negatives *)

Module Synth.
Import Py Random.

Section Dialogues.
(** Utterances are whatever the corpus holds for a turn; the code only
    ever compares them with [==]. *)
Context {U : Type} {U_eq_dec : EqDecision U}.
Context {G : Type} {RG : Random G}.

Definition turn : Type := string * U.
Definition dialogue : Type := list turn.

(** *** [permute_dialogue] (LCD notebook) *)

(** The first loop: positions and utterances of the target speaker, and
    the other turns with their positions, all in dialogue order. *)
Definition speaker_indices (d : dialogue) (speaker_to_permute : string)
    : list nat :=
  (filter (λ it, it.2.1 = speaker_to_permute) (enumerate d)).*1.
Definition speaker_utterances (d : dialogue) (speaker_to_permute : string)
    : list U :=
  (filter (λ t, t.1 = speaker_to_permute) d).*2.
Definition other_turns (d : dialogue) (speaker_to_permute : string)
    : list (nat * turn) :=
  filter (λ it, it.2.1 ≠ speaker_to_permute) (enumerate d).

(** [while True: random.shuffle(shuffled); if shuffled != to_shuffle:
    break]. The loop has no bound, [budget] is the number of iterations
    it is observed for. *)
Fixpoint shuffle_until_different (budget : nat)
    (to_shuffle shuffled : list U) (g : G) : result (list U * G) :=
  match budget with
  | 0 => Timeout
  | S budget' =>
      let '(shuffled, g) := shuffle shuffled g in
      if decide (shuffled ≠ to_shuffle) then Return (shuffled, g)
      else shuffle_until_different budget' to_shuffle shuffled g
  end.

(** [for orig, new in zip(idx, vals): l[orig] = new]. *)
Definition write_back (l : list U) (idx : list nat) (vals : list U)
    : list U :=
  foldl (λ acc p, <[p.1 := p.2]> acc) l (zip idx vals).

(** The reconstruction loop. [other] is the shared list [other_turns],
    consumed by [pop(0)]; popping from the empty list and reading past
    the end of [new_speaker_utterances] raise [IndexError]. *)
Fixpoint reconstruct (speaker_to_permute : string) (d : dialogue)
    (new_speaker_utterances : list U) (speaker_ptr : nat)
    (other : list (nat * turn)) : result (dialogue * list (nat * turn)) :=
  match d with
  | [] => Return ([], other)
  | (speaker, _) :: d' =>
      if decide (speaker = speaker_to_permute) then
        match new_speaker_utterances !! speaker_ptr with
        | Some u =>
            '(permuted, other) ←
              reconstruct speaker_to_permute d' new_speaker_utterances
                (S speaker_ptr) other;
            Return ((speaker, u) :: permuted, other)
        | None => Raise IndexError
        end
      else
        match other with
        | [] => Raise IndexError
        | (orig_idx, orig_turn) :: other =>
            '(permuted, other) ←
              reconstruct speaker_to_permute d' new_speaker_utterances
                speaker_ptr other;
            Return (orig_turn :: permuted, other)
        end
  end.

(** One iteration of [for _ in range(num_permutations)]: the dialogue
    appended to [permutations], the remaining [other_turns] and the
    generator. *)
Definition permute_once (budget : nat) (d : dialogue)
    (speaker_to_permute : string) (other : list (nat * turn)) (g : G)
    : result (dialogue * list (nat * turn) * G) :=
  let speaker_indices := speaker_indices d speaker_to_permute in
  let speaker_utterances := speaker_utterances d speaker_to_permute in
  if decide (length speaker_indices < 2) then
    (* Not enough to permute, just return original dialogue *)
    Return (d, other, g)
  else
    let '(k, g) := randint 2 (length speaker_indices) g in
    let '(permute_sub_idx, g) := sample (length speaker_indices) k g in
    let to_shuffle :=
      omap (λ i, speaker_utterances !! i) permute_sub_idx in
    '(shuffled, g) ← shuffle_until_different budget to_shuffle to_shuffle g;
    let new_speaker_utterances :=
      write_back speaker_utterances permute_sub_idx shuffled in
    '(permuted, other) ←
      reconstruct speaker_to_permute d new_speaker_utterances 0 other;
    Return (permuted, other, g).

Fixpoint permute_loop (budget : nat) (d : dialogue)
    (speaker_to_permute : string) (num_permutations : nat)
    (other : list (nat * turn)) (g : G) : result (list dialogue * G) :=
  match num_permutations with
  | 0 => Return ([], g)
  | S n =>
      '(permuted, other, g) ←
        permute_once budget d speaker_to_permute other g;
      '(permutations, g) ← permute_loop budget d speaker_to_permute n other g;
      Return (permuted :: permutations, g)
  end.

(** [permute_dialogue(dialogue, speaker_to_permute, num_permutations)]. *)
Definition permute_dialogue (budget : nat) (d : dialogue)
    (speaker_to_permute : string) (num_permutations : nat) (g : G)
    : result (list dialogue * G) :=
  permute_loop budget d speaker_to_permute num_permutations
    (other_turns d speaker_to_permute) g.

(** *** Negative synthesis of [DialogueCoherenceDataset.__init__]
    (HT notebook) *)

Definition max_attempts : nat := 20.

(** [for idx, pos in enumerate(selected): l[pos] = vals[idx]]. *)
Definition scatter (l : list U) (selected : list nat) (vals : list U)
    : list U :=
  foldl (λ acc p, match vals !! p.1 with
                  | Some v => <[p.2 := v]> acc
                  | None => acc
                  end) l (enumerate selected).

(** One pass of the body of [while attempts < max_attempts]: the
    candidate [shuffled_utts] and the generator. *)
Definition shuffle_attempt (utts : list U) (g : G) : list U * G :=
  let '(num_to_shuffle, g) := randint 2 (length utts) g in
  let '(selected, g) := sample (length utts) num_to_shuffle g in
  let shuffled_utts := utts in
  let utts_to_shuffle := omap (λ i, shuffled_utts !! i) selected in
  let '(utts_to_shuffle, g) := shuffle utts_to_shuffle g in
  (scatter shuffled_utts selected utts_to_shuffle, g).

(** The retry loop, with [remaining = max_attempts - attempts]. The
    result holds [shuffled_utts] when [negative_found] is set, the
    generator, and the number of passes made. *)
Fixpoint shuffle_retry (remaining : nat) (utts : list U) (g : G)
    : option (list U) * G * nat :=
  match remaining with
  | 0 => (None, g, 0)
  | S remaining' =>
      let '(shuffled_utts, g) := shuffle_attempt utts g in
      if decide (shuffled_utts ≠ utts) then (Some shuffled_utts, g, 1)
      else
        let '(r, g, n) := shuffle_retry remaining' utts g in
        (r, g, S n)
  end.

(** [list({spk for spk, _ in d})]: the iteration order of a Python set
    is unspecified, here it is the order of [elements]. *)
Definition speakers (d : dialogue) : list string :=
  elements (list_to_set (d.*1) : gset string).

Definition utterance_count (d : dialogue) (spk : string) : nat :=
  length (filter (λ t, t.1 = spk) d).

Definition valid_speakers (d : dialogue) : list string :=
  filter (λ spk, 1 < utterance_count d spk) (speakers d).

(** [for pos, orig_idx in enumerate(indices):
      neg[orig_idx] = (target_spk, shuffled_utts[pos])]. *)
Definition substitute (d : dialogue) (target_spk : string)
    (indices : list nat) (shuffled_utts : list U) : dialogue :=
  foldl (λ acc p, match shuffled_utts !! p.1 with
                  | Some u => <[p.2 := (target_spk, u)]> acc
                  | None => acc
                  end) d (enumerate indices).

(** The body of [for original_dialogue in all_dialogues] after the
    original has been appended: the negative appended with label 0, if
    any. *)
Definition synthesize_negative (original_dialogue : dialogue) (g : G)
    : result (option dialogue * G) :=
  let speakers := speakers original_dialogue in
  if decide (length speakers < 2) then Return (None, g)
  else
    let valid_speakers := valid_speakers original_dialogue in
    if decide (valid_speakers = []) then Return (None, g)
    else
      '(target_spk, g) ← choice valid_speakers g;
      let indices := speaker_indices original_dialogue target_spk in
      let utts := omap (λ idx, snd <$> original_dialogue !! idx) indices in
      let '(found, g, _) := shuffle_retry max_attempts utts g in
      match found with
      | None => Return (None, g)
      | Some shuffled_utts =>
          let neg_dialogue :=
            substitute original_dialogue target_spk indices shuffled_utts in
          if decide (neg_dialogue ≠ original_dialogue)
          then Return (Some neg_dialogue, g)
          else Return (None, g)
      end.

(** The second loop of [__init__]: [self.dialogues] and [self.labels]
    grow together. *)
Fixpoint build_examples (all_dialogues : list dialogue) (g : G)
    : result (list (dialogue * nat) * G) :=
  match all_dialogues with
  | [] => Return ([], g)
  | original_dialogue :: rest =>
      '(neg, g) ← synthesize_negative original_dialogue g;
      '(examples, g) ← build_examples rest g;
      Return ((original_dialogue, 1) ::
                match neg with
                | Some neg_dialogue => [(neg_dialogue, 0)]
                | None => []
                end ++ examples, g)
  end.
End Dialogues.
End Synth.

(** ** The corpus: JSON lines on disk *)

Module Corpus.
Import Py.

(** What [json.loads] returns. An object is the list of the items of the
    resulting [dict], in order. Numbers are never inspected. *)
#[local] Unset Elimination Schemes.
Inductive json : Type :=
| JNull
| JBool (b : bool)
| JNumber (n : Z)
| JString (s : string)
| JArray (items : list json)
| JObject (members : list (string * json)).
#[local] Set Elimination Schemes.

(** Structural equality of parsed values: on strings, which is what the
    corpus holds for utterances, this is Python's [==]. *)
Global Instance json_eq_dec : EqDecision json.
Proof.
  refine (fix go (x y : json) {struct x} : Decision (x = y) :=
    match x, y with
    | JNull, JNull => left eq_refl
    | JBool a, JBool b => cast_if (decide (a = b))
    | JNumber a, JNumber b => cast_if (decide (a = b))
    | JString a, JString b => cast_if (decide (a = b))
    | JArray l, JArray l' => cast_if (@list_eq_dec _ go l l')
    | JObject m, JObject m' =>
        cast_if (@list_eq_dec _ (@prod_eq_dec _ _ _ go) m m')
    | _, _ => right _
    end); clear go; congruence.
Defined.

(** [d.get(key, default)] on the items of a dict. *)
Fixpoint dict_get (key : string) (members : list (string * json))
    (default : json) : json :=
  match members with
  | [] => default
  | (k, v) :: members =>
      if decide (k = key) then v else dict_get key members default
  end.

(** [obj.get("dialogue", [])]: only a dict has [get]. *)
Definition get_dialogue (obj : json) : result json :=
  match obj with
  | JObject members => Return (dict_get "dialogue" members (JArray []))
  | _ => Raise AttributeError
  end.

(** The loop over [raw_dialogue] that collects [(speaker, utterance)]
    from every turn that is a dict. Iterating a string yields strings and
    iterating a dict yields its keys, so neither contributes; [None],
    booleans and numbers are not iterable. *)
Definition extract_turns (raw_dialogue : json)
    : result (list (string * json)) :=
  match raw_dialogue with
  | JArray turns =>
      Return (flat_map (λ turn, match turn with
                                | JObject items => items
                                | _ => []
                                end) turns)
  | JString _ | JObject _ => Return []
  | JNull | JBool _ | JNumber _ => Raise TypeError
  end.

Definition warning (file : string) : string :=
  "Warning: could not parse line in " +:+ file.

(** [name.endswith(suffix)]. *)
Definition endswith (name suffix : string) : bool :=
  bool_decide (String.substring (String.length name - String.length suffix)
                 (String.length suffix) name = suffix
               ∧ String.length suffix ≤ String.length name).

Section Loaders.
(** [json.loads]: [None] stands for [json.JSONDecodeError]. [strip] is
    [str.strip]. *)
Variable json_loads : string → option json.
Variable strip : string → string.

Definition dialogue : Type := list (string * json).

(** A line that is blank or does not parse. *)
Definition unusable (line : string) : Prop :=
  strip line = "" ∨ json_loads (strip line) = None.

(** The state of a load: the dialogues kept so far and what has been
    printed. A result is paired with the printed lines, which are there
    whether or not an exception ends the load. *)

(** *** [load_dialogues_with_speakers] (LCD notebook) *)

Definition lcd_load_line (filename line : string)
    (all_dialogues : list dialogue) (printed : list string)
    : result (list dialogue) * list string :=
  match json_loads line with
  | None => (Return all_dialogues, printed ++ [warning filename])
  | Some data =>
      (raw_dialogue ← get_dialogue data;
       dialogue ← extract_turns raw_dialogue;
       if decide (2 ≤ length dialogue)
       then Return (all_dialogues ++ [dialogue])
       else Return all_dialogues, printed)
  end.

Fixpoint lcd_load_lines (filename : string) (lines : list string)
    (all_dialogues : list dialogue) (printed : list string)
    : result (list dialogue) * list string :=
  match lines with
  | [] => (Return all_dialogues, printed)
  | line :: lines =>
      match lcd_load_line filename line all_dialogues printed with
      | (Return all_dialogues, printed) =>
          lcd_load_lines filename lines all_dialogues printed
      | stop => stop
      end
  end.

Fixpoint lcd_load_files (files : list (string * list string))
    (all_dialogues : list dialogue) (printed : list string)
    : result (list dialogue) * list string :=
  match files with
  | [] => (Return all_dialogues, printed)
  | (filename, lines) :: files =>
      if endswith filename ".jsonl" then
        match lcd_load_lines filename lines all_dialogues printed with
        | (Return all_dialogues, printed) =>
            lcd_load_files files all_dialogues printed
        | stop => stop
        end
      else lcd_load_files files all_dialogues printed
  end.

(** [folder] is what [os.listdir] and [open] give: every file name with
    its lines. *)
Definition load_dialogues_with_speakers
    (folder : list (string * list string))
    : result (list dialogue) * list string :=
  lcd_load_files folder [] [].

(** *** The loading loop of [DialogueCoherenceDataset.__init__]
    (HT notebook) *)

Definition ht_load_line (max_utterances : nat) (file line : string)
    (all_dialogues : list dialogue) (printed : list string)
    : result (list dialogue) * list string :=
  let line := strip line in
  if decide (line = "") then (Return all_dialogues, printed)
  else
    match json_loads line with
    | None => (Return all_dialogues, printed ++ [warning file])
    | Some obj =>
        (raw_dialogue ← get_dialogue obj;
         dialogue ← extract_turns raw_dialogue;
         if decide (2 ≤ length dialogue)
         then Return (all_dialogues ++ [take max_utterances dialogue])
         else Return all_dialogues, printed)
    end.

Fixpoint ht_load_lines (max_utterances : nat) (file : string)
    (lines : list string) (all_dialogues : list dialogue)
    (printed : list string) : result (list dialogue) * list string :=
  match lines with
  | [] => (Return all_dialogues, printed)
  | line :: lines =>
      match ht_load_line max_utterances file line all_dialogues printed
      with
      | (Return all_dialogues, printed) =>
          ht_load_lines max_utterances file lines all_dialogues printed
      | stop => stop
      end
  end.

(** [files] is what [glob(".../*.jsonl")] and [open] give. *)
Fixpoint ht_load_files (max_utterances : nat)
    (files : list (string * list string))
    (all_dialogues : list dialogue) (printed : list string)
    : result (list dialogue) * list string :=
  match files with
  | [] => (Return all_dialogues, printed)
  | (file, lines) :: files =>
      match ht_load_lines max_utterances file lines all_dialogues printed
      with
      | (Return all_dialogues, printed) =>
          ht_load_files max_utterances files all_dialogues printed
      | stop => stop
      end
  end.
End Loaders.
End Corpus.

(** ** The document classifier's dataset and loss weights (HT notebook) *)

Module HT.
Import Py Random Corpus.

(** The fields of a [DialogueCoherenceDataset]. *)
Record dataset : Type := {
  dialogues : list dialogue;
  labels : list nat;
  max_utterances : nat;
}.

Definition no_dialogues : exn :=
  ValueError "No valid dialogues found in the provided folder.".

Section Init.
Context {G : Type} {RG : Random G}.
Variable json_loads : string → option json.
Variable strip : string → string.

(** [DialogueCoherenceDataset(data_folder, max_utterances, seed)], with
    the files matched in [data_folder] given as [files]. Returns the
    outcome and the lines printed. *)
Definition init (files : list (string * list string))
    (max_utterances : nat) (seed_value : Z)
    : result dataset * list string :=
  let g : G := seed seed_value in
  let '(loaded, printed) :=
    ht_load_files json_loads strip max_utterances files [] [] in
  (all_dialogues ← loaded;
   if decide (all_dialogues = []) then Raise no_dialogues
   else
     '(examples, _) ← Synth.build_examples all_dialogues g;
     Return {| dialogues := examples.*1;
               labels := examples.*2;
               max_utterances := max_utterances |},
   printed).

(** The defaults [max_utterances=16, seed=42]. *)
Definition init_default (files : list (string * list string)) :=
  init files 16 42.
End Init.

Local Open Scope R_scope.

(** [torch.nn.BCEWithLogitsLoss(pos_weight=w)]: the criterion is
    determined by its positive-class weight. *)
Record criterion : Type := { pos_weight : R }.

(** [sum(labels)] over a list of integers. *)
Definition sum_labels (labels : list nat) : Z :=
  foldr (λ l acc, (Z.of_nat l + acc)%Z) 0%Z labels.

(** What the cell that prepares the losses binds. *)
Record loss_setup : Type := {
  train_pos_weight : R;
  val_pos_weight : R;
  train_criterion : criterion;
  val_criterion : criterion;
}.

(** The cell, from the labels of [train_dataset] and [val_dataset].
    Dividing two integers by [/] raises [ZeroDivisionError] when the
    divisor is zero ([None] here); both quotients are evaluated. *)
Definition setup_criteria (train_labels val_labels : list nat)
    : option loss_setup :=
  let n_positive := sum_labels train_labels in
  let n_negative := (Z.of_nat (length train_labels) - n_positive)%Z in
  if decide (n_positive = 0%Z) then None
  else
    let pos_weight := IZR n_negative / IZR n_positive in
    let train_criterion := {| pos_weight := pos_weight |} in
    let val_n_positive := sum_labels val_labels in
    let val_n_negative :=
      (Z.of_nat (length val_labels) - val_n_positive)%Z in
    if decide (val_n_positive = 0%Z) then None
    else
      let val_pos_weight := IZR val_n_negative / IZR val_n_positive in
      let val_criterion := {| pos_weight := pos_weight |} in
      Some {| train_pos_weight := pos_weight;
              val_pos_weight := val_pos_weight;
              train_criterion := train_criterion;
              val_criterion := val_criterion |}.

(** Labels are 0 or 1. *)
Definition binary (labels : list nat) : Prop :=
  Forall (λ l, l = 0%nat ∨ l = 1%nat) labels.

(** The number of examples carrying a given label. *)
Definition count_label (label : nat) (labels : list nat) : nat :=
  length (filter (λ l, l = label) labels).
End HT.

(** ** The pairwise scorer: inference, evaluation, training (LCD notebook) *)

Module LCD.
Import Py Random Tensor Features Loss.
Local Open Scope R_scope.

(** Unzipping a dialogue into [speakers, utterances] cannot unpack an
    empty dialogue. *)
Definition unpack_error : exn :=
  ValueError "not enough values to unpack (expected 2, got 0)".

Section Inference.
Context {U : Type} {U_eq_dec : EqDecision U}.
Context {G : Type} {RG : Random G}.

(** In evaluation mode and under [torch.no_grad()] the encoder and the
    two scorers are functions of their input. *)
Variable encoder : list U → list vec.
Variable scorer_fwd scorer_bwd : vec → R.

(** The calls into the networks made by a prediction, in order. *)
Inductive call : Type :=
| CallEncoder (sentences : list U)
| CallScorerFwd (features : vec)
| CallScorerBwd (features : vec).

(** The averaged forward/backward score of the adjacent pair
    [(i, i + 1)]. *)
Definition pair_score (embeddings : list vec) (i : nat) : R :=
  let s_i := embeddings !!! i in
  let s_j := embeddings !!! (i + 1)%nat in
  let feat_fwd := build_pairwise_features s_i s_j in
  let feat_bwd := build_pairwise_features s_j s_i in
  let score_fwd := scorer_fwd feat_fwd in
  let score_bwd := scorer_bwd feat_bwd in
  (score_fwd + score_bwd) / 2.

Definition pair_calls (embeddings : list vec) (i : nat) : list call :=
  let s_i := embeddings !!! i in
  let s_j := embeddings !!! (i + 1)%nat in
  [CallScorerFwd (build_pairwise_features s_i s_j);
   CallScorerBwd (build_pairwise_features s_j s_i)].

(** [for i in range(len(embeddings) - 1)] with its early [return 0]. *)
Fixpoint pred_loop (embeddings : list vec) (range : list nat)
    : nat * list call :=
  match range with
  | [] => (1%nat, [])
  | i :: range =>
      if Rlt_dec (pair_score embeddings i) 0
      then (0%nat, pair_calls embeddings i)
      else
        let '(label, calls) := pred_loop embeddings range in
        (label, pair_calls embeddings i ++ calls)
  end.

(** [compute_dialogue_pred(dialogue, encoder, scorer_fwd, scorer_bwd,
    device)]: the label and the calls made. *)
Definition compute_dialogue_pred (d : list (string * U))
    : result (nat * list call) :=
  match d with
  | [] => Raise unpack_error
  | _ =>
      let utterances := d.*2 in
      let embeddings := encoder utterances in
      let '(label, calls) :=
        pred_loop embeddings (seq 0 (length embeddings - 1)) in
      Return (label, CallEncoder utterances :: calls)
  end.

(** One row of the evaluation: the dialogue scored, the label appended
    to [true] and the prediction appended to [pred]. *)
Definition row : Type := list (string * U) * nat * nat.

Fixpoint score_permuted (permuted : list (list (string * U)))
    : result (list row) :=
  match permuted with
  | [] => Return []
  | perm :: permuted =>
      '(score2, _) ← compute_dialogue_pred perm;
      rows ← score_permuted permuted;
      Return ((perm, 0%nat, score2) :: rows)
  end.

(** The loop of [test_experiment]; [budget] bounds the observation of
    the shuffle loop inside [permute_dialogue]. *)
Fixpoint test_loop (budget : nat) (dialogues : list (list (string * U)))
    (num_permutations : nat) (g : G) : result (list row * G) :=
  match dialogues with
  | [] => Return ([], g)
  | d :: dialogues =>
      if decide (length d < 3)%nat
      then test_loop budget dialogues num_permutations g
      else
        '(score, _) ← compute_dialogue_pred d;
        '(speaker, g) ← choice ["A"; "B"] g;
        '(permuted, g) ←
          Synth.permute_dialogue budget d speaker num_permutations g;
        rows ← score_permuted permuted;
        '(more, g) ← test_loop budget dialogues num_permutations g;
        Return ((d, 1%nat, score) :: rows ++ more, g)
  end.

(** [sklearn.metrics.f1_score] and [accuracy_score]. *)
Variable f1_score accuracy_score : list nat → list nat → R.

(** [test_experiment(...)]: [(f1, accuracy, true, pred)], together with
    the rows they come from. *)
Definition test_experiment (budget : nat)
    (dialogues : list (list (string * U))) (num_permutations : nat)
    (g : G) : result (R * R * list nat * list nat * list row) :=
  '(rows, _) ← test_loop budget dialogues num_permutations g;
  let true := rows.*1.*2 in
  let pred := rows.*2 in
  Return (f1_score true pred, accuracy_score true pred, true, pred, rows).
End Inference.

Section Training.
Context {U : Type}.
Context {G : Type} {RG : Random G}.

(** In training mode the networks are stateful: [W] holds the weights,
    the optimizer states, torch's generator (dropout) and the recorded
    graph. [optimizer_step] is [zero_grad] on both optimizers,
    [dialogue_loss.backward()] and both [step]s. *)
Variable W : Type.
Variable encoder : list U → W → list vec * W.
Variable scorer_fwd scorer_bwd : vec → W → R * W.
Variable optimizer_step : R → W → W.

(** The local variables of [train_one_epoch] that outlive an iteration
    over a dialogue. [score_pos] and [score_neg] are unbound until a
    pair has been scored. *)
Record epoch_state : Type := {
  total_loss : R;
  correct : nat;
  total : nat;
  score_pos : option R;
  score_neg : option R;
  world : W;
  rng : G;
}.

(** The variables of the loop over positions; [computed] records, for
    the statements below, the pairs scored so far in this dialogue. *)
Record pair_state : Type := {
  dialogue_loss : R;
  pair_count : nat;
  last_pos : option R;
  last_neg : option R;
  pworld : W;
  prng : G;
  computed : list (R * R);
}.

(** What the position loop maintains: [pair_count] counts the pairs
    scored in this dialogue, and once there is one, [last_pos] and
    [last_neg] hold the scores of the latest. *)
Definition tracks_last (st : pair_state) : Prop :=
  pair_count st = length (computed st)
  ∧ ∀ sp sn, last (computed st) = Some (sp, sn) →
             last_pos st = Some sp ∧ last_neg st = Some sn.

(** [[j for j in range(n) if j != i + 1 and speakers[j] !=
    current_speaker]]; [n] is [len(senetence_embeddings)], which the
    encoder makes equal to the number of turns. *)
Definition candidates (speakers : list string) (n i : nat) : list nat :=
  filter (λ j, j ≠ (i + 1)%nat ∧ speakers !! j ≠ speakers !! i) (seq 0 n).

(** The body of [for i in range(len(senetence_embeddings) - 1)]. *)
Definition train_position (speakers : list string)
    (embeddings : list vec) (i : nat) (st : pair_state)
    : result pair_state :=
  let s_i := embeddings !!! i in
  let s_pos := embeddings !!! (i + 1)%nat in
  let candidates := candidates speakers (length embeddings) i in
  if decide (candidates = []) then Return st
  else
    '(neg_idx, g) ← choice candidates (prng st);
    let s_neg := embeddings !!! neg_idx in
    let feat_pos_fwd := build_pairwise_features s_i s_pos in
    let feat_neg_fwd := build_pairwise_features s_i s_neg in
    let feat_pos_bwd := build_pairwise_features s_pos s_i in
    let feat_neg_bwd := build_pairwise_features s_neg s_i in
    let '(score_pos_fwd, w) := scorer_fwd feat_pos_fwd (pworld st) in
    let '(score_neg_fwd, w) := scorer_fwd feat_neg_fwd w in
    let '(score_pos_bwd, w) := scorer_bwd feat_pos_bwd w in
    let '(score_neg_bwd, w) := scorer_bwd feat_neg_bwd w in
    let score_pos := (score_pos_fwd + score_pos_bwd) / 2 in
    let score_neg := (score_neg_fwd + score_neg_bwd) / 2 in
    let loss := bounded_margin_loss_default score_pos score_neg in
    Return {| dialogue_loss := dialogue_loss st + loss;
              pair_count := S (pair_count st);
              last_pos := Some score_pos;
              last_neg := Some score_neg;
              pworld := w;
              prng := g;
              computed := computed st ++ [(score_pos, score_neg)] |}.

Fixpoint train_positions (speakers : list string) (embeddings : list vec)
    (range : list nat) (st : pair_state) : result pair_state :=
  match range with
  | [] => Return st
  | i :: range =>
      st ← train_position speakers embeddings i st;
      train_positions speakers embeddings range st
  end.

(** The body of [for dialogue in dialogues]: the next state and the
    pairs scored in this dialogue. *)
Definition train_dialogue (d : list (string * U)) (st : epoch_state)
    : result (epoch_state * list (R * R)) :=
  if decide (length d < 3)%nat then Return (st, [])
  else
    let speakers := d.*1 in
    let utterances := d.*2 in
    let '(embeddings, w) := encoder utterances (world st) in
    ps ← train_positions speakers embeddings
           (seq 0 (length embeddings - 1))
           {| dialogue_loss := 0; pair_count := 0;
              last_pos := score_pos st; last_neg := score_neg st;
              pworld := w; prng := rng st; computed := [] |};
    if decide (0 < pair_count ps)%nat then
      let dialogue_loss := dialogue_loss ps / INR (pair_count ps) in
      let w := optimizer_step dialogue_loss (pworld ps) in
      match last_pos ps, last_neg ps with
      | Some sp, Some sn =>
          Return ({| total_loss := total_loss st + dialogue_loss;
                     correct := if Rgt_dec sp sn then S (correct st)
                                else correct st;
                     total := S (total st);
                     score_pos := last_pos ps;
                     score_neg := last_neg ps;
                     world := w;
                     rng := prng ps |}, computed ps)
      | _, _ => Raise UnboundLocalError
      end
    else
      Return ({| total_loss := total_loss st;
                 correct := correct st;
                 total := total st;
                 score_pos := last_pos ps;
                 score_neg := last_neg ps;
                 world := pworld ps;
                 rng := prng ps |}, computed ps).

(** [score_pos] and [score_neg] of the pair at position [i] against the
    negative [neg_idx], from the weights [w]: the four calls of the
    scorers in the order of the source, and the two averages. *)
Definition pair_scores (embeddings : list vec) (i neg_idx : nat) (w : W)
    : R * R * W :=
  let s_i := embeddings !!! i in
  let s_pos := embeddings !!! (i + 1)%nat in
  let s_neg := embeddings !!! neg_idx in
  let '(score_pos_fwd, w) :=
    scorer_fwd (build_pairwise_features s_i s_pos) w in
  let '(score_neg_fwd, w) :=
    scorer_fwd (build_pairwise_features s_i s_neg) w in
  let '(score_pos_bwd, w) :=
    scorer_bwd (build_pairwise_features s_pos s_i) w in
  let '(score_neg_bwd, w) :=
    scorer_bwd (build_pairwise_features s_neg s_i) w in
  ((score_pos_fwd + score_pos_bwd) / 2, (score_neg_fwd + score_neg_bwd) / 2,
   w).

(** The pairs [(score_pos, score_neg)] computed over the positions
    [range] of a dialogue, in order, from the weights [w] and the
    generator [g]: a position without candidate is skipped; at any other
    the negative is drawn from the candidates and the pair is scored. *)
Fixpoint scored_pairs (speakers : list string) (embeddings : list vec)
    (range : list nat) (w : W) (g : G) : list (R * R) :=
  match range with
  | [] => []
  | i :: range =>
      let candidates := candidates speakers (length embeddings) i in
      if decide (candidates = [])
      then scored_pairs speakers embeddings range w g
      else
        match choice candidates g with
        | Return (neg_idx, g) =>
            let '(scores, w) := pair_scores embeddings i neg_idx w in
            scores :: scored_pairs speakers embeddings range w g
        | _ => []
        end
  end.

(** The positions of [range] that have a candidate negative. *)
Definition positions_with_candidates (speakers : list string) (n : nat)
    (range : list nat) : list nat :=
  filter (λ i, candidates speakers n i ≠ []) range.

(** The pairs computed for one dialogue of the epoch in state [st]: none
    for a dialogue of fewer than three turns. *)
Definition dialogue_pairs (d : list (string * U)) (st : epoch_state)
    : list (R * R) :=
  if decide (length d < 3)%nat then []
  else
    let '(embeddings, w) := encoder d.*2 (world st) in
    scored_pairs d.*1 embeddings (seq 0 (length embeddings - 1)) w (rng st).

Fixpoint train_dialogues (dialogues : list (list (string * U)))
    (st : epoch_state) : result epoch_state :=
  match dialogues with
  | [] => Return st
  | d :: dialogues =>
      '(st, _) ← train_dialogue d st;
      train_dialogues dialogues st
  end.

(** [train_one_epoch(...)]: [(total_loss, accuracy)] with the final
    state. *)
Definition train_one_epoch (dialogues : list (list (string * U)))
    (w : W) (g : G) : result (R * R * epoch_state) :=
  st ← train_dialogues dialogues
         {| total_loss := 0; correct := 0; total := 0;
            score_pos := None; score_neg := None;
            world := w; rng := g |};
  let accuracy :=
    if decide (0 < total st)%nat
    then INR (correct st) / INR (total st) else 0 in
  Return (total_loss st, accuracy, st).
End Training.
End LCD.

(** ** Validation and the training cell of the pairwise scorer
    (LCD notebook) *)

Module Validation.
Import Py Random Tensor Features Loss.
Local Open Scope R_scope.

Section Eval.
Context {U : Type}.
Context {G : Type} {RG : Random G}.

(** [eval_one_epoch] puts the networks in evaluation mode and runs under
    [torch.no_grad()]: they are functions of their input. *)
Variable encoder : list U → list vec.
Variable scorer_fwd scorer_bwd : vec → R.

(** The local variables of [eval_one_epoch], and the state of the global
    random generator. *)
Record eval_state : Type := {
  total_loss : R;
  correct : nat;
  total : nat;
  rng : G;
}.

(** What the loops of the evaluation maintain between two states: [n]
    more pairs counted, at most as many more correct, no less loss. *)
Definition advances (n : nat) (st st' : eval_state) : Prop :=
  total st' = (total st + n)%nat
  ∧ (correct st ≤ correct st')%nat
  ∧ (correct st' + total st ≤ correct st + total st')%nat
  ∧ total_loss st <= total_loss st'.

(** The body of [for i in range(len(senetence_embeddings) - 1)]. *)
Definition eval_position (speakers : list string) (embeddings : list vec)
    (i : nat) (st : eval_state) : result eval_state :=
  let s_i := embeddings !!! i in
  let s_pos := embeddings !!! (i + 1)%nat in
  let candidates := LCD.candidates speakers (length embeddings) i in
  if decide (candidates = []) then Return st
  else
    '(neg_idx, g) ← choice candidates (rng st);
    let s_neg := embeddings !!! neg_idx in
    let feat_pos_fwd := build_pairwise_features s_i s_pos in
    let feat_neg_fwd := build_pairwise_features s_i s_neg in
    let feat_pos_bwd := build_pairwise_features s_pos s_i in
    let feat_neg_bwd := build_pairwise_features s_neg s_i in
    let score_pos_fwd := scorer_fwd feat_pos_fwd in
    let score_neg_fwd := scorer_fwd feat_neg_fwd in
    let score_pos_bwd := scorer_bwd feat_pos_bwd in
    let score_neg_bwd := scorer_bwd feat_neg_bwd in
    let score_pos := (score_pos_fwd + score_pos_bwd) / 2 in
    let score_neg := (score_neg_fwd + score_neg_bwd) / 2 in
    let loss := bounded_margin_loss_default score_pos score_neg in
    Return {| total_loss := total_loss st + loss;
              correct := if Rgt_dec score_pos score_neg
                         then S (correct st) else correct st;
              total := S (total st);
              rng := g |}.

Fixpoint eval_positions (speakers : list string) (embeddings : list vec)
    (range : list nat) (st : eval_state) : result eval_state :=
  match range with
  | [] => Return st
  | i :: range =>
      st ← eval_position speakers embeddings i st;
      eval_positions speakers embeddings range st
  end.

(** The body of [for dialogue in dialogues]. *)
Definition eval_dialogue (d : list (string * U)) (st : eval_state)
    : result eval_state :=
  if decide (length d < 3)%nat then Return st
  else
    let speakers := d.*1 in
    let utterances := d.*2 in
    let embeddings := encoder utterances in
    eval_positions speakers embeddings (seq 0 (length embeddings - 1)) st.

Fixpoint eval_dialogues (dialogues : list (list (string * U)))
    (st : eval_state) : result eval_state :=
  match dialogues with
  | [] => Return st
  | d :: dialogues =>
      st ← eval_dialogue d st;
      eval_dialogues dialogues st
  end.

(** The positions of a dialogue at which the loops above score a pair:
    those with a candidate negative. *)
Definition scored_positions (d : list (string * U)) : list nat :=
  if decide (length d < 3)%nat then []
  else
    let embeddings := encoder d.*2 in
    filter (λ i, LCD.candidates d.*1 (length embeddings) i ≠ [])
      (seq 0 (length embeddings - 1)).

(** [eval_one_epoch(...)]: [(total_loss, accuracy)] with the final
    state. *)
Definition eval_one_epoch (dialogues : list (list (string * U))) (g : G)
    : result (R * R * eval_state) :=
  st ← eval_dialogues dialogues
         {| total_loss := 0; correct := 0; total := 0; rng := g |};
  let accuracy :=
    if decide (0 < total st)%nat
    then INR (correct st) / INR (total st) else 0 in
  Return (total_loss st, accuracy, st).
End Eval.

Section Cell.
Context {U : Type}.
Context {G : Type} {RG : Random G}.

(** The weights [W] and the networks in training mode, as in
    [LCD.train_one_epoch]; in evaluation mode the networks are functions
    of the weights and of their input. *)
Variable W : Type.
Variable encoder : list U → W → list vec * W.
Variable scorer_fwd scorer_bwd : vec → W → R * W.
Variable optimizer_step : R → W → W.
Variable encoder_eval : W → list U → list vec.
Variable scorer_fwd_eval scorer_bwd_eval : W → vec → R.

(** The state of the training cell: [saved] lists every [torch.save],
    with the epoch number printed and the weights written (the file
    [best_lcd_in.pt] holds the last); [printed] lists the four numbers
    of the line printed at every epoch. *)
Record cell_state : Type := {
  best_val_acc : R;
  saved : list (nat * W);
  printed : list (R * R * R * R);
  weights : W;
  generator : G;
}.

(** The validation accuracies printed so far, one per epoch. *)
Definition val_accs (st : cell_state) : list R :=
  (λ line : R * R * R * R, line.2) <$> printed st.

(** What the loop over the epochs maintains, with [e] the number of
    epochs run: [best_val_acc] bounds every validation accuracy seen;
    it is still 0 while nothing has been saved; the last save was made
    at the first epoch whose validation accuracy is [best_val_acc]. *)
Definition keeps_best (st : cell_state) : Prop :=
  0 <= best_val_acc st
  ∧ Forall (λ a, 0 <= a <= 1) (val_accs st)
  ∧ Forall (λ a, a <= best_val_acc st) (val_accs st)
  ∧ (saved st = [] → best_val_acc st = 0)
  ∧ (∀ epoch w, last (saved st) = Some (epoch, w) →
       0 < best_val_acc st
       ∧ (1 ≤ epoch ≤ length (printed st))%nat
       ∧ val_accs st !! (epoch - 1)%nat = Some (best_val_acc st)
       ∧ ∀ j a, (j < epoch - 1)%nat → val_accs st !! j = Some a →
                a < best_val_acc st).

(** The body of [for epoch in range(num_epochs)]. *)
Definition run_epoch (train_data val_data : list (list (string * U)))
    (epoch : nat) (st : cell_state) : result cell_state :=
  '(train_loss, train_acc, trained) ←
    LCD.train_one_epoch W encoder scorer_fwd scorer_bwd optimizer_step
      train_data (weights st) (generator st);
  let w := LCD.world W trained in
  '(val_loss, val_acc, evaluated) ←
    eval_one_epoch (encoder_eval w) (scorer_fwd_eval w) (scorer_bwd_eval w)
      val_data (LCD.rng W trained);
  let printed := printed st ++ [(train_loss, train_acc, val_loss, val_acc)] in
  if Rgt_dec val_acc (best_val_acc st) then
    Return {| best_val_acc := val_acc;
              saved := saved st ++ [((epoch + 1)%nat, w)];
              printed := printed;
              weights := w;
              generator := rng evaluated |}
  else
    Return {| best_val_acc := best_val_acc st;
              saved := saved st;
              printed := printed;
              weights := w;
              generator := rng evaluated |}.

Fixpoint run_epochs (train_data val_data : list (list (string * U)))
    (range : list nat) (st : cell_state) : result cell_state :=
  match range with
  | [] => Return st
  | epoch :: range =>
      st ← run_epoch train_data val_data epoch st;
      run_epochs train_data val_data range st
  end.

(** The training cell, from [best_val_acc=0.0] on. The notebook sets
    [num_epochs=8]. *)
Definition training_cell (num_epochs : nat)
    (train_data val_data : list (list (string * U))) (w : W) (g : G)
    : result cell_state :=
  run_epochs train_data val_data (seq 0 num_epochs)
    {| best_val_acc := 0; saved := []; printed := [];
       weights := w; generator := g |}.
End Cell.
End Validation.

(** ** Items, batches and validation of the document classifier
    (HT notebook) *)

Module Batching.
Import Py Tensor Corpus HT.
Local Open Scope R_scope.

(** [l[idx]] on a Python list: a negative index counts from the end. *)
Definition list_index {A} (l : list A) (idx : Z) : result A :=
  let n := Z.of_nat (length l) in
  let pos := if decide (idx < 0)%Z then (idx + n)%Z else idx in
  if decide (0 ≤ pos < n)%Z then
    match l !! Z.to_nat pos with
    | Some x => Return x
    | None => Raise IndexError
    end
  else Raise IndexError.

(** [DialogueCoherenceDataset.__len__]. *)
Definition len (self : dataset) : nat := length (dialogues self).

(** [DialogueCoherenceDataset.__getitem__]. *)
Definition getitem (self : dataset) (idx : Z) : result (list json * nat) :=
  dialogue ← list_index (dialogues self) idx;
  let utterances := dialogue.*2 in
  label ← list_index (labels self) idx;
  Return (utterances, label).

(** [collate_fn(batch)]: [(padded_utts, mask, labels)]. The mask and the
    labels are float tensors, the labels of shape [(len(batch), 1)].
    Unpacking [zip] of an empty batch raises [ValueError]. *)
Definition collate_fn (batch : list (list json * nat))
    : result (list (list json) * list (list R) * list (list R)) :=
  match batch with
  | [] => Raise LCD.unpack_error
  | _ =>
      let utter_lists := batch.*1 in
      let labels := batch.*2 in
      let maxlen := max_list (length <$> utter_lists) in
      let padded_utts :=
        (λ utts, utts ++ replicate (maxlen - length utts) (JString ""))
          <$> utter_lists in
      let mask :=
        (λ utts : list json,
           replicate (length utts) 1 ++ replicate (maxlen - length utts) 0)
          <$> utter_lists in
      let labels := (λ l, [INR l]) <$> labels in
      Return (padded_utts, mask, labels)
  end.

(** What the epoch functions raise: [RuntimeError] ([torch.split] with
    sizes that do not add up), [ValueError] ([max] of an empty sequence)
    and [ZeroDivisionError]. *)
Inductive error : Type :=
| RuntimeError
| ValueError
| ZeroDivisionError.

(** [.long()] on a float: truncation toward zero. *)
Definition long (x : R) : Z :=
  if Rle_dec 0 x then Int_part x else (- Int_part (- x))%Z.

(** [torch.split(rows, sizes, dim=0)]: [None] when the sizes do not add
    up to the number of rows. *)
Fixpoint split (rows : list vec) (sizes : list nat)
    : option (list (list vec)) :=
  match sizes with
  | [] => if decide (rows = []) then Some [] else None
  | n :: sizes =>
      if decide (n ≤ length rows)%nat then
        chunks ← split (drop n rows) sizes;
        Some (take n rows :: chunks)
      else None
  end.

(** [(preds == true_labels).sum()] on two flat arrays of one length. *)
Definition count_equal (preds true_labels : list Z) : nat :=
  length (filter (λ p : Z * Z, p.1 = p.2) (zip preds true_labels)).

Section Epochs.
(** In evaluation mode and under [torch.no_grad()]: the sentence encoder
    yields one row of width [hidden_size] per sentence, the document
    encoder logits of shape [(batch_size, 1)], the criterion a scalar. *)
Variable hidden_size : nat.
Variable sent_encoder : list json → list vec.
Variable doc_encoder : list (list vec) → list (list R) → list (list R).
Variable criterion : list (list R) → list (list R) → R.

(** [torch.sigmoid] on the logits. It is computed in floating point and
    is not the logistic function of the reals: it rounds, and is exactly
    0.5 on a range of small logits around 0. It is left as a function of
    the logit. *)
Variable sigmoid : R → R.

(** [(torch.sigmoid(logits) > 0.5).long()] on one logit. *)
Definition predict (logit : R) : Z :=
  if Rgt_dec (sigmoid logit) (1 / 2) then 1%Z else 0%Z.

(** From [flat_utterances] to the stacked [utter_emb_batch]. *)
Definition embed_batch (utter_lists : list (list json))
    : error + list (list vec) :=
  let flat_utterances := concat utter_lists in
  let flat_embeddings := sent_encoder flat_utterances in
  let splits := length <$> utter_lists in
  match split flat_embeddings splits with
  | None => inl RuntimeError
  | Some utter_emb_batch =>
      match splits with
      | [] => inl ValueError
      | _ =>
          let maxlen := max_list splits in
          inr ((λ e, e ++ replicate (maxlen - length e) (zeros hidden_size))
                 <$> utter_emb_batch)
      end
  end.

(** The local variables of [val_one_epoch] and [test_one_epoch]. *)
Record val_state : Type := {
  total_loss : R;
  total_correct : nat;
  total : nat;
  all_preds : list Z;
  all_labels : list Z;
}.

(** The body of [for utter_lists, mask, labels in dataloader]. *)
Definition val_batch
    (batch : list (list json) * list (list R) * list (list R))
    (st : val_state) : error + val_state :=
  let '(utter_lists, mask, labels) := batch in
  let batch_size := length utter_lists in
  match embed_batch utter_lists with
  | inl e => inl e
  | inr utter_emb_batch =>
      let logits := doc_encoder utter_emb_batch mask in
      let loss := criterion logits labels in
      let preds := predict <$> concat logits in
      let true_labels := long <$> concat labels in
      inr {| total_loss := total_loss st + loss * INR batch_size;
             total_correct :=
               (total_correct st + count_equal preds true_labels)%nat;
             total := (total st + batch_size)%nat;
             all_preds := all_preds st ++ preds;
             all_labels := all_labels st ++ true_labels |}
  end.

Fixpoint val_batches
    (dataloader : list (list (list json) * list (list R) * list (list R)))
    (st : val_state) : error + val_state :=
  match dataloader with
  | [] => inr st
  | batch :: dataloader =>
      match val_batch batch st with
      | inl e => inl e
      | inr st => val_batches dataloader st
      end
  end.

(** [val_one_epoch(...)]: [(avg_loss, avg_acc)] with the final state;
    [dataloader] is the list of batches the loader yields.
    [test_one_epoch] runs the same statements and also returns the
    predictions and the labels, which are in the state. The F1 score
    that both compute from these two lists is sklearn's and is left
    out. *)
Definition val_one_epoch
    (dataloader : list (list (list json) * list (list R) * list (list R)))
    : error + (R * R * val_state) :=
  match val_batches dataloader
          {| total_loss := 0; total_correct := 0; total := 0;
             all_preds := []; all_labels := [] |} with
  | inl e => inl e
  | inr st =>
      if decide (total st = 0)%nat then inl ZeroDivisionError
      else
        let avg_loss := total_loss st / INR (total st) in
        let avg_acc := INR (total_correct st) / INR (total st) in
        inr (avg_loss, avg_acc, st)
  end.
End Epochs.
End Batching.

(** ** Dialogues used as test inputs *)

Module Scenarios.
(** The end-to-end scenario of the specification. *)
Definition greeting : list (string * string) :=
  [("A", "hi"); ("B", "hello"); ("A", "how are you"); ("B", "fine")].

(** A three-turn exchange: speaker B has a single turn. *)
Definition short_reply : list (string * string) :=
  [("A", "hi"); ("B", "hello"); ("A", "how are you")].

(** Speaker A gives the same answer twice. *)
Definition repeated_answer : list (string * string) :=
  [("A", "ok"); ("B", "hi"); ("A", "ok")].

(** Speaker A has two different turns around one turn of B. *)
Definition two_turns_of_A : list (string * string) :=
  [("A", "x"); ("B", "y"); ("A", "z")].
End Scenarios.

(** ** A parser and lines used as test inputs *)

Module Samples.
Import Corpus.

(** What [json.loads] gives for a line holding a dialogue of two turns. *)
Definition two_turns : json :=
  JObject [("dialogue", JArray [JObject [("A", JString "hi")];
                                JObject [("B", JString "yo")]])].

(** A parser that knows three lines: a dialogue, a JSON list, and a
    record whose dialogue is [null]; it rejects every other line. *)
Definition loads (line : string) : option json :=
  if decide (line = "ok") then Some two_turns
  else if decide (line = "[1]") then Some (JArray [JNumber 1])
  else if decide (line = "null") then Some (JObject [("dialogue", JNull)])
  else None.
End Samples.

(** * Properties *)

Module LossFacts.
Import Tensor Loss.
Local Open Scope R_scope.

Ltac rmax_cases :=
  unfold bounded_margin_loss_default, bounded_margin_loss, clamp_min,
    default_margin, default_upper_bound, default_lower_bound,
    default_lambda_upper, default_lambda_lower, Rmax in *;
  repeat (match goal with
          | |- context [Rle_dec ?a ?b] => destruct (Rle_dec a b)
          | H : context [Rle_dec ?a ?b] |- _ => destruct (Rle_dec a b)
          end);
  try lra; try nra.

Lemma clamp_min_nonneg x : 0 <= clamp_min x 0.
Proof. unfold clamp_min. apply Rmax_r. Qed.

Lemma clamp_min_zero_iff x : clamp_min x 0 = 0 ↔ x <= 0.
Proof. rmax_cases; split; intros; lra. Qed.

Lemma bounded_margin_loss_nonneg p n m U L lU lL :
  0 <= lU → 0 <= lL → 0 <= bounded_margin_loss p n m U L lU lL.
Proof.
  intros HU HL. unfold bounded_margin_loss.
  pose proof (clamp_min_nonneg (m - (p - n))).
  pose proof (clamp_min_nonneg (p - U)).
  pose proof (clamp_min_nonneg (L - p)).
  nra.
Qed.

(** For any positive penalty weights the loss vanishes exactly when the
    margin is met and the positive score lies inside the bounds. *)
Lemma bounded_margin_loss_zero_iff p n m U L lU lL :
  0 < lU → 0 < lL →
  bounded_margin_loss p n m U L lU lL = 0 ↔ (p - n >= m ∧ L <= p <= U).
Proof.
  intros HU HL. unfold bounded_margin_loss.
  pose proof (clamp_min_nonneg (m - (p - n))) as H1.
  pose proof (clamp_min_nonneg (p - U)) as H2.
  pose proof (clamp_min_nonneg (L - p)) as H3.
  pose proof (clamp_min_zero_iff (m - (p - n))) as Z1.
  pose proof (clamp_min_zero_iff (p - U)) as Z2.
  pose proof (clamp_min_zero_iff (L - p)) as Z3.
  split.
  - intros H0.
    assert (clamp_min (m - (p - n)) 0 = 0) as E1 by nra.
    assert (clamp_min (p - U) 0 = 0) as E2 by nra.
    assert (clamp_min (L - p) 0 = 0) as E3 by nra.
    apply Z1 in E1. apply Z2 in E2. apply Z3 in E3. lra.
  - intros (Hm & Hl & Hu).
    assert (clamp_min (m - (p - n)) 0 = 0) as E1 by (apply Z1; lra).
    assert (clamp_min (p - U) 0 = 0) as E2 by (apply Z2; lra).
    assert (clamp_min (L - p) 0 = 0) as E3 by (apply Z3; lra).
    rewrite E1, E2, E3. lra.
Qed.

(** C3. With the default parameters the loss is the sum of the three
    hinge terms; it is 0 exactly when [score_pos - score_neg >= 10] and
    [0 <= score_pos <= 10]; it is strictly positive as soon as one of the
    three conditions fails; and it does not decrease (and strictly
    increases where stated) when a violated condition is violated
    further: a larger [score_neg] under a missed margin, a larger
    [score_pos] above the upper bound, a smaller [score_pos] below the
    lower bound. *)
Theorem bounded_margin_loss_spec (score_pos score_neg : R) :
  let loss := bounded_margin_loss_default in
  let ok p n := p - n >= 10 ∧ 0 <= p <= 10 in
  (∀ m U L lU lL,
      bounded_margin_loss score_pos score_neg m U L lU lL
      = Rmax 0 (m - (score_pos - score_neg))
        + lU * Rmax 0 (score_pos - U) + lL * Rmax 0 (L - score_pos))
  ∧ loss score_pos score_neg
    = bounded_margin_loss score_pos score_neg 10 10 0 1 1
  ∧ (loss score_pos score_neg = 0 ↔ ok score_pos score_neg)
  ∧ (¬ ok score_pos score_neg → 0 < loss score_pos score_neg)
  ∧ (∀ n', score_pos - score_neg < 10 → score_neg < n' →
           loss score_pos score_neg < loss score_pos n')
  ∧ (∀ p', score_pos - score_neg < 10 → p' < score_pos →
           loss score_pos score_neg <= loss p' score_neg)
  ∧ (∀ p', 10 < score_pos → score_pos < p' →
           loss score_pos score_neg <= loss p' score_neg
           ∧ (score_pos - score_neg >= 10 →
              loss score_pos score_neg < loss p' score_neg))
  ∧ (∀ p', score_pos < 0 → p' < score_pos →
           loss score_pos score_neg < loss p' score_neg).
Proof.
  cbv zeta.
  pose proof (bounded_margin_loss_zero_iff score_pos score_neg 10 10 0 1 1)
    as Hz.
  pose proof (bounded_margin_loss_nonneg score_pos score_neg 10 10 0 1 1)
    as Hge.
  assert (bounded_margin_loss_default score_pos score_neg
          = bounded_margin_loss score_pos score_neg 10 10 0 1 1) as Hd
    by reflexivity.
  split; [|split; [|split; [|split; [|split; [|split; [|split]]]]]].
  - intros m U L lU lL. unfold bounded_margin_loss, clamp_min.
    rewrite !(Rmax_comm 0). reflexivity.
  - exact Hd.
  - rewrite Hd. apply Hz; lra.
  - intros Hnok. rewrite Hd.
    destruct (Req_dec (bounded_margin_loss score_pos score_neg 10 10 0 1 1)
                0) as [E|E].
    + exfalso. apply Hnok. apply Hz; [lra | lra | exact E].
    + lra.
  - clear. intros n' Hv Hlt. rmax_cases.
  - clear. intros p' Hv Hlt. rmax_cases.
  - clear. intros p' Hv Hlt. split; [|intros Hm]; rmax_cases.
  - clear. intros p' Hv Hlt. rmax_cases.
Qed.
(** The defaults at [score_pos = 5], [score_neg = -5]: the margin is met
    exactly and the positive score is inside the bounds. *)
Lemma bounded_margin_loss_spec_witness :
  bounded_margin_loss_default 5 (-5) = 0
  ∧ 0 < bounded_margin_loss_default 5 0.
Proof.
  destruct (bounded_margin_loss_spec 5 (-5)) as (_ & _ & Hz & _).
  destruct (bounded_margin_loss_spec 5 0) as (_ & _ & _ & Hp & _).
  split; [apply Hz; lra | apply Hp; lra].
Defined.
End LossFacts.

Module EncoderFacts.
Import Tensor Encoder.
Local Open Scope R_scope.

Lemma length_map2 f s t : length (map2 f s t) = min (length s) (length t).
Proof.
  revert t; induction s as [|x s IH]; intros [|y t]; simpl; auto.
Qed.

Lemma vadd_zeros_l d e : length e = d → vadd (zeros d) e = e.
Proof.
  revert d; induction e as [|x e IH]; intros [|d] Hd; simpl in *;
    try discriminate; auto.
  unfold vadd in *. simpl. rewrite Rplus_0_l. f_equal.
  apply (IH d). lia.
Qed.

Lemma vscale_0 e : vscale 0 e = zeros (length e).
Proof.
  induction e as [|x e IH]; simpl; auto.
  unfold zeros in *. simpl. rewrite Rmult_0_l. f_equal. exact IH.
Qed.

Lemma vscale_1 e : vscale 1 e = e.
Proof.
  induction e as [|x e IH]; simpl; auto. rewrite Rmult_1_l. f_equal. exact IH.
Qed.

Lemma length_sum_tokens d rows :
  Forall (λ e, length e = d) rows → length (sum_tokens d rows) = d.
Proof.
  induction 1 as [|e rows He _ IH]; simpl.
  - unfold zeros. apply length_replicate.
  - unfold vadd. rewrite length_map2. unfold vadd in IH. lia.
Qed.

Lemma masked_all_ones rows :
  masked_embeddings rows (replicate (length rows) 1%Z) = rows.
Proof.
  unfold masked_embeddings.
  induction rows as [|e rows IH]; simpl; auto.
  rewrite vscale_1. f_equal. exact IH.
Qed.

Lemma sum_tokens_masked_zero d rows :
  Forall (λ e, length e = d) rows →
  sum_tokens d (masked_embeddings rows (replicate (length rows) 0%Z))
  = zeros d.
Proof.
  unfold masked_embeddings, sum_tokens.
  induction 1 as [|e rows He _ IH]; [reflexivity|].
  cbn [length replicate zip_with foldr].
  rewrite IH, vscale_0, He.
  apply vadd_zeros_l. unfold zeros. apply length_replicate.
Qed.

Lemma sum_mask_ones n : foldr Z.add 0%Z (replicate n 1%Z) = Z.of_nat n.
Proof. induction n as [|n IH]; simpl replicate; simpl foldr; lia. Qed.

Lemma sum_mask_zeros n : foldr Z.add 0%Z (replicate n 0%Z) = 0%Z.
Proof. induction n as [|n IH]; simpl; auto. Qed.

Lemma nth_map2 f s t j :
  length s = length t →
  nth j (map2 f s t) 0 = if decide (j < length s)%nat
                         then f (nth j s 0) (nth j t 0) else 0.
Proof.
  revert t j; induction s as [|x s IH]; intros [|y t] j Hl;
    try discriminate.
  - destruct j; reflexivity.
  - cbn [map2 length]. destruct j as [|j]; cbn [nth].
    + rewrite decide_True by lia. reflexivity.
    + rewrite IH by (simpl in Hl; lia).
      destruct (decide (j < length s)%nat);
        [rewrite decide_True by lia | rewrite decide_False by lia];
        reflexivity.
Qed.

Lemma nth_sum_tokens d rows j :
  Forall (λ e, length e = d) rows → (j < d)%nat →
  nth j (sum_tokens d rows) 0 = component_sum rows j.
Proof.
  intros Hrows Hj. induction Hrows as [|e rows He Hrows IH].
  - simpl. unfold zeros, component_sum. simpl.
    apply nth_lookup_Some with (d := 0). apply lookup_replicate_2. exact Hj.
  - simpl. unfold vadd. rewrite nth_map2.
    + rewrite decide_True by lia. unfold component_sum. simpl.
      f_equal. exact IH.
    + rewrite (length_sum_tokens d rows Hrows). exact He.
Qed.

Lemma nth_map_seq (f : nat → R) d j :
  (j < d)%nat → nth j (map f (seq 0 d)) 0 = f j.
Proof.
  intros Hj. rewrite (nth_indep _ 0 (f 0%nat)).
  - rewrite (map_nth f). rewrite seq_nth by exact Hj. reflexivity.
  - rewrite length_map, length_seq. exact Hj.
Qed.

Lemma list_eq_nth (u v : vec) :
  length u = length v →
  (∀ j, (j < length u)%nat → nth j u 0 = nth j v 0) → u = v.
Proof.
  revert v; induction u as [|x u IH]; intros [|y v] Hl Hn; simpl in *;
    try discriminate; auto.
  f_equal.
  - apply (Hn 0%nat). lia.
  - apply IH; [lia|]. intros j Hj. apply (Hn (S j)). lia.
Qed.

(** The divisor of the pooling step is never below one, whatever the
    mask holds. *)
Lemma counts_ge_1 mask : (1 <= counts mask)%Z.
Proof. unfold counts. lia. Qed.

(** C7. Mean pooling divides the mask-weighted sum of the token vectors by
    the number of real tokens clamped to at least 1. For [n >= 1] tokens
    of width [d] under an all-ones mask the result is their arithmetic
    mean; under an all-zero mask the divisor is exactly 1 (so it is not
    zero) and the result is the zero vector, namely the masked sum itself;
    for every mask the divisor is at least 1. *)
Theorem mean_pool_spec (d : nat) (embeddings : list vec) :
  Forall (λ e, length e = d) embeddings →
  let n := length embeddings in
  (∀ mask,
      mean_pool d embeddings mask
      = vdiv (sum_tokens d (masked_embeddings embeddings mask))
             (IZR (Z.max (foldr Z.add 0%Z mask) 1))
      ∧ IZR (counts mask) >= 1 ∧ IZR (counts mask) ≠ 0)
  ∧ ((1 <= n)%nat →
     mean_pool d embeddings (replicate n 1%Z) = arithmetic_mean d embeddings)
  ∧ (counts (replicate n 0%Z) = 1%Z
     ∧ sum_tokens d (masked_embeddings embeddings (replicate n 0%Z)) = zeros d
     ∧ mean_pool d embeddings (replicate n 0%Z) = zeros d).
Proof.
  intros Hrows n. split; [|split].
  - intros mask. split; [reflexivity|].
    pose proof (counts_ge_1 mask) as H1. apply IZR_le in H1.
    split; lra.
  - intros Hn. unfold mean_pool. subst n. rewrite masked_all_ones.
    unfold counts. rewrite sum_mask_ones.
    rewrite Z.max_l by lia. rewrite <- INR_IZR_INZ.
    apply list_eq_nth.
    + unfold vdiv, arithmetic_mean.
      rewrite !length_map, length_seq. apply length_sum_tokens, Hrows.
    + intros j Hj. unfold vdiv in *. rewrite length_map in Hj.
      rewrite (length_sum_tokens d embeddings Hrows) in Hj.
      pose proof (length_sum_tokens d embeddings Hrows) as Hlen.
      unfold arithmetic_mean.
      rewrite (nth_indep _ 0 (0 / INR (length embeddings)))
        by (rewrite length_map; lia).
      rewrite (map_nth (λ x, x / INR (length embeddings))).
      rewrite nth_map_seq by exact Hj.
      rewrite nth_sum_tokens; auto.
  - assert (counts (replicate n 0%Z) = 1%Z) as Hc
        by (unfold counts; rewrite sum_mask_zeros; reflexivity).
    assert (sum_tokens d (masked_embeddings embeddings (replicate n 0%Z))
            = zeros d) as Hs by (apply sum_tokens_masked_zero, Hrows).
    split; [exact Hc|]. split; [exact Hs|].
    unfold mean_pool. rewrite Hs, Hc. unfold vdiv, zeros.
    clear. induction d as [|d IH]; simpl; auto.
    f_equal; [lra | exact IH].
Qed.

(** A concrete instance: two tokens of width two. *)
Lemma mean_pool_spec_witness :
  mean_pool 2 [[1; 2]; [3; 4]] [1%Z; 1%Z] = arithmetic_mean 2 [[1; 2]; [3; 4]]
  ∧ mean_pool 2 [[1; 2]; [3; 4]] [0%Z; 0%Z] = zeros 2.
Proof.
  assert (Forall (λ e : vec, length e = 2%nat) [[1; 2]; [3; 4]]) as H
    by (repeat constructor).
  destruct (mean_pool_spec 2 [[1; 2]; [3; 4]] H) as (_ & Hones & _ & _ & Hz).
  split; [apply Hones; simpl; lia | exact Hz].
Defined.
End EncoderFacts.

Module FeaturesFacts.
Import Tensor Features.
Local Open Scope R_scope.

Lemma length_map2_same f s t :
  length s = length t → length (map2 f s t) = length s.
Proof.
  revert t; induction s as [|x s IH]; intros [|y t] Hl; simpl in *;
    try discriminate; auto.
Qed.

Lemma block_0 d (a rest : vec) : length a = d → block 0 d (a ++ rest) = a.
Proof.
  intros Ha. unfold block, slice. simpl.
  rewrite Nat.add_0_r, Nat.sub_0_r. now apply take_app_length'.
Qed.

Lemma block_S k d (a rest : vec) :
  length a = d → block (S k) d (a ++ rest) = block k d rest.
Proof.
  intros Ha. unfold block, slice.
  replace (S k * d)%nat with (d + k * d)%nat by lia.
  rewrite <- drop_drop. rewrite drop_app_length' by (symmetry; exact Ha).
  f_equal. lia.
Qed.

Lemma block_last d (a : vec) : length a = d → block 0 d a = a.
Proof.
  intros Ha. rewrite <- (app_nil_r a) at 1. now apply block_0.
Qed.

Lemma vsub_swap s t : vsub t s = map Ropp (vsub s t).
Proof.
  revert t; induction s as [|x s IH]; intros [|y t]; simpl; auto.
  unfold vsub in *. simpl. f_equal; [lra | apply IH].
Qed.

Lemma vabs_vsub_swap s t : vabs (vsub t s) = vabs (vsub s t).
Proof.
  revert t; induction s as [|x s IH]; intros [|y t]; simpl; auto.
  unfold vabs, vsub in *. simpl. f_equal; [apply Rabs_minus_sym | apply IH].
Qed.

Lemma vmul_swap s t : vmul t s = vmul s t.
Proof.
  revert t; induction s as [|x s IH]; intros [|y t]; simpl; auto.
  unfold vmul in *. simpl. f_equal; [lra | apply IH].
Qed.

Lemma vsub_swap_eq s t :
  length s = length t → vsub s t = vsub t s → s = t.
Proof.
  revert t; induction s as [|x s IH]; intros [|y t] Hl He; simpl in *;
    try discriminate; auto.
  unfold vsub in *. simpl in He. injection He as Hx Hr.
  f_equal; [lra | apply IH; [lia | exact Hr]].
Qed.

(** The five blocks of the feature vector of two embeddings of width [d]. *)
Lemma build_pairwise_features_blocks d s t :
  length s = d → length t = d →
  let f := build_pairwise_features s t in
  block 0 d f = s ∧ block 1 d f = t ∧ block 2 d f = vsub s t
  ∧ block 3 d f = vabs (vsub s t) ∧ block 4 d f = vmul s t.
Proof.
  intros Hs Ht. cbv zeta. unfold build_pairwise_features.
  assert (length (vsub s t) = d) as Hd
    by (unfold vsub; rewrite length_map2_same; congruence).
  assert (length (vabs (vsub s t)) = d) as Ha
    by (unfold vabs; rewrite length_map; exact Hd).
  assert (length (vmul s t) = d) as Hm
    by (unfold vmul; rewrite length_map2_same; congruence).
  repeat split.
  - now rewrite block_0.
  - now rewrite block_S, block_0.
  - now rewrite !block_S, block_0.
  - now rewrite !block_S, block_0.
  - now rewrite !block_S, block_last.
Qed.

(** C5, as stated, fails: for [s = [1]] and [t = [2]] the absolute
    difference block is [[1]] and the product block is [[2]] in both
    orders. *)
Lemma swap_keeps_abs_and_product :
  ¬ swap_changes_every_derived_block.
Proof.
  intros H.
  destruct (H 1%nat [1] [2] eq_refl eq_refl) as (_ & Habs & _).
  - intros E. injection E as E. lra.
  - apply Habs.
    destruct (build_pairwise_features_blocks 1 [1] [2] eq_refl eq_refl)
      as (_ & _ & _ & -> & _).
    destruct (build_pairwise_features_blocks 1 [2] [1] eq_refl eq_refl)
      as (_ & _ & _ & -> & _).
    apply vabs_vsub_swap.
Qed.

(** C5, amended. For embeddings [s], [t] of width [d] the feature vector
    has length [5 d] and is laid out as [s, t, s - t, |s - t|, s * t], so
    its slice [0:d] is [s] and its slice [d:2d] is [t]. Swapping [s] and
    [t] negates the difference block and leaves the absolute-difference
    and product blocks unchanged; when [s ≠ t] the difference block does
    change and the whole feature vectors differ. *)
Theorem build_pairwise_features_spec (d : nat) (s t : vec) :
  length s = d → length t = d →
  let f := build_pairwise_features s t in
  let g := build_pairwise_features t s in
  f = s ++ t ++ vsub s t ++ vabs (vsub s t) ++ vmul s t
  ∧ length f = (5 * d)%nat
  ∧ slice 0 d f = s
  ∧ slice d (2 * d) f = t
  ∧ block 2 d g = map Ropp (block 2 d f)
  ∧ block 3 d g = block 3 d f
  ∧ block 4 d g = block 4 d f
  ∧ (s ≠ t → block 2 d g ≠ block 2 d f ∧ f ≠ g).
Proof.
  intros Hs Ht. cbv zeta.
  destruct (build_pairwise_features_blocks d s t Hs Ht)
    as (B0 & B1 & B2 & B3 & B4).
  destruct (build_pairwise_features_blocks d t s Ht Hs)
    as (C0 & C1 & C2 & C3 & C4).
  cbv zeta in *.
  split; [reflexivity|]. split.
  { unfold build_pairwise_features, vabs, vsub, vmul.
    rewrite !length_app, length_map, !length_map2_same by congruence. lia. }
  split.
  { unfold block, slice in B0. simpl in B0.
    unfold slice. rewrite Nat.add_0_r in B0. exact B0. }
  split.
  { unfold block in B1. replace (1 * d)%nat with d in B1 by lia. exact B1. }
  split; [rewrite C2, B2; apply vsub_swap|].
  split; [rewrite C3, B3; apply vabs_vsub_swap|].
  split; [rewrite C4, B4; apply vmul_swap|].
  intros Hne. split.
  - rewrite C2, B2. intros E. apply Hne.
    apply vsub_swap_eq; [congruence | auto].
  - intros E. apply Hne.
    transitivity (block 0 d (build_pairwise_features s t));
      [symmetry; exact B0 | rewrite E; exact C0].
Qed.

(** A concrete instance with two embeddings of width two. *)
Lemma build_pairwise_features_spec_witness :
  build_pairwise_features [1; 2] [3; 5] ≠ build_pairwise_features [3; 5] [1; 2].
Proof.
  destruct (build_pairwise_features_spec 2 [1; 2] [3; 5] eq_refl eq_refl)
    as (_ & _ & _ & _ & _ & _ & _ & Hne).
  apply Hne. intros E. injection E as E _. lra.
Defined.
End FeaturesFacts.

(** ** Negative synthesis *)

Module SynthFacts.
Import Py Random Synth.

Section Generic.
Context {U : Type} {U_eq_dec : EqDecision U}.
Context {G : Type} {RG : Random G}.

Lemma choice_nonempty {A} (l : list A) (g : G) :
  l ≠ [] → ∃ x g', choice l g = Return (x, g') ∧ x ∈ l.
Proof.
  intros Hl. unfold choice.
  pose proof (randbelow_lt (length l) g) as Hlt.
  destruct (randbelow (length l) g) as [i g'] eqn:E. simpl in Hlt.
  assert (0 < length l) as Hpos by (destruct l; [done | simpl; lia]).
  destruct (lookup_lt_is_Some_2 l i (Hlt Hpos)) as [x Hx].
  rewrite Hx. exists x, g'. split; [done|].
  eapply list_elem_of_lookup_2, Hx.
Qed.

Lemma elem_of_speaker_indices (d : list (string * U)) spk i :
  i ∈ speaker_indices d spk ↔ ∃ u, d !! i = Some (spk, u).
Proof.
  unfold speaker_indices, enumerate. rewrite list_elem_of_fmap. split.
  - intros ([j [s u]] & -> & Hin).
    apply list_elem_of_filter in Hin as [Hs Hin]. simpl in Hs. subst s.
    apply elem_of_lookup_imap in Hin as (i' & t' & Heq & Ht).
    simplify_eq. exists u. exact Ht.
  - intros (u & Hu). exists (i, (spk, u)). split; [done|].
    apply list_elem_of_filter. split; [done|].
    apply elem_of_lookup_imap. by exists i, (spk, u).
Qed.

Lemma speaker_indices_absent (d : list (string * U)) spk :
  Forall (λ t, t.1 ≠ spk) d → speaker_indices d spk = [].
Proof.
  intros Hd. apply elem_of_nil_inv. intros i Hi.
  apply elem_of_speaker_indices in Hi as (u & Hu).
  rewrite Forall_forall in Hd.
  apply list_elem_of_lookup_2, Hd in Hu. done.
Qed.

(** *** The unbounded shuffle loop of [permute_dialogue] *)

(** When every rearrangement of the selected utterances reads the same,
    the loop is still running after any number of iterations. *)
Lemma shuffle_until_different_stuck (to_shuffle : list U) :
  (∀ l, l ≡ₚ to_shuffle → l = to_shuffle) →
  ∀ budget shuffled (g : G), shuffled ≡ₚ to_shuffle →
    shuffle_until_different budget to_shuffle shuffled g = Timeout.
Proof.
  intros Hsame budget. induction budget as [|budget IH]; intros sh g Hp.
  - reflexivity.
  - simpl. pose proof (shuffle_Permutation U sh g) as Hs.
    destruct (shuffle sh g) as [sh' g'] eqn:E. simpl in Hs.
    assert (sh' ≡ₚ to_shuffle) as Hp' by (etrans; eauto).
    rewrite decide_False by (intros Hne; apply Hne, Hsame, Hp').
    apply IH, Hp'.
Qed.

(** When the loop exits, what it returns is a rearrangement of the
    selection that differs from it. *)
Lemma shuffle_until_different_exit budget (to_shuffle sh : list U) (g : G) r g' :
  sh ≡ₚ to_shuffle →
  shuffle_until_different budget to_shuffle sh g = Return (r, g') →
  r ≡ₚ to_shuffle ∧ r ≠ to_shuffle.
Proof.
  revert sh g. induction budget as [|budget IH]; intros sh g Hp Hr.
  - discriminate.
  - simpl in Hr. pose proof (shuffle_Permutation U sh g) as Hs.
    destruct (shuffle sh g) as [sh' g1] eqn:E. simpl in Hs.
    assert (sh' ≡ₚ to_shuffle) as Hp' by (etrans; eauto).
    destruct (decide (sh' ≠ to_shuffle)) as [Hne|Heq].
    + injection Hr as <- <-. done.
    + eapply IH; eauto.
Qed.

Lemma omap_lookup_replicate (n : nat) (u : U) (idx : list nat) :
  ∃ m, omap (λ i, replicate n u !! i) idx = replicate m u.
Proof.
  induction idx as [|i idx [m IH]]; [by exists 0|].
  cbn [omap list_omap]. fold (@omap list _ nat U).
  destruct (replicate n u !! i) as [x|] eqn:E.
  - apply lookup_replicate in E as [-> _]. exists (S m).
    simpl. f_equal. exact IH.
  - exists m. exact IH.
Qed.

(** A target speaker who says the same thing at least twice makes
    [permute_dialogue] loop: one iteration of its outer loop never
    finishes. *)
Lemma permute_once_repeated_utterance budget (d : list (string * U)) spk other (g : G)
    (n : nat) (u : U) :
  speaker_utterances d spk = replicate n u →
  ¬ length (speaker_indices d spk) < 2 →
  permute_once budget d spk other g = Timeout.
Proof.
  intros Hu Hlen. unfold permute_once.
  rewrite decide_False by exact Hlen.
  destruct (randint 2 (length (speaker_indices d spk)) g) as [k g1].
  destruct (sample (length (speaker_indices d spk)) k g1) as [idx g2].
  rewrite Hu. destruct (omap_lookup_replicate n u idx) as [m ->].
  rewrite shuffle_until_different_stuck; [done| |done].
  intros l Hl. symmetry. apply replicate_Permutation. by symmetry.
Qed.

(** *** The target speaker has fewer than two turns *)

Lemma permute_loop_copies budget (d : list (string * U)) spk n other (g : G) :
  length (speaker_indices d spk) < 2 →
  permute_loop budget d spk n other g = Return (replicate n d, g).
Proof.
  intros Hlen. induction n as [|n IH]; [done|].
  simpl. unfold permute_once at 1. rewrite decide_True by exact Hlen.
  simpl. rewrite IH. done.
Qed.

(** [permute_dialogue] then returns [num_permutations] copies of the
    dialogue it was given, and draws nothing. *)
Lemma permute_dialogue_copies budget (d : list (string * U)) spk n (g : G) :
  length (speaker_indices d spk) < 2 →
  permute_dialogue budget d spk n g = Return (replicate n d, g).
Proof. apply permute_loop_copies. Qed.

Lemma length_write_back (l : list U) idx vals :
  length (write_back l idx vals) = length l.
Proof.
  unfold write_back. revert l.
  induction (zip idx vals) as [|p ps IH]; intros l; [done|].
  simpl. rewrite IH. apply length_insert.
Qed.

(** *** The target speaker has at least two turns *)

Lemma filter_imap_snd {A} (P : A → Prop) `{∀ x, Decision (P x)}
    (h : nat → nat) (l : list A) :
  (filter (λ it : nat * A, P it.2) (imap (λ i x, (h i, x)) l)).*2
  = filter P l.
Proof.
  revert h. induction l as [|x l IH]; intros h; [done|].
  cbn [imap]. destruct (decide (P x)) as [Hx|Hx].
  - rewrite !filter_cons_True by done. cbn [fmap list_fmap].
    f_equal. apply (IH (h ∘ S)).
  - rewrite !filter_cons_False by done. apply (IH (h ∘ S)).
Qed.

Lemma other_turns_snd (d : list (string * U)) spk :
  (other_turns d spk).*2 = filter (λ t, t.1 ≠ spk) d.
Proof.
  unfold other_turns, enumerate.
  exact (filter_imap_snd (λ t : string * U, t.1 ≠ spk) (λ i, i) d).
Qed.

Lemma length_speaker_indices (d : list (string * U)) spk :
  length (speaker_indices d spk) = length (speaker_utterances d spk).
Proof.
  unfold speaker_indices, speaker_utterances, enumerate.
  rewrite !length_fmap.
  rewrite <- (filter_imap_snd (λ t : string * U, t.1 = spk) (λ i, i) d).
  by rewrite length_fmap.
Qed.

(** The reconstruction loop, run with the other turns of the dialogue it
    rebuilds: it keeps every speaker in place, reads the new utterances of
    the target speaker in order, and empties [other_turns]. *)
Lemma reconstruct_fresh spk (d : list (string * U)) (new : list U) ptr
    (other : list (nat * (string * U))) :
  other.*2 = filter (λ t, t.1 ≠ spk) d →
  ptr + length (filter (λ t : string * U, t.1 = spk) d) ≤ length new →
  ∃ permuted,
    reconstruct spk d new ptr other = Return (permuted, [])
    ∧ permuted.*1 = d.*1
    ∧ (filter (λ t : string * U, t.1 = spk) permuted).*2
      = take (length (filter (λ t : string * U, t.1 = spk) d)) (drop ptr new).
Proof.
  unfold dialogue, turn in *.
  revert ptr other. induction d as [|[speaker u] d IH]; intros ptr other Ho Hn.
  - destruct other; [|done]. exists []. by rewrite take_0.
  - cbn [reconstruct]. destruct (decide (speaker = spk)) as [->|Hne].
    + rewrite filter_cons_False in Ho by (intros Hx; by apply Hx).
      rewrite filter_cons_True in Hn |- * by done. cbn [length] in Hn |- *.
      destruct (lookup_lt_is_Some_2 new ptr ltac:(lia)) as [v Hv].
      rewrite Hv. destruct (IH (S ptr) other Ho ltac:(lia))
        as (permuted & -> & Hs & Hf).
      cbn [mbind result_bind bind]. eexists. split; [reflexivity|].
      split; [cbn; by rewrite Hs|].
      rewrite filter_cons_True by done. cbn [fmap list_fmap].
      rewrite (drop_S new v ptr Hv). cbn [take]. f_equal. exact Hf.
    + rewrite filter_cons_True in Ho by done.
      rewrite filter_cons_False in Hn |- * by done.
      destruct other as [|[i t] other]; [done|].
      cbn [fmap list_fmap] in Ho. injection Ho as -> Ho.
      destruct (IH ptr other Ho Hn) as (permuted & -> & Hs & Hf).
      cbn [mbind result_bind bind]. eexists. split; [reflexivity|].
      split; [cbn; by rewrite Hs|].
      rewrite filter_cons_False by done. exact Hf.
Qed.

Lemma write_back_cons (l : list U) i idx v vals :
  write_back l (i :: idx) (v :: vals) = write_back (<[i:=v]> l) idx vals.
Proof. reflexivity. Qed.

Lemma write_back_untouched (l : list U) idx vals i :
  i ∉ idx → write_back l idx vals !! i = l !! i.
Proof.
  revert l vals. induction idx as [|j idx IH]; intros l vals Hi; [done|].
  destruct vals as [|v vals]; [done|].
  apply not_elem_of_cons in Hi as [Hij Hi].
  rewrite write_back_cons, IH by done. by apply list_lookup_insert_ne.
Qed.

(** After the write-back, the slot named by the [p]-th selected index
    holds the [p]-th shuffled utterance. *)
Lemma write_back_lookup (l : list U) idx vals p i :
  NoDup idx → Forall (λ j, j < length l) idx → length vals = length idx →
  idx !! p = Some i → write_back l idx vals !! i = vals !! p.
Proof.
  revert l vals p. induction idx as [|j idx IH]; intros l vals p Hnd Hlt Hlen Hp;
    [done|].
  destruct vals as [|v vals]; [done|].
  apply NoDup_cons in Hnd as [Hj Hnd]. apply Forall_cons in Hlt as [Hjl Hlt].
  rewrite write_back_cons. destruct p as [|p].
  - injection Hp as ->. rewrite write_back_untouched by done.
    by apply list_lookup_insert_eq.
  - cbn in Hp |- *. apply IH; [done | | simpl in Hlen; lia | done].
    by rewrite length_insert.
Qed.

Lemma omap_lookup_in_range (l : list U) idx :
  Forall (λ j, j < length l) idx →
  length (omap (λ i, l !! i) idx) = length idx
  ∧ ∀ p i, idx !! p = Some i → omap (λ i, l !! i) idx !! p = l !! i.
Proof.
  induction 1 as [|j idx Hj _ [IHl IHp]]; [done|].
  destruct (lookup_lt_is_Some_2 l j Hj) as [v Hv].
  cbn [omap list_omap]. fold (@omap list _ nat U). rewrite Hv. split.
  - cbn [length]. by rewrite IHl.
  - intros [|p] i Hp; [injection Hp as <-; by rewrite Hv|].
    cbn in Hp |- *. by apply IHp.
Qed.

(** The first iteration of the outer loop of [permute_dialogue], for a
    target speaker with at least two turns: if the shuffle loop exits, the
    dialogue appended to [permutations] has the speakers of the original
    in the same places and differs from it, and [other_turns] is left
    empty. *)
Lemma permute_once_differs budget (d : list (string * U)) spk (g : G)
    permuted other g' :
  ¬ length (speaker_indices d spk) < 2 →
  permute_once budget d spk (other_turns d spk) g
  = Return (permuted, other, g') →
  permuted ≠ d ∧ permuted.*1 = d.*1 ∧ other = [].
Proof.
  intros Hlen. unfold permute_once. rewrite decide_False by exact Hlen.
  set (si := speaker_indices d spk) in *.
  set (su := speaker_utterances d spk).
  assert (length si = length su) as Hsu by apply length_speaker_indices.
  pose proof (randint_range 2 (length si) g ltac:(lia)) as Hk.
  destruct (randint 2 (length si) g) as [k g1]. simpl in Hk.
  pose proof (sample_length (length si) k g1 ltac:(lia)) as Hil.
  pose proof (sample_NoDup (length si) k g1 ltac:(lia)) as Hnd.
  pose proof (sample_lt (length si) k g1 ltac:(lia)) as Hlt.
  destruct (sample (length si) k g1) as [idx g2]. simpl in Hil, Hnd, Hlt.
  rewrite Hsu in Hlt.
  destruct (omap_lookup_in_range su idx Hlt) as [Hol Hop].
  set (to_shuffle := omap (λ i, su !! i) idx) in *.
  destruct (shuffle_until_different budget to_shuffle to_shuffle g2)
    as [[shuffled g3]| |] eqn:Es; cbn [mbind result_bind bind];
    try discriminate.
  apply shuffle_until_different_exit in Es as [Hperm Hne]; [|done].
  pose proof (Permutation_length Hperm) as Hsl.
  set (new := write_back su idx shuffled).
  assert (length new = length su) as Hnl by apply length_write_back.
  destruct (reconstruct_fresh spk d new 0 (other_turns d spk))
    as (perm & -> & Hspk & Hf).
  { apply other_turns_snd. }
  { rewrite Hnl. unfold su, speaker_utterances. rewrite length_fmap.
    apply Nat.le_refl. }
  cbn [mbind result_bind bind]. intros [= <- <- <-].
  split; [|done]. intros ->. apply Hne.
  assert (new = su) as Hnew.
  { rewrite drop_0 in Hf. change (su = take (length
      (filter (λ t : string * U, t.1 = spk) d)) new) in Hf.
    rewrite Hf. symmetry. apply take_ge. rewrite Hnl.
    unfold su, speaker_utterances. rewrite length_fmap. apply Nat.le_refl. }
  apply list_eq. intros p.
  destruct (idx !! p) as [i|] eqn:Ep.
  - rewrite (Hop p i Ep), <- Hnew. symmetry.
    apply write_back_lookup; [done | done | lia | done].
  - apply lookup_ge_None in Ep.
    rewrite !lookup_ge_None_2; [done | lia | lia].
Qed.

(** *** The bounded retry loop of the dataset constructor *)

(** The loop makes at most [remaining] passes, and exactly [remaining]
    when it gives up. *)
Lemma shuffle_retry_passes remaining (utts : list U) (g : G) :
  let r := shuffle_retry remaining utts g in
  r.2 ≤ remaining ∧ (r.1.1 = None → r.2 = remaining)
  ∧ (∀ s, r.1.1 = Some s → s ≠ utts ∧ 1 ≤ r.2).
Proof.
  cbv zeta. revert g. induction remaining as [|r IH]; intros g; simpl.
  - split; [lia|]. split; [done | discriminate].
  - destruct (shuffle_attempt utts g) as [s g1].
    destruct (decide (s ≠ utts)) as [Hne|Heq]; simpl.
    + split; [lia|]. split; [discriminate|].
      intros s' [= <-]. split; [done | lia].
    + specialize (IH g1).
      destruct (shuffle_retry r utts g1) as [[found g2] passes].
      simpl in *. destruct IH as (Hle & Hnone & Hsome).
      split; [lia|]. split; [intros E; rewrite (Hnone E); done|].
      intros s' E. destruct (Hsome s' E). split; [done | lia].
Qed.

(** Synthesis in the dataset constructor always completes. *)
Lemma synthesize_negative_returns (d : list (string * U)) (g : G) :
  ∃ neg g', synthesize_negative d g = Return (neg, g').
Proof.
  unfold synthesize_negative.
  destruct (decide (length (speakers d) < 2)); [by eauto|].
  destruct (decide (valid_speakers d = [])) as [|Hv]; [by eauto|].
  destruct (choice_nonempty (valid_speakers d) g Hv) as (spk & g1 & -> & _).
  cbn [mbind result_bind bind].
  match goal with
  | |- context [shuffle_retry ?a ?b ?c] =>
      destruct (shuffle_retry a b c) as [[[s|] g2] passes]; [|by eauto]
  end.
  match goal with
  | |- context [decide ?P] => destruct (decide P); by eauto
  end.
Qed.

(** A negative it appends differs from the dialogue it was made from,
    and has as many turns. *)
Lemma synthesize_negative_differs (d neg : list (string * U)) (g g' : G) :
  synthesize_negative d g = Return (Some neg, g') → neg ≠ d.
Proof.
  unfold synthesize_negative.
  destruct (decide (length (speakers d) < 2)); [discriminate|].
  destruct (decide (valid_speakers d = [])) as [|Hv]; [discriminate|].
  destruct (choice (valid_speakers d) g) as [[spk g1]| |];
    cbn [mbind result_bind bind]; try discriminate.
  match goal with
  | |- context [shuffle_retry ?a ?b ?c] =>
      destruct (shuffle_retry a b c) as [[[s|] g2] passes]; [|discriminate]
  end.
  match goal with
  | |- context [decide ?P] =>
      destruct (decide P) as [Hne|]; [|discriminate]
  end.
  intros [= <- <-]. exact Hne.
Qed.

Lemma build_examples_returns (ds : list (list (string * U))) (g : G) :
  ∃ ex g', build_examples ds g = Return (ex, g').
Proof.
  revert g. induction ds as [|d ds IH]; intros g; simpl; [by eauto|].
  destruct (synthesize_negative_returns d g) as (neg & g1 & ->). simpl.
  destruct (IH g1) as (ex & g2 & ->). simpl. by eauto.
Qed.

(** In the examples of the dataset every dialogue labelled 0 comes right
    after the dialogue labelled 1 it was made from, and differs from
    it. *)
Lemma build_examples_negative_differs (ds : list (list (string * U))) (g : G) ex g' :
  build_examples ds g = Return (ex, g') →
  ∀ i neg, ex !! i = Some (neg, 0) →
    ∃ j src, i = S j ∧ ex !! j = Some (src, 1) ∧ src ∈ ds ∧ neg ≠ src.
Proof.
  revert g ex. induction ds as [|d ds IH]; intros g ex Hb i neg Hi.
  - injection Hb as <- <-. done.
  - simpl in Hb.
    destruct (synthesize_negative d g) as [[o g1]| |] eqn:Es;
      simpl in Hb; try discriminate.
    destruct (build_examples ds g1) as [[ex1 g2]| |] eqn:Eb;
      simpl in Hb; try discriminate.
    injection Hb as <- <-.
    destruct i as [|i]; [discriminate|]. simpl in Hi.
    destruct o as [n|].
    + apply synthesize_negative_differs in Es.
      destruct i as [|i].
      * injection Hi as ->. exists 0, d.
        split; [done|]. split; [done|].
        split; [apply list_elem_of_here | done].
      * simpl in Hi. destruct (IH _ _ Eb _ _ Hi) as (j & src & -> & ? & ? & ?).
        exists (S (S j)), src.
        split; [done|]. split; [done|].
        split; [by apply list_elem_of_further | done].
    + simpl in Hi. destruct (IH _ _ Eb _ _ Hi) as (j & src & -> & ? & ? & ?).
      exists (S j), src.
      split; [done|]. split; [done|].
      split; [by apply list_elem_of_further | done].
Qed.
End Generic.
End SynthFacts.

(** ** [permute_dialogue] on concrete dialogues *)

Module PermuteFacts.
Import Py Random Synth SynthFacts Scenarios.

Section AnyGenerator.
Context {G : Type} {RG : Random G}.

Lemma shuffle_until_different_no_raise {U} `{EqDecision U} budget
    (to_shuffle sh : list U) (g : G) e :
  shuffle_until_different budget to_shuffle sh g ≠ Raise e.
Proof.
  revert sh g. induction budget as [|b IH]; intros sh g; simpl; [done|].
  destruct (shuffle sh g) as [sh' g'].
  destruct (decide (sh' ≠ to_shuffle)); [done | apply IH].
Qed.

(** One iteration of the outer loop on [two_turns_of_A]: when the
    shuffle loop exits, the iteration returns a dialogue and leaves
    [other_turns] as it found it minus its first element; with
    [other_turns] already empty it raises [IndexError]. *)
Lemma permute_once_two_turns budget (other : list (nat * (string * string)))
    (g : G) :
  permute_once budget two_turns_of_A "A" other g = Timeout
  ∨ match other with
    | [] => permute_once budget two_turns_of_A "A" other g = Raise IndexError
    | o :: other' =>
        ∃ a b g', permute_once budget two_turns_of_A "A" other g
                  = Return ([("A", a); o.2; ("A", b)], other', g')
    end.
Proof.
  unfold permute_once.
  change (speaker_indices two_turns_of_A "A") with [0; 2].
  change (speaker_utterances two_turns_of_A "A") with ["x"; "z"].
  rewrite decide_False by (simpl; lia).
  destruct (randint 2 (length [0; 2]) g) as [k g1].
  destruct (sample (length [0; 2]) k g1) as [idx g2].
  set (to_shuffle := omap (λ i, ["x"; "z"] !! i) idx).
  destruct (shuffle_until_different budget to_shuffle to_shuffle g2)
    as [[sh g3]|e|] eqn:E.
  - right. cbn [mbind result_bind bind].
    pose proof (length_write_back ["x"; "z"] idx sh) as Hlen.
    destruct (write_back ["x"; "z"] idx sh) as [|a [|b [|c new]]];
      try discriminate.
    destruct other as [|[i o] other'].
    + reflexivity.
    + exists a, b, g3. reflexivity.
  - exfalso. eapply shuffle_until_different_no_raise, E.
  - left. reflexivity.
Qed.
End AnyGenerator.

(** The end-to-end scenario of the specification, run with the counter
    generator: permuting the two turns of A gives the expected negative, and
    the dataset constructor labels it 0. *)
Lemma permute_dialogue_greeting :
  permute_dialogue (RG := Random.counter_random) 5 greeting "A" 1 0
  = Return ([[("A", "how are you"); ("B", "hello"); ("A", "hi");
              ("B", "fine")]], 4).
Proof. vm_compute. reflexivity. Qed.

Lemma build_examples_greeting :
  build_examples (RG := Random.counter_random) [greeting] 0
  = Return ([(greeting, 1);
             ([("A", "how are you"); ("B", "hello"); ("A", "hi");
               ("B", "fine")], 0)], 4).
Proof. vm_compute. reflexivity. Qed.

(** C2. The retry loop of the dataset constructor makes at most 20 passes
    on every input. The shuffle loop of [permute_dialogue] has no bound:
    on a dialogue whose target speaker repeats one utterance it is still
    running after any number of iterations, for every generator. *)
Theorem permute_dialogue_shuffle_loop_unbounded :
  (∀ (G : Type) (RG : Random G) (utts : list string) (g : G),
      (shuffle_retry max_attempts utts g).2 ≤ 20)
  ∧ (∀ (G : Type) (RG : Random G) (budget : nat) (g : G),
      permute_dialogue budget repeated_answer "A" 1 g = Timeout).
Proof.
  split.
  - intros G RG utts g.
    destruct (shuffle_retry_passes max_attempts utts g) as (Hle & _).
    exact Hle.
  - intros G RG budget g. unfold permute_dialogue, permute_loop.
    rewrite (permute_once_repeated_utterance budget repeated_answer "A" _ g
               2 "ok"); [reflexivity | reflexivity |].
    change (speaker_indices repeated_answer "A") with [0; 2]. simpl. lia.
Qed.

(** C10. [permute_dialogue] does not always return a list of
    [num_permutations] dialogues. Asked for two permutations of a dialogue
    in which the target speaker has two turns and the other speaker one, it
    returns no list at all: either the shuffle loop is still running or the
    second reconstruction pops the emptied [other_turns] and raises
    [IndexError]; with the counter generator it is the latter. Asked for
    one permutation of a dialogue whose target speaker repeats one
    utterance, it never returns. *)
Theorem permute_dialogue_second_permutation_fails :
  (∀ (G : Type) (RG : Random G) (budget : nat) (g : G),
      permute_dialogue budget two_turns_of_A "A" 2 g = Timeout
      ∨ permute_dialogue budget two_turns_of_A "A" 2 g = Raise IndexError)
  ∧ permute_dialogue (RG := Random.counter_random)
      5 two_turns_of_A "A" 2 1 = Raise IndexError
  ∧ (∀ (G : Type) (RG : Random G) (budget : nat) (g : G),
      ¬ is_return (permute_dialogue budget repeated_answer "A" 1 g)).
Proof.
  split; [|split; [vm_compute; reflexivity|]].
  - intros G RG budget g. unfold permute_dialogue.
    change (other_turns two_turns_of_A "A") with [(1, ("B", "y"))].
    cbn [permute_loop].
    destruct (permute_once_two_turns budget [(1, ("B", "y"))] g)
      as [->|(a & b & g1 & ->)]; [by left|].
    cbn [mbind result_bind bind].
    destruct (permute_once_two_turns budget [] g1) as [->| ->];
      [by left | by right].
  - intros G RG budget g. unfold permute_dialogue, permute_loop.
    rewrite (permute_once_repeated_utterance budget repeated_answer "A" _ g
               2 "ok"); [intros [] | reflexivity |].
    change (speaker_indices repeated_answer "A") with [0; 2]. simpl. lia.
Qed.
End PermuteFacts.

(** ** Inference and evaluation of the pairwise scorer *)

Module InferenceFacts.
Import Py Random Tensor Features LCD Synth SynthFacts.
Local Open Scope R_scope.

Section Pred.
Context {U : Type} {U_eq_dec : EqDecision U}.
Variable encoder : list U → list vec.
Variable scorer_fwd scorer_bwd : vec → R.

Local Abbreviation pair_score := (pair_score scorer_fwd scorer_bwd).
Local Abbreviation pred_loop := (pred_loop (U := U) scorer_fwd scorer_bwd).
Local Abbreviation compute_dialogue_pred :=
  (compute_dialogue_pred encoder scorer_fwd scorer_bwd).

(** The loop over a range [pre ++ j :: post] whose first negative pair
    is [j] stops at [j]. *)
Lemma pred_loop_stops embeddings pre j post :
  Forall (λ i, 0 <= pair_score embeddings i) pre →
  pair_score embeddings j < 0 →
  pred_loop embeddings (pre ++ j :: post)
  = (0%nat, flat_map (pair_calls embeddings) (pre ++ [j])).
Proof.
  intros Hpre Hj. induction Hpre as [|i pre Hi _ IH].
  - cbn [app LCD.pred_loop flat_map].
    destruct (Rlt_dec _ 0) as [_|Hn]; [|contradiction].
    rewrite app_nil_r. reflexivity.
  - cbn [app LCD.pred_loop flat_map]. destruct (Rlt_dec _ 0) as [Hlt|_]; [lra|].
    rewrite IH. reflexivity.
Qed.

Lemma pred_loop_completes embeddings range :
  Forall (λ i, 0 <= pair_score embeddings i) range →
  pred_loop embeddings range
  = (1%nat, flat_map (pair_calls embeddings) range).
Proof.
  induction 1 as [|i range Hi _ IH]; [reflexivity|].
  cbn [LCD.pred_loop]. destruct (Rlt_dec _ 0) as [Hlt|_]; [lra|].
  rewrite IH. reflexivity.
Qed.

(** Either every pair of a range scores at least 0, or there is a first
    one that does not. *)
Lemma first_negative embeddings (range : list nat) :
  Forall (λ i, 0 <= pair_score embeddings i) range
  ∨ ∃ pre j post, range = pre ++ j :: post
      ∧ Forall (λ i, 0 <= pair_score embeddings i) pre
      ∧ pair_score embeddings j < 0.
Proof.
  induction range as [|i range IH]; [left; constructor|].
  destruct (Rlt_dec (pair_score embeddings i) 0) as [Hlt|Hge].
  - right. exists [], i, range. repeat split; [constructor | exact Hlt].
  - destruct IH as [Hall|(pre & j & post & -> & Hpre & Hj)].
    + left. constructor; [lra | exact Hall].
    + right. exists (i :: pre), j, post.
      repeat split; [constructor; [lra | exact Hpre] | exact Hj].
Qed.

Lemma seq_split_at (n j : nat) :
  (j < n)%nat → seq 0 n = seq 0 j ++ j :: seq (S j) (n - S j).
Proof.
  intros Hj. replace n with (j + S (n - S j))%nat at 1 by lia.
  rewrite seq_app. simpl. reflexivity.
Qed.

Lemma seq_eq_app_cons (n : nat) pre j post :
  seq 0 n = pre ++ j :: post →
  pre = seq 0 j ∧ (j < n)%nat.
Proof.
  intros E.
  assert (length pre = j) as Hlen.
  { assert (seq 0 n !! length pre = Some j) as Hl
      by (rewrite E; apply list_lookup_middle; reflexivity).
    apply lookup_seq in Hl. lia. }
  assert (j < n)%nat as Hj.
  { apply (f_equal length) in E.
    rewrite length_seq, length_app in E. simpl in E. lia. }
  split; [|exact Hj].
  rewrite (seq_split_at n j Hj) in E.
  apply app_inj_1 in E as [E _]; [done|].
  rewrite length_seq. lia.
Qed.

(** C4. On a non-empty dialogue [compute_dialogue_pred] calls the
    encoder exactly once, on all utterances, and returns 0 or 1. It
    returns 0 exactly when some adjacent pair has a negative averaged
    score, and then the scorers have been called on the pairs up to and
    including the first negative one and on no later pair; it returns 1
    exactly when no pair is negative, after scoring every adjacent pair.
    The function takes no generator: nothing is sampled. *)
Theorem compute_dialogue_pred_spec (d : list (string * U)) :
  d ≠ [] →
  let embeddings := encoder (d.*2) in
  let n := (length embeddings - 1)%nat in
  ∃ label calls,
    compute_dialogue_pred d = Return (label, CallEncoder (d.*2) :: calls)
    ∧ (label = 0%nat ∨ label = 1%nat)
    ∧ (label = 0%nat ↔ ∃ i, (i < n)%nat ∧ pair_score embeddings i < 0)
    ∧ (label = 1%nat ↔ ∀ i, (i < n)%nat → 0 <= pair_score embeddings i)
    ∧ (label = 0%nat →
       ∃ j, (j < n)%nat ∧ pair_score embeddings j < 0
            ∧ (∀ i, (i < j)%nat → 0 <= pair_score embeddings i)
            ∧ calls = flat_map (pair_calls embeddings) (seq 0 (S j)))
    ∧ (label = 1%nat →
       calls = flat_map (pair_calls embeddings) (seq 0 n))
    ∧ (∀ c, c ∈ calls → ∀ sentences, c ≠ CallEncoder sentences).
Proof.
  intros Hd embeddings n.
  assert (∀ range (c : call (U := U)),
            c ∈ flat_map (pair_calls embeddings) range →
            ∀ sentences, c ≠ CallEncoder sentences) as Hscorer.
  { intros range c Hc sentences.
    apply list_elem_of_In, in_flat_map in Hc as (i & _ & Hc).
    simpl in Hc. destruct Hc as [<-|[<-|[]]]; discriminate. }
  unfold LCD.compute_dialogue_pred. destruct d as [|t d]; [done|].
  fold embeddings. fold n.
  destruct (first_negative embeddings (seq 0 n))
    as [Hall|(pre & j & post & E & Hpre & Hj)].
  - rewrite (pred_loop_completes _ _ Hall).
    exists 1%nat, (flat_map (pair_calls embeddings) (seq 0 n)).
    assert (∀ i, (i < n)%nat → 0 <= pair_score embeddings i) as Hge.
    { intros i Hi. rewrite Forall_forall in Hall. apply Hall.
      apply elem_of_seq. lia. }
    split; [reflexivity|]. split; [by right|].
    split; [split; [discriminate|]|].
    { intros (i & Hi & Hlt). specialize (Hge i Hi). lra. }
    split; [split; [intros _; exact Hge | reflexivity]|].
    split; [discriminate|]. split; [reflexivity|]. apply Hscorer.
  - rewrite E, (pred_loop_stops _ _ _ _ Hpre Hj).
    destruct (seq_eq_app_cons _ _ _ _ E) as [-> Hjn].
    exists 0%nat, (flat_map (pair_calls embeddings) (seq 0 j ++ [j])).
    split; [reflexivity|]. split; [by left|].
    split; [split; [intros _; exists j; done | reflexivity]|].
    split; [split; [discriminate|]|].
    { intros Hge. specialize (Hge j Hjn). lra. }
    split; [|split; [discriminate | apply Hscorer]].
    intros _. exists j. split; [exact Hjn|]. split; [exact Hj|].
    split.
    + intros i Hi. rewrite Forall_forall in Hpre. apply Hpre.
      apply elem_of_seq. lia.
    + replace (S j) with (j + 1)%nat by lia. rewrite seq_app. reflexivity.
Qed.

(** A prediction never fails on a non-empty dialogue. *)
Lemma compute_dialogue_pred_returns (d : list (string * U)) :
  d ≠ [] → ∃ p calls, compute_dialogue_pred d = Return (p, calls).
Proof.
  intros Hd. unfold LCD.compute_dialogue_pred.
  destruct d as [|t d]; [done|].
  destruct (LCD.pred_loop _ _ _ _) as [label calls]. by eauto.
Qed.
End Pred.

(** A concrete instance: every utterance is embedded as [[1]], the forward
    scorer answers 1 and the backward scorer -3, so the only pair of a
    two-turn dialogue averages to -1. *)
Lemma compute_dialogue_pred_spec_witness :
  ∃ calls,
    compute_dialogue_pred (map (λ _ : string, [1])) (λ _, 1) (λ _, -3)
      [("A", "hi"); ("B", "hello")]
    = Return (0%nat, CallEncoder ["hi"; "hello"] :: calls).
Proof.
  destruct (compute_dialogue_pred_spec (map (λ _ : string, [1]))
              (λ _, 1) (λ _, -3) [("A", "hi"); ("B", "hello")])
    as (label & calls & E & _ & H0 & _); [discriminate|].
  exists calls. rewrite E. do 3 f_equal.
  apply H0. exists 0%nat. split; [simpl; lia|].
  unfold pair_score. lra.
Defined.
End InferenceFacts.

Module EvaluationFacts.
Import Py Random Tensor Features LCD Synth SynthFacts InferenceFacts Scenarios.
Local Open Scope R_scope.

Section Eval.
Context {U : Type} {U_eq_dec : EqDecision U}.
Context {G : Type} {RG : Random G}.
Variable encoder : list U → list vec.
Variable scorer_fwd scorer_bwd : vec → R.

Local Abbreviation compute_dialogue_pred :=
  (compute_dialogue_pred encoder scorer_fwd scorer_bwd).
Local Abbreviation test_loop :=
  (test_loop (G := G) encoder scorer_fwd scorer_bwd).

Lemma score_permuted_copies (d : list (string * U)) p calls n :
  compute_dialogue_pred d = Return (p, calls) →
  score_permuted encoder scorer_fwd scorer_bwd (replicate n d)
  = Return (replicate n (d, 0%nat, p)).
Proof.
  intros E. induction n as [|n IH]; [reflexivity|].
  cbn [replicate score_permuted]. rewrite E.
  cbn [mbind result_bind bind]. rewrite IH. reflexivity.
Qed.

(** When the label drawn from ["A"; "B"] has fewer than two turns in a
    dialogue of the evaluation, the rows recorded for it are the
    dialogue with true label 1 followed by [num_permutations] copies of
    the same dialogue with true label 0, all with one prediction. *)
Lemma test_loop_unchanged_copies budget (d : list (string * U)) rest n
    (g g1 : G) spk p calls :
  ¬ (length d < 3)%nat →
  choice ["A"; "B"] g = Return (spk, g1) →
  (length (speaker_indices d spk) < 2)%nat →
  compute_dialogue_pred d = Return (p, calls) →
  test_loop budget (d :: rest) n g
  = ('(more, g') ← test_loop budget rest n g1;
     Return ((d, 1%nat, p) :: replicate n (d, 0%nat, p) ++ more, g')).
Proof.
  intros Hlen Hc Hspk Hp. cbn [LCD.test_loop].
  rewrite decide_False by exact Hlen.
  rewrite Hp. cbn [mbind result_bind bind]. rewrite Hc.
  cbn [mbind result_bind bind].
  rewrite (permute_dialogue_copies budget d spk n g1 Hspk).
  cbn [mbind result_bind bind]. unfold dialogue, turn.
  rewrite (score_permuted_copies d p calls n Hp). reflexivity.
Qed.

(** The label is drawn from the constant list ["A"; "B"], whatever the
    speakers of the dialogue are called. *)
Lemma choice_A_or_B (g : G) :
  ∃ spk g', choice ["A"; "B"] g = Return (spk, g')
            ∧ (spk = "A" ∨ spk = "B")
            ∧ g' = (randbelow 2 g).2
            ∧ (spk = "A" ↔ (randbelow 2 g).1 = 0%nat).
Proof.
  unfold choice. cbn [length].
  pose proof (randbelow_lt 2 g ltac:(lia)) as Hlt.
  destruct (randbelow 2 g) as [i g']. simpl in Hlt.
  destruct i as [|[|i]]; [| |lia]; simpl.
  - exists "A", g'. by intuition.
  - exists "B", g'. split; [done|]. split; [by right|]. split; [done|].
    split; intros; discriminate.
Qed.

(** A dialogue none of whose speakers is called A or B is recorded a
    second time, unchanged, with true label 0. *)
Lemma test_loop_other_speaker_names budget (d : list (string * U)) n
    (g : G) :
  ¬ (length d < 3)%nat →
  Forall (λ t, t.1 ≠ "A" ∧ t.1 ≠ "B") d →
  ∃ p g', test_loop budget [d] n g
          = Return ((d, 1%nat, p) :: replicate n (d, 0%nat, p), g').
Proof.
  intros Hlen Hnames.
  destruct (compute_dialogue_pred_returns encoder scorer_fwd scorer_bwd d)
    as (p & calls & Hp); [destruct d; [simpl in Hlen; lia | done]|].
  destruct (choice_A_or_B g) as (spk & g1 & Hc & Hspk & _).
  exists p, g1.
  rewrite (test_loop_unchanged_copies budget d [] n g g1 spk p calls);
    [| done | done | | done].
  - cbn [LCD.test_loop mbind result_bind bind]. by rewrite app_nil_r.
  - rewrite speaker_indices_absent; [simpl; lia|].
    eapply Forall_impl; [exact Hnames|].
    intros t [HA HB]. destruct Hspk as [->| ->]; done.
Qed.
End Eval.

(** C1. The evaluation of the pairwise scorer on the three-turn dialogue
    [short_reply], when the label drawn from ["A"; "B"] is "B" (index 1):
    [permute_dialogue] hands back the dialogue itself, and the evaluation
    records it with true label 0 next to the original with true label 1.
    The dialogue recorded as a negative does not differ from its source in
    any position. *)
Theorem test_experiment_records_unchanged_negative
    {G : Type} {RG : Random G}
    (encoder : list string → list vec) (scorer_fwd scorer_bwd : vec → R)
    (f1_score accuracy_score : list nat → list nat → R)
    (budget : nat) (g : G) :
  (randbelow 2 g).1 = 1%nat →
  ∃ p,
    test_experiment encoder scorer_fwd scorer_bwd f1_score accuracy_score
      budget [short_reply] 1 g
    = Return (f1_score [1; 0]%nat [p; p], accuracy_score [1; 0]%nat [p; p],
              [1; 0]%nat, [p; p],
              [(short_reply, 1%nat, p); (short_reply, 0%nat, p)]).
Proof.
  intros Hdraw.
  destruct (compute_dialogue_pred_returns encoder scorer_fwd scorer_bwd
              short_reply) as (p & calls & Hp); [discriminate|].
  destruct (choice_A_or_B (RG := RG) g) as (spk & g1 & Hc & Hspk & _ & HA).
  assert (spk = "B") as ->.
  { destruct Hspk as [->|]; [|done].
    destruct HA as [HA _]. rewrite HA in Hdraw by done. discriminate. }
  exists p. unfold test_experiment.
  rewrite (test_loop_unchanged_copies encoder scorer_fwd scorer_bwd budget
             short_reply [] 1 g g1 "B" p calls);
    [reflexivity | simpl; lia | exact Hc | | exact Hp].
  change (speaker_indices short_reply "B") with [1%nat]. simpl. lia.
Qed.

(** With the counter generator in state 1 the label drawn is "B". *)
Lemma test_experiment_records_unchanged_negative_witness :
  ∃ p,
    test_experiment (RG := Random.counter_random)
      (map (λ _ : string, [1])) (λ _, 1) (λ _, -3) (λ _ _, 0) (λ _ _, 0)
      5 [short_reply] 1 1%nat
    = Return (0, 0, [1; 0]%nat, [p; p],
              [(short_reply, 1%nat, p); (short_reply, 0%nat, p)]).
Proof.
  apply (test_experiment_records_unchanged_negative
           (RG := Random.counter_random)
           (map (λ _ : string, [1])) (λ _, 1) (λ _, -3)
           (λ _ _, 0) (λ _ _, 0) 5 1%nat).
  reflexivity.
Defined.
End EvaluationFacts.

(** ** Loss weights of the document classifier *)

Module CriterionFacts.
Import HT.
Local Open Scope R_scope.

Lemma sum_labels_count labels :
  binary labels →
  sum_labels labels = Z.of_nat (count_label 1 labels)
  ∧ (Z.of_nat (length labels) - sum_labels labels)%Z
    = Z.of_nat (count_label 0 labels).
Proof.
  unfold count_label.
  induction 1 as [|l labels Hl _ [IH1 IH0]]; [done|].
  cbn [sum_labels foldr length]. fold (sum_labels labels).
  destruct Hl as [-> | ->].
  - rewrite filter_cons_False, filter_cons_True by done.
    cbn [length]. lia.
  - rewrite filter_cons_True, filter_cons_False by done.
    cbn [length]. lia.
Qed.

(** C6. For training and validation labels in {0, 1} with at least one
    positive each, the cell binds a training criterion whose
    positive-class weight is (negative count / positive count) of the
    training labels, and a validation criterion with that same weight,
    whatever the validation labels are; the ratio of the validation
    labels is computed into [val_pos_weight] and used by neither
    criterion. *)
Theorem setup_criteria_spec (train_labels val_labels : list nat) :
  binary train_labels → binary val_labels →
  (0 < count_label 1 train_labels)%nat →
  (0 < count_label 1 val_labels)%nat →
  ∃ s, setup_criteria train_labels val_labels = Some s
    ∧ pos_weight (train_criterion s)
      = INR (count_label 0 train_labels) / INR (count_label 1 train_labels)
    ∧ pos_weight (val_criterion s) = pos_weight (train_criterion s)
    ∧ val_pos_weight s
      = INR (count_label 0 val_labels) / INR (count_label 1 val_labels)
    ∧ (∀ val_labels' s',
          setup_criteria train_labels val_labels' = Some s' →
          val_criterion s' = val_criterion s
          ∧ train_criterion s' = train_criterion s).
Proof.
  intros Ht Hv Htp Hvp.
  destruct (sum_labels_count _ Ht) as [Et1 Et0].
  destruct (sum_labels_count _ Hv) as [Ev1 Ev0].
  unfold setup_criteria.
  rewrite Et0, Et1, Ev0, Ev1.
  rewrite decide_False by lia. rewrite decide_False by lia.
  eexists. split; [reflexivity|]. cbn [train_criterion val_criterion
    pos_weight val_pos_weight].
  rewrite <- !INR_IZR_INZ.
  split; [reflexivity|]. split; [reflexivity|]. split; [reflexivity|].
  intros val_labels' s'. rewrite decide_False by lia.
  destruct (decide (sum_labels val_labels' = 0%Z)); [discriminate|].
  intros [= <-]. split; reflexivity.
Qed.

Lemma binary_replicate_app a b :
  binary (replicate a 1%nat ++ replicate b 0%nat).
Proof.
  apply Forall_app. split; apply Forall_replicate; [by right | by left].
Qed.

Lemma count_label_replicate_app a b :
  count_label 1 (replicate a 1%nat ++ replicate b 0%nat) = a
  ∧ count_label 0 (replicate a 1%nat ++ replicate b 0%nat) = b.
Proof.
  unfold count_label. rewrite !filter_app, !length_app.
  assert (∀ n x y : nat, x ≠ y →
            length (filter (λ l, l = y) (replicate n x)) = 0%nat) as Hne.
  { intros n x y Hxy. induction n as [|n IH]; [done|].
    cbn [replicate]. rewrite filter_cons_False by done. exact IH. }
  assert (∀ n x : nat,
            length (filter (λ l, l = x) (replicate n x)) = n) as Heq.
  { intros n x. induction n as [|n IH]; [done|].
    cbn [replicate]. rewrite filter_cons_True by done.
    cbn [length]. by rewrite IH. }
  rewrite !Heq, !Hne by done. lia.
Qed.

(** The scenario of the specification: 100 positives and 60 negatives in
    the training split give the weight 0.6 to both criteria, while the
    validation split, with 10 positives and 10 negatives, has ratio 1. *)
Lemma setup_criteria_spec_witness :
  ∃ s, setup_criteria (replicate 100 1%nat ++ replicate 60 0%nat)
         (replicate 10 1%nat ++ replicate 10 0%nat) = Some s
    ∧ pos_weight (train_criterion s) = 6 / 10
    ∧ pos_weight (val_criterion s) = 6 / 10
    ∧ val_pos_weight s = 1.
Proof.
  destruct (count_label_replicate_app 100 60) as [Ht1 Ht0].
  destruct (count_label_replicate_app 10 10) as [Hv1 Hv0].
  destruct (setup_criteria_spec
              (replicate 100 1%nat ++ replicate 60 0%nat)
              (replicate 10 1%nat ++ replicate 10 0%nat)
              (binary_replicate_app 100 60) (binary_replicate_app 10 10))
    as (s & Es & Et & Ev & Evp & _).
  - rewrite Ht1. lia.
  - rewrite Hv1. lia.
  - exists s. split; [exact Es|].
    rewrite Ev, Et, Evp, Ht1, Ht0, Hv1, Hv0.
    replace (INR 60) with 60 by (rewrite INR_IZR_INZ; reflexivity).
    replace (INR 100) with 100 by (rewrite INR_IZR_INZ; reflexivity).
    replace (INR 10) with 10 by (rewrite INR_IZR_INZ; reflexivity).
    repeat split; lra.
Defined.
End CriterionFacts.

(** ** Accuracy bookkeeping of the training loop *)

Module TrainingFacts.
Import Py Random Tensor Features Loss LCD SynthFacts.
Local Open Scope R_scope.

Section Train.
Context {U : Type}.
Context {G : Type} {RG : Random G}.
Variable W : Type.
Variable encoder : list U → W → list vec * W.
Variable scorer_fwd scorer_bwd : vec → W → R * W.
Variable optimizer_step : R → W → W.

Local Abbreviation pair_state := (pair_state (G := G) W).
Local Abbreviation epoch_state := (epoch_state (G := G) W).
Local Abbreviation tracks_last := (tracks_last (G := G) W).
Local Abbreviation train_position :=
  (train_position (G := G) W scorer_fwd scorer_bwd).
Local Abbreviation train_positions :=
  (train_positions (G := G) W scorer_fwd scorer_bwd).
Local Abbreviation train_dialogue :=
  (train_dialogue (U := U) (G := G) W encoder scorer_fwd scorer_bwd
     optimizer_step).

Lemma train_position_tracks speakers embeddings i (st : pair_state) :
  tracks_last st →
  ∃ st', train_position speakers embeddings i st = Return st'
         ∧ tracks_last st'.
Proof.
  intros Hst. pose proof Hst as [Hc Hl]. unfold LCD.train_position.
  destruct (decide (candidates speakers (length embeddings) i = []))
    as [|Hne]; [by exists st|].
  destruct (choice_nonempty _ (prng W st) Hne) as (j & g' & -> & _).
  cbn [mbind result_bind bind].
  repeat match goal with
         | |- context [scorer_fwd ?f ?w] => destruct (scorer_fwd f w)
         | |- context [scorer_bwd ?f ?w] => destruct (scorer_bwd f w)
         end.
  eexists. split; [reflexivity|]. split; cbn.
  - rewrite length_app, Hc. simpl. lia.
  - intros sp sn. rewrite last_snoc. intros [= <- <-]. done.
Qed.

Lemma train_positions_tracks speakers embeddings range (st : pair_state) :
  tracks_last st →
  ∃ st', train_positions speakers embeddings range st = Return st'
         ∧ tracks_last st'.
Proof.
  revert st. induction range as [|i range IH]; intros st Hst.
  - by exists st.
  - cbn [LCD.train_positions].
    destruct (train_position_tracks speakers embeddings i st Hst)
      as (st1 & -> & Hst1).
    cbn [mbind result_bind bind]. apply IH, Hst1.
Qed.

Local Abbreviation pair_scores := (pair_scores W scorer_fwd scorer_bwd).
Local Abbreviation scored_pairs :=
  (scored_pairs (G := G) W scorer_fwd scorer_bwd).
Local Abbreviation dialogue_pairs :=
  (dialogue_pairs (U := U) (G := G) W encoder scorer_fwd scorer_bwd).

(** The pairs recorded by the loop over the positions are the pairs
    computed from the embeddings by the scorers, in order. *)
Lemma train_positions_scored speakers embeddings range
    (st st' : pair_state) :
  train_positions speakers embeddings range st = Return st' →
  computed W st'
  = computed W st
    ++ scored_pairs speakers embeddings range (pworld W st) (prng W st).
Proof.
  revert st. induction range as [|i range IH]; intros st Hr.
  - injection Hr as <-. cbn. by rewrite app_nil_r.
  - cbn [LCD.train_positions] in Hr. cbn [LCD.scored_pairs].
    destruct (train_position speakers embeddings i st) as [st1| |] eqn:E1;
      cbn [mbind result_bind bind] in Hr; try done.
    apply IH in Hr. rewrite Hr. clear Hr IH.
    unfold LCD.train_position in E1.
    destruct (decide (candidates speakers (length embeddings) i = []))
      as [He|Hne]; [by injection E1 as <-|].
    destruct (choice_nonempty _ (prng W st) Hne) as (j & g' & Hc & _).
    rewrite Hc in E1 |- *. cbn [mbind result_bind bind] in E1.
    unfold LCD.pair_scores. revert E1.
    repeat match goal with
           | |- context [scorer_fwd ?f ?w] => destruct (scorer_fwd f w)
           | |- context [scorer_bwd ?f ?w] => destruct (scorer_bwd f w)
           end.
    intros [= <-]. cbn [computed pworld prng]. by rewrite <- app_assoc.
Qed.

(** One pair is computed per position that has a candidate, and the
    last pair is the one of the last such position, scored against one
    of its candidates. *)
Lemma scored_pairs_last speakers embeddings range (w : W) (g : G) :
  length (scored_pairs speakers embeddings range w g)
  = length (positions_with_candidates speakers (length embeddings) range)
  ∧ ∀ i,
      last (positions_with_candidates speakers (length embeddings) range)
      = Some i →
      ∃ neg_idx w',
        neg_idx ∈ candidates speakers (length embeddings) i
        ∧ last (scored_pairs speakers embeddings range w g)
          = Some (pair_scores embeddings i neg_idx w').1.
Proof.
  unfold positions_with_candidates. revert w g.
  induction range as [|i range IH]; intros w g; [done|].
  cbn [LCD.scored_pairs].
  destruct (decide (candidates speakers (length embeddings) i = []))
    as [He|Hne].
  { rewrite filter_cons_False by (intros Hn; by apply Hn). apply IH. }
  rewrite filter_cons_True by done.
  destruct (choice_nonempty _ g Hne) as (j & g' & -> & Hin).
  destruct (pair_scores embeddings i j w) as [scores w1] eqn:Ep.
  destruct (IH w1 g') as [Hl Hlast]. clear IH.
  split; [cbn [length]; by rewrite Hl|].
  intros i0 Hi0.
  destruct (filter _ range) as [|i1 rest].
  - injection Hi0 as <-. apply nil_length_inv in Hl. rewrite Hl.
    exists j, w. split; [done|]. by rewrite Ep.
  - destruct (Hlast i0 Hi0) as (neg_idx & w' & Hn & Hp).
    exists neg_idx, w'. split; [done|].
    destruct (LCD.scored_pairs _ _ _ _ _ _ _ _) as [|p ps];
      [discriminate Hl | exact Hp].
Qed.

(** C8. Processing one dialogue in [train_one_epoch] always completes.
    The pairs [(score_pos, score_neg)] it computes are those of
    [dialogue_pairs]: one for every position that has a candidate
    negative, in order, each the two averages of the scorers' outputs at
    that position ([pair_scores]); the last pair is the one of the last
    such position. [total] grows by one exactly when a pair was
    computed, and [correct] grows by one exactly when the last pair has
    [score_pos > score_neg]; otherwise [correct] is unchanged. The
    scores of the earlier pairs of the dialogue, and the scores left
    over from previous dialogues, play no part. *)
Theorem train_dialogue_counts_last_pair (d : list (string * U))
    (st : epoch_state) :
  let pairs := dialogue_pairs d st in
  let embeddings := (encoder d.*2 (world W st)).1 in
  let scored :=
    if decide (length d < 3)%nat then []
    else positions_with_candidates d.*1 (length embeddings)
           (seq 0 (length embeddings - 1)) in
  ∃ st',
    train_dialogue d st = Return (st', pairs)
    ∧ length pairs = length scored
    ∧ (∀ i, last scored = Some i →
         ∃ neg_idx w,
           neg_idx ∈ candidates d.*1 (length embeddings) i
           ∧ last pairs = Some (pair_scores embeddings i neg_idx w).1)
    ∧ (correct W st' = S (correct W st)
       ↔ ∃ sp sn, last pairs = Some (sp, sn) ∧ sp > sn)
    ∧ (correct W st' = correct W st
       ↔ ¬ ∃ sp sn, last pairs = Some (sp, sn) ∧ sp > sn)
    ∧ (total W st' = S (total W st) ↔ pairs ≠ [])
    ∧ (total W st' = total W st ↔ pairs = []).
Proof.
  cbn zeta. unfold LCD.train_dialogue, LCD.dialogue_pairs.
  destruct (decide (length d < 3)%nat).
  { exists st. split; [reflexivity|]. split; [done|]. split; [done|].
    split; [split; [lia | intros (? & ? & ? & _); done]|].
    split; [split; [intros _ (? & ? & ? & _); done | done]|].
    split; [split; [lia | done] | done]. }
  destruct (encoder d.*2 (world W st)) as [embeddings w]. cbn [fst].
  match goal with
  | |- context [LCD.train_positions _ _ _ ?s ?e ?r ?st0] =>
      destruct (train_positions_tracks s e r st0) as (ps & Eps & Hc & Hl);
      [split; [reflexivity | intros ? ?; discriminate]|];
      pose proof (train_positions_scored s e r st0 ps Eps) as Hcomp;
      rewrite Eps
  end.
  cbn [computed pworld prng app] in Hcomp.
  destruct (scored_pairs_last d.*1 embeddings
              (seq 0 (length embeddings - 1)) w (rng W st)) as [Hlen Hlast].
  rewrite Hcomp in Hc, Hl. cbn [mbind result_bind bind].
  match type of Hcomp with
  | _ = ?t => set (P := t) in *; clearbody P
  end.
  destruct (decide (0 < pair_count W ps)%nat) as [Hpos|Hzero].
  - destruct P as [|p0 ps0 _] using rev_ind; [simpl in Hc; lia|].
    destruct p0 as [sp sn].
    destruct (Hl sp sn) as [E1 E2]; [apply last_snoc|].
    rewrite E1, E2, Hcomp.
    eexists. split; [reflexivity|]. split; [done|]. split; [done|].
    cbn [correct total]. rewrite last_snoc.
    destruct (Rgt_dec sp sn) as [Hgt|Hle].
    + split; [split; [by eauto | done]|].
      split; [split; [lia | intros Hn; exfalso; apply Hn; by eauto]|].
      split; [split; [intros _; by destruct ps0 | done]|].
      split; [lia | by destruct ps0].
    + split; [split; [lia | intros (? & ? & [= <- <-] & ?); done]|].
      split; [split; [intros _ (? & ? & [= <- <-] & ?); done | done]|].
      split; [split; [intros _; by destruct ps0 | done]|].
      split; [lia | by destruct ps0].
  - assert (P = []) as ->
        by (destruct P; [done | simpl in Hc; lia]).
    rewrite Hcomp.
    eexists. split; [reflexivity|]. split; [done|]. split; [done|].
    cbn [correct total].
    split; [split; [lia | intros (? & ? & ? & _); done]|].
    split; [split; [intros _ (? & ? & ? & _); done | done]|].
    split; [split; [lia | done] | done].
Qed.
End Train.

(** A dialogue of four turns in which the first two pairs are not
    ranked correctly and the last one is: it is counted as correct. The
    embeddings are [0; 0; 0; 1], both scorers answer the embedding that
    follows or replaces the current one, and every position has one
    candidate. *)
Lemma train_dialogue_counts_last_pair_witness :
  ∃ st',
    LCD.train_dialogue (G := nat) unit
      (λ (_ : list string) w, ([[0]; [0]; [0]; [1]], w))
      (λ f w, (nth 1 f 0, w)) (λ f w, (nth 0 f 0, w)) (λ _ w, w)
      [("A", "a"); ("B", "b"); ("A", "c"); ("B", "d")]
      {| total_loss := 0; correct := 0%nat; total := 0%nat;
         score_pos := None; score_neg := None; world := tt; rng := 0%nat |}
    = Return (st', [((0 + 0) / 2, (1 + 1) / 2); ((0 + 0) / 2, (0 + 0) / 2);
                    ((1 + 1) / 2, (0 + 0) / 2)])
    ∧ correct unit st' = 1%nat ∧ total unit st' = 1%nat.
Proof.
  destruct (train_dialogue_counts_last_pair (G := nat) unit
              (λ (_ : list string) w, ([[0]; [0]; [0]; [1]], w))
              (λ f w, (nth 1 f 0, w)) (λ f w, (nth 0 f 0, w)) (λ _ w, w)
              [("A", "a"); ("B", "b"); ("A", "c"); ("B", "d")]
              {| total_loss := 0; correct := 0%nat; total := 0%nat;
                 score_pos := None; score_neg := None; world := tt;
                 rng := 0%nat |})
    as (st' & H & _ & _ & Hc & _ & Ht & _).
  exists st'. split; [exact H|]. split.
  - apply Hc. exists ((1 + 1) / 2), ((0 + 0) / 2). split; [reflexivity | lra].
  - apply Ht. discriminate.
Defined.
End TrainingFacts.

(** ** Loading the corpus and constructing the dataset *)

Module CorpusFacts.
Import Py Random Corpus HT SynthFacts.

Section Loading.
Variable json_loads : string → option json.
Variable strip : string → string.

Local Abbreviation ht_load_line := (ht_load_line json_loads strip).
Local Abbreviation ht_load_lines := (ht_load_lines json_loads strip).
Local Abbreviation ht_load_files := (ht_load_files json_loads strip).
Local Abbreviation lcd_load_line := (lcd_load_line json_loads).
Local Abbreviation lcd_load_lines := (lcd_load_lines json_loads).
Local Abbreviation unusable := (unusable json_loads strip).

Lemma ht_load_line_unparsable max file line all printed :
  strip line ≠ "" → json_loads (strip line) = None →
  ht_load_line max file line all printed
  = (Return all, printed ++ [warning file]).
Proof.
  intros Hne Hp. unfold Corpus.ht_load_line.
  rewrite decide_False by exact Hne. rewrite Hp. reflexivity.
Qed.

Lemma lcd_load_line_unparsable filename line all printed :
  json_loads line = None →
  lcd_load_line filename line all printed
  = (Return all, printed ++ [warning filename]).
Proof. intros Hp. unfold Corpus.lcd_load_line. rewrite Hp. reflexivity. Qed.

(** Only [json.JSONDecodeError] is caught: a line that parses to something
    other than an object ends the load with [AttributeError]. *)
Lemma ht_load_line_not_an_object max file line all printed items :
  strip line ≠ "" → json_loads (strip line) = Some (JArray items) →
  ht_load_line max file line all printed = (Raise AttributeError, printed).
Proof.
  intros Hne Hp. unfold Corpus.ht_load_line.
  rewrite decide_False by exact Hne. rewrite Hp. reflexivity.
Qed.

(** Lines that are blank or do not parse leave the dialogues collected
    so far untouched and never end the load. *)
Lemma ht_load_lines_unusable max file lines all printed :
  Forall unusable lines →
  (ht_load_lines max file lines all printed).1 = Return all.
Proof.
  intros Hl. revert printed.
  induction Hl as [|line lines Hu _ IH]; intros printed; [done|].
  cbn [Corpus.ht_load_lines]. unfold Corpus.ht_load_line.
  destruct (decide (strip line = "")) as [|Hne]; [apply IH|].
  destruct Hu as [|Hp]; [done|]. rewrite Hp. apply IH.
Qed.

Lemma ht_load_files_unusable max files all printed :
  Forall (λ f, Forall unusable f.2) files →
  (ht_load_files max files all printed).1 = Return all.
Proof.
  intros Hf. revert printed.
  induction Hf as [|[file lines] files Hu _ IH]; intros printed; [done|].
  cbn [Corpus.ht_load_files].
  pose proof (ht_load_lines_unusable max file lines all printed Hu) as E.
  destruct (Corpus.ht_load_lines _ _ _ _ _ _ _) as [r printed'].
  simpl in E. subst r. apply IH.
Qed.

Context {G : Type} {RG : Random G}.
Local Abbreviation init := (init (G := G) json_loads strip).

(** C9. The dataset constructor, for every folder content: a line that
    does not parse is skipped with one warning, and the load goes on
    with the lines after it (in the constructor and in the loader of
    the LCD notebook); when the load ends with no dialogue, the
    constructor raises [ValueError] and builds no dataset, which is what
    happens in particular when every line is blank or unparsable; a
    dataset that is built holds at least one dialogue, labelled 1. *)
Theorem init_refuses_empty_corpus (files : list (string * list string))
    (max_utterances : nat) (seed_value : Z) :
  (∀ file line lines all printed,
      strip line ≠ "" → json_loads (strip line) = None →
      ht_load_line max_utterances file line all printed
      = (Return all, printed ++ [warning file])
      ∧ ht_load_lines max_utterances file (line :: lines) all printed
        = ht_load_lines max_utterances file lines all
            (printed ++ [warning file]))
  ∧ (∀ filename line lines all printed,
      json_loads line = None →
      lcd_load_line filename line all printed
      = (Return all, printed ++ [warning filename])
      ∧ lcd_load_lines filename (line :: lines) all printed
        = lcd_load_lines filename lines all
            (printed ++ [warning filename]))
  ∧ (∀ printed,
      ht_load_files max_utterances files [] [] = (Return [], printed) →
      init files max_utterances seed_value = (Raise no_dialogues, printed))
  ∧ (Forall (λ f, Forall unusable f.2) files →
     (init files max_utterances seed_value).1 = Raise no_dialogues)
  ∧ (∀ ds printed,
      init files max_utterances seed_value = (Return ds, printed) →
      ∃ d rest rest',
        dialogues ds = d :: rest ∧ labels ds = 1 :: rest'
        ∧ length (dialogues ds) = length (labels ds)).
Proof.
  split; [|split; [|split; [|split]]].
  - intros file line lines all printed Hne Hp.
    pose proof (ht_load_line_unparsable max_utterances file line all
                  printed Hne Hp) as E.
    split; [exact E|]. cbn [Corpus.ht_load_lines]. rewrite E. reflexivity.
  - intros filename line lines all printed Hp.
    pose proof (lcd_load_line_unparsable filename line all printed Hp)
      as E.
    split; [exact E|]. cbn [Corpus.lcd_load_lines]. rewrite E. reflexivity.
  - intros printed E. unfold HT.init. rewrite E.
    cbn [mbind result_bind bind]. case_decide; [reflexivity | done].
  - intros Hf. unfold HT.init.
    pose proof (ht_load_files_unusable max_utterances files [] [] Hf) as E.
    destruct (Corpus.ht_load_files _ _ _ _ _ _) as [r printed].
    simpl in E. subst r. cbn [mbind result_bind bind].
    case_decide; [reflexivity | done].
  - intros ds printed. unfold HT.init.
    destruct (Corpus.ht_load_files _ _ _ _ _ _) as [[all|e|] printed'];
      cbn [mbind result_bind bind]; try (intros E; discriminate E).
    case_decide as Hall; [intros E; discriminate E|].
    destruct (build_examples_returns all (seed seed_value))
      as (ex & g' & E).
    rewrite E. cbn [mbind result_bind bind]. intros [= <- <-].
    cbn [dialogues labels]. destruct all as [|d all]; [done|].
    cbn [Synth.build_examples] in E.
    destruct (Synth.synthesize_negative d (seed seed_value))
      as [[neg g1]| |]; cbn [mbind result_bind bind] in E;
      try discriminate.
    destruct (Synth.build_examples all g1) as [[ex1 g2]| |];
      cbn [mbind result_bind bind] in E; try discriminate.
    injection E as <- <-.
    eexists _, _, _. split; [reflexivity|]. split; [reflexivity|].
    rewrite !length_fmap. reflexivity.
Qed.
End Loading.

(** A folder with one file whose only line is not JSON, read with a
    parser that rejects it: the line is skipped with a warning and the
    constructor raises. *)
Lemma init_refuses_empty_corpus_witness :
  init (RG := Random.counter_random) (λ _, None) (λ line, line)
    [("a.jsonl", ["{oops"])] 16 42
  = (Raise no_dialogues, [warning "a.jsonl"]).
Proof.
  destruct (init_refuses_empty_corpus (RG := Random.counter_random)
              (λ _, None) (λ line, line) [("a.jsonl", ["{oops"])] 16 42)
    as (_ & _ & Hraise & _).
  apply Hraise. reflexivity.
Defined.
End CorpusFacts.

(** ** More on [permute_dialogue] *)

Module PermuteMore.
Import Py Random Synth SynthFacts Scenarios.

Section Permute.
Context {U : Type} {U_eq_dec : EqDecision U}.
Context {G : Type} {RG : Random G}.

Lemma utterance_count_indices (d : list (string * U)) spk :
  utterance_count d spk = length (speaker_indices d spk).
Proof.
  rewrite length_speaker_indices. unfold utterance_count, speaker_utterances.
  by rewrite length_fmap.
Qed.

(** Writing at a slot outside the selected ones commutes with the
    write-back. *)
Lemma write_back_insert (l : list U) idx vals k v :
  k ∉ idx →
  write_back (<[k:=v]> l) idx vals = <[k:=v]> (write_back l idx vals).
Proof.
  revert l vals. induction idx as [|i idx IH]; intros l vals Hk; [done|].
  destruct vals as [|x vals]; [done|].
  apply not_elem_of_cons in Hk as [Hki Hk].
  rewrite !write_back_cons, <- IH by done.
  by rewrite list_insert_insert_ne.
Qed.

(** Writing back a rearrangement of some values gives a rearrangement of
    what writing back the values themselves gives. *)
Lemma write_back_Permutation_vals (vals vals' : list U) :
  vals ≡ₚ vals' →
  ∀ (l : list U) idx,
    NoDup idx → Forall (λ j, j < length l) idx → length idx = length vals →
    write_back l idx vals ≡ₚ write_back l idx vals'.
Proof.
  induction 1 as [|x vals vals' _ IH|x y vals|vals mid vals' H1 IH1 H2 IH2];
    intros l idx Hnd Hlt Hlen.
  - done.
  - destruct idx as [|i idx]; [done|].
    apply NoDup_cons in Hnd as [_ Hnd]. apply Forall_cons in Hlt as [_ Hlt].
    rewrite !write_back_cons. apply IH; [done | | simpl in Hlen; lia].
    by rewrite length_insert.
  - destruct idx as [|i [|j idx]]; [done..|].
    apply NoDup_cons in Hnd as [Hi Hnd]. apply NoDup_cons in Hnd as [Hj Hnd].
    apply not_elem_of_cons in Hi as [Hij Hi].
    apply Forall_cons in Hlt as [Hil Hlt]. apply Forall_cons in Hlt as [Hjl Hlt].
    rewrite !write_back_cons, !write_back_insert by done.
    set (r := write_back l idx vals).
    assert (length r = length l) as Hr by apply length_write_back.
    set (k := <[j:=y]> (<[i:=x]> r)).
    assert (k !! i = Some x) as Hki.
    { unfold k. rewrite list_lookup_insert_ne by done.
      apply list_lookup_insert_eq. lia. }
    assert (k !! j = Some y) as Hkj.
    { unfold k. apply list_lookup_insert_eq. rewrite length_insert. lia. }
    rewrite <- (Permutation_insert_swap k i j x y Hki Hkj). unfold k.
    rewrite (list_insert_insert_ne _ i j y y) by done.
    by rewrite !list_insert_insert_eq.
  - etrans; [apply IH1; done|]. apply IH2; [done..|].
    by rewrite <- (Permutation_length H1).
Qed.

(** Writing back the values that are already there changes nothing. *)
Lemma write_back_same (l : list U) idx :
  Forall (λ j, j < length l) idx →
  write_back l idx (omap (λ i, l !! i) idx) = l.
Proof.
  induction 1 as [|i idx Hi _ IH]; [done|].
  cbn [omap list_omap]. fold (@omap list _ nat U).
  destruct (lookup_lt_is_Some_2 l i Hi) as [v Hv]. rewrite Hv.
  rewrite write_back_cons, list_insert_id by done. exact IH.
Qed.

(** The write-back of [permute_dialogue] rearranges the utterances of the
    target speaker. *)
Lemma write_back_Permutation (l : list U) idx vals :
  NoDup idx → Forall (λ j, j < length l) idx →
  vals ≡ₚ omap (λ i, l !! i) idx →
  write_back l idx vals ≡ₚ l.
Proof.
  intros Hnd Hlt Hp.
  rewrite (write_back_Permutation_vals _ _ Hp l idx Hnd Hlt).
  - by rewrite write_back_same.
  - rewrite (Permutation_length Hp).
    by destruct (omap_lookup_in_range l idx Hlt) as [-> _].
Qed.

(** The reconstruction loop leaves the turns of the other speakers where
    they are. *)
Lemma reconstruct_untouched spk (d : list (string * U)) new ptr
    (other : list (nat * (string * U))) permuted other' :
  other.*2 = filter (λ t : string * U, t.1 ≠ spk) d →
  reconstruct spk d new ptr other = Return (permuted, other') →
  ∀ i t, d !! i = Some t → t.1 ≠ spk → permuted !! i = Some t.
Proof.
  unfold dialogue, turn in *.
  revert ptr other permuted.
  induction d as [|[speaker u] d IH]; intros ptr other permuted Ho Hr i t Hi Ht;
    [done|].
  cbn [reconstruct] in Hr. destruct (decide (speaker = spk)) as [->|Hne].
  - rewrite filter_cons_False in Ho by (intros Hx; by apply Hx).
    destruct (new !! ptr) as [v|]; [|done].
    destruct (reconstruct spk d new (S ptr) other) as [[p o]| |] eqn:Er;
      cbn [mbind result_bind bind] in Hr; try done.
    injection Hr as <- <-. destruct i as [|i]; [by simplify_eq/=|].
    cbn in Hi |- *. by eapply IH.
  - rewrite filter_cons_True in Ho by done.
    destruct other as [|[j t0] other]; [done|].
    cbn [fmap list_fmap] in Ho. injection Ho as -> Ho.
    destruct (reconstruct spk d new ptr other) as [[p o]| |] eqn:Er;
      cbn [mbind result_bind bind] in Hr; try done.
    injection Hr as <- <-. destruct i as [|i]; [by simplify_eq/=|].
    cbn in Hi |- *. by eapply IH.
Qed.

(** With [other_turns] empty, the reconstruction loop fails at the first
    turn of another speaker. *)
Lemma reconstruct_exhausted spk (d : list (string * U)) new ptr :
  (∃ t, t ∈ d ∧ t.1 ≠ spk) →
  reconstruct spk d new ptr [] = Raise IndexError.
Proof.
  unfold dialogue, turn in *. revert ptr.
  induction d as [|[speaker u] d IH]; intros ptr (t & Hin & Ht).
  - by apply elem_of_nil in Hin.
  - cbn [reconstruct]. destruct (decide (speaker = spk)) as [->|Hne]; [|done].
    destruct (new !! ptr) as [v|]; [|done].
    apply elem_of_cons in Hin as [->|Hin]; [done|].
    rewrite IH by eauto. done.
Qed.

(** With [other_turns] empty, the loop returns only when every turn is the
    target speaker's, and keeps the speakers. *)
Lemma reconstruct_exhausted_return spk (d : list (string * U)) new ptr p o :
  reconstruct spk d new ptr [] = Return (p, o) → p.*1 = d.*1 ∧ o = [].
Proof.
  unfold dialogue, turn in *. revert ptr p.
  induction d as [|[speaker u] d IH]; intros ptr p Hr.
  - cbn in Hr. by simplify_eq.
  - cbn [reconstruct] in Hr.
    destruct (decide (speaker = spk)) as [->|Hne]; [|done].
    destruct (new !! ptr) as [v|]; [|done].
    match type of Hr with
    | context [reconstruct ?a ?b ?c ?e ?f] =>
        destruct (reconstruct a b c e f) as [[p' o']| |] eqn:Er;
          cbn [mbind result_bind bind] in Hr; try done
    end.
    injection Hr as <- <-. destruct (IH _ _ Er) as [Hp ->].
    split; [cbn; by rewrite Hp | done].
Qed.

Lemma shuffle_until_different_never_raises budget (to_shuffle sh : list U)
    (g : G) e :
  shuffle_until_different budget to_shuffle sh g ≠ Raise e.
Proof.
  revert sh g. induction budget as [|b IH]; intros sh g; simpl; [done|].
  destruct (shuffle sh g) as [sh' g'].
  destruct (decide (sh' ≠ to_shuffle)); [done | apply IH].
Qed.

(** What one iteration of the outer loop does to [other_turns]: starting
    from the full list or from the empty list, it leaves the full list or
    the empty list, and a dialogue it returns has the speakers of the
    original. *)
Lemma permute_once_speakers budget (d : list (string * U)) spk
    (other : list (nat * (string * U))) (g : G) p other' g' :
  other = other_turns d spk ∨ other = [] →
  permute_once budget d spk other g = Return (p, other', g') →
  p.*1 = d.*1 ∧ (other' = other_turns d spk ∨ other' = []).
Proof.
  intros Ho Hr.
  destruct (decide (length (speaker_indices d spk) < 2)) as [Hlt|Hge].
  - unfold permute_once in Hr. rewrite decide_True in Hr by done.
    injection Hr as <- <- <-. done.
  - destruct Ho as [->| ->].
    + destruct (permute_once_differs budget d spk g p other' g' Hge Hr)
        as (_ & Hs & ->). auto.
    + unfold permute_once in Hr. rewrite decide_False in Hr by done.
      destruct (randint 2 _ g) as [k g1].
      destruct (sample _ k g1) as [idx g2].
      destruct (shuffle_until_different _ _ _ g2) as [[sh g3]| |];
        cbn [mbind result_bind bind] in Hr; try done.
      match type of Hr with
      | context [reconstruct ?a ?b ?c ?e ?f] =>
          destruct (reconstruct a b c e f) as [[p' o']| |] eqn:Er;
            cbn [mbind result_bind bind] in Hr; try done
      end.
      injection Hr as <- <- <-.
      destruct (reconstruct_exhausted_return _ _ _ _ _ _ Er) as [Hp ->]. auto.
Qed.

Lemma permute_loop_returns budget (d : list (string * U)) spk n
    (other : list (nat * (string * U))) (g : G) ps g' :
  other = other_turns d spk ∨ other = [] →
  permute_loop budget d spk n other g = Return (ps, g') →
  length ps = n ∧ Forall (λ p : list (string * U), p.*1 = d.*1) ps.
Proof.
  revert other g ps. induction n as [|n IH]; intros other g ps Ho Hr.
  - cbn in Hr. by simplify_eq.
  - cbn [permute_loop] in Hr.
    destruct (permute_once budget d spk other g) as [[[p o] g1]| |] eqn:E1;
      cbn [mbind result_bind bind] in Hr; try done.
    destruct (permute_once_speakers _ _ _ _ _ _ _ _ Ho E1) as [Hp Ho'].
    destruct (permute_loop budget d spk n o g1) as [[ps' g2]| |] eqn:E2;
      cbn [mbind result_bind bind] in Hr; try done.
    injection Hr as <- <-. destruct (IH _ _ _ Ho' E2) as [Hl Hf].
    split; [simpl; by rewrite Hl | by constructor].
Qed.

(** The first iteration of the outer loop, for a target speaker with at
    least two turns: the turns of the other speakers stay where they are
    and the utterances of the target speaker are rearranged among the
    target's own turns. *)
Lemma permute_once_rearranges budget (d : list (string * U)) spk (g : G)
    p other g' :
  ¬ length (speaker_indices d spk) < 2 →
  permute_once budget d spk (other_turns d spk) g = Return (p, other, g') →
  (∀ i t, d !! i = Some t → t.1 ≠ spk → p !! i = Some t)
  ∧ speaker_utterances p spk ≡ₚ speaker_utterances d spk.
Proof.
  intros Hlen. unfold permute_once. rewrite decide_False by exact Hlen.
  set (si := speaker_indices d spk) in *.
  set (su := speaker_utterances d spk).
  assert (length si = length su) as Hsu by apply length_speaker_indices.
  pose proof (randint_range 2 (length si) g ltac:(lia)) as Hk.
  destruct (randint 2 (length si) g) as [k g1]. simpl in Hk.
  pose proof (sample_NoDup (length si) k g1 ltac:(lia)) as Hnd.
  pose proof (sample_lt (length si) k g1 ltac:(lia)) as Hlt.
  destruct (sample (length si) k g1) as [idx g2]. simpl in Hnd, Hlt.
  rewrite Hsu in Hlt.
  set (to_shuffle := omap (λ i, su !! i) idx) in *.
  destruct (shuffle_until_different budget to_shuffle to_shuffle g2)
    as [[shuffled g3]| |] eqn:Es; cbn [mbind result_bind bind];
    try discriminate.
  apply shuffle_until_different_exit in Es as [Hperm _]; [|done].
  set (new := write_back su idx shuffled).
  assert (length new = length su) as Hnl by apply length_write_back.
  destruct (reconstruct_fresh spk d new 0 (other_turns d spk))
    as (perm & Er & _ & Hf).
  { apply other_turns_snd. }
  { rewrite Hnl. unfold su, speaker_utterances. rewrite length_fmap.
    apply Nat.le_refl. }
  rewrite Er. cbn [mbind result_bind bind]. intros [= <- <- <-]. split.
  - apply (reconstruct_untouched spk d new 0 (other_turns d spk) perm []);
      [apply other_turns_snd | exact Er].
  - assert (speaker_utterances perm spk = new) as ->.
    { unfold speaker_utterances. etrans; [exact Hf|].
      rewrite drop_0. apply take_ge. rewrite Hnl.
      unfold su, speaker_utterances. rewrite length_fmap. apply Nat.le_refl. }
    apply write_back_Permutation; done.
Qed.

(** X1. One permutation of a target speaker with at least two turns: when
    [permute_dialogue] returns, it returns one dialogue, different from the
    original, with the same speaker at every position, every turn of the
    other speakers unchanged and in place, and the utterances of the target
    speaker rearranged among the target's turns. *)
Theorem permute_dialogue_one_permutation budget (d : list (string * U)) spk
    (g : G) ps g' :
  2 ≤ utterance_count d spk →
  permute_dialogue budget d spk 1 g = Return (ps, g') →
  ∃ p, ps = [p] ∧ p ≠ d ∧ p.*1 = d.*1
       ∧ (∀ i t, d !! i = Some t → t.1 ≠ spk → p !! i = Some t)
       ∧ speaker_utterances p spk ≡ₚ speaker_utterances d spk.
Proof.
  rewrite utterance_count_indices. intros Hc.
  unfold permute_dialogue. cbn [permute_loop].
  destruct (permute_once budget d spk (other_turns d spk) g)
    as [[[p o] g1]| |] eqn:E; cbn [mbind result_bind bind]; try done.
  intros [= <- <-]. exists p. split; [done|].
  destruct (permute_once_differs budget d spk g p o g1 ltac:(lia) E)
    as (Hne & Hs & _).
  destruct (permute_once_rearranges budget d spk g p o g1 ltac:(lia) E)
    as (Hu & Hp).
  done.
Qed.

(** X2. A target speaker with fewer than two turns (in particular one who
    does not occur): [permute_dialogue] returns [num_permutations] copies
    of the dialogue and draws nothing from the generator. *)
Theorem permute_dialogue_short_speaker budget (d : list (string * U)) spk n
    (g : G) :
  utterance_count d spk < 2 →
  permute_dialogue budget d spk n g = Return (replicate n d, g).
Proof.
  rewrite utterance_count_indices. apply permute_dialogue_copies.
Qed.

(** One iteration of the outer loop either has its shuffle loop still
    running or completes: from the full [other_turns] it returns and leaves
    [other_turns] empty; from the empty [other_turns], when somebody else
    has a turn, it raises [IndexError]. *)
Lemma permute_once_fresh budget (d : list (string * U)) spk (g : G) :
  ¬ length (speaker_indices d spk) < 2 →
  permute_once budget d spk (other_turns d spk) g = Timeout
  ∨ ∃ p g', permute_once budget d spk (other_turns d spk) g
            = Return (p, [], g').
Proof.
  intros Hlen. unfold permute_once. rewrite decide_False by done.
  destruct (randint 2 _ g) as [k g2].
  destruct (sample _ k g2) as [idx g3].
  match goal with
  | |- context [shuffle_until_different ?b ?t ?s ?g0] =>
      destruct (shuffle_until_different b t s g0) as [[sh g4]|e'|] eqn:Es
  end; cbn [mbind result_bind bind]; [| |by left].
  - right.
    match goal with
    | |- context [reconstruct ?a ?b ?c ?e0 ?f] =>
        destruct (reconstruct_fresh a b c e0 f) as (perm & -> & _)
    end; [apply other_turns_snd | | by eauto].
    rewrite length_write_back. unfold speaker_utterances.
    rewrite length_fmap. apply Nat.le_refl.
  - by apply shuffle_until_different_never_raises in Es.
Qed.

Lemma permute_once_exhausted budget (d : list (string * U)) spk (g : G) :
  ¬ length (speaker_indices d spk) < 2 → (∃ t, t ∈ d ∧ t.1 ≠ spk) →
  permute_once budget d spk [] g = Timeout
  ∨ permute_once budget d spk [] g = Raise IndexError.
Proof.
  intros Hlen Ht. unfold permute_once. rewrite !decide_False by done.
  destruct (randint 2 _ g) as [k g2].
  destruct (sample _ k g2) as [idx g3].
  match goal with
  | |- context [shuffle_until_different ?b ?t ?s ?g0] =>
      destruct (shuffle_until_different b t s g0) as [[sh g4]|e'|] eqn:Es
  end; cbn [mbind result_bind bind]; [| |by left].
  - rewrite !reconstruct_exhausted by done. by right.
  - by apply shuffle_until_different_never_raises in Es.
Qed.

(** X3. Two or more permutations of a dialogue in which the target speaker
    has at least two turns and somebody else has a turn: [permute_dialogue]
    returns nothing; a shuffle loop, of the first pass or of the second,
    is still running, or [IndexError] is raised. The reason: a first pass
    that completes leaves [other_turns] empty, the list is not rebuilt
    for the next pass, and the reconstruction loop started on an empty
    [other_turns] raises [IndexError] (in the code, at
    [other_turns.pop(0)] on the first turn of another speaker), so that
    a pass started on it cannot return. *)
Theorem permute_dialogue_second_pass budget (d : list (string * U)) spk n
    (g : G) :
  2 ≤ utterance_count d spk → (∃ t, t ∈ d ∧ t.1 ≠ spk) → 2 ≤ n →
  (permute_dialogue budget d spk n g = Timeout
   ∨ permute_dialogue budget d spk n g = Raise IndexError)
  ∧ (∀ p other g1,
       permute_once budget d spk (other_turns d spk) g
       = Return (p, other, g1) → other = [])
  ∧ (∀ new_speaker_utterances speaker_ptr,
       reconstruct spk d new_speaker_utterances speaker_ptr []
       = Raise IndexError)
  ∧ (∀ g1, permute_once budget d spk [] g1 = Timeout
           ∨ permute_once budget d spk [] g1 = Raise IndexError).
Proof.
  rewrite utterance_count_indices. intros Hc Ht Hn.
  split; [|split; [|split]].
  - destruct n as [|[|n]]; [lia..|].
    unfold permute_dialogue. cbn [permute_loop].
    destruct (permute_once_fresh budget d spk g ltac:(lia))
      as [->|(p & g1 & ->)]; [by left|].
    cbn [mbind result_bind bind].
    destruct (permute_once_exhausted budget d spk g1 ltac:(lia) Ht)
      as [->| ->]; [by left | by right].
  - intros p other g1 Hp.
    destruct (permute_once_fresh budget d spk g ltac:(lia))
      as [E|(p' & g' & E)]; rewrite E in Hp; [discriminate|].
    by injection Hp as _ <- _.
  - intros new ptr. by apply reconstruct_exhausted.
  - intros g1. apply permute_once_exhausted; [lia | done].
Qed.

(** X4. A target speaker whose turns, two or more, all carry the same
    utterance: [permute_dialogue] never returns, whatever the generator and
    however long the shuffle loop is observed. *)
Theorem permute_dialogue_constant_speaker budget (d : list (string * U)) spk
    n (g : G) m u :
  speaker_utterances d spk = replicate m u → 2 ≤ m → 1 ≤ n →
  permute_dialogue budget d spk n g = Timeout.
Proof.
  intros Hu Hm Hn. destruct n as [|n]; [lia|].
  unfold permute_dialogue. cbn [permute_loop].
  rewrite (permute_once_repeated_utterance budget d spk _ g m u Hu); [done|].
  rewrite length_speaker_indices, Hu, length_replicate. lia.
Qed.

(** X5. Whenever [permute_dialogue] returns, it returns exactly
    [num_permutations] dialogues, and each has the speakers of the original
    dialogue at the same positions. *)
Theorem permute_dialogue_length budget (d : list (string * U)) spk n (g : G)
    ps g' :
  permute_dialogue budget d spk n g = Return (ps, g') →
  length ps = n ∧ Forall (λ p : list (string * U), p.*1 = d.*1) ps.
Proof. apply permute_loop_returns. by left. Qed.
End Permute.

Lemma permute_dialogue_one_permutation_witness :
  ∃ p, [[("A", "how are you"); ("B", "hello"); ("A", "hi"); ("B", "fine")]]
       = [p] ∧ p ≠ greeting ∧ p.*1 = greeting.*1
       ∧ (∀ i t, greeting !! i = Some t → t.1 ≠ "A" → p !! i = Some t)
       ∧ speaker_utterances p "A" ≡ₚ speaker_utterances greeting "A".
Proof.
  apply (permute_dialogue_one_permutation (RG := Random.counter_random)
           5 greeting "A" 0 _ 4).
  - vm_compute. lia.
  - vm_compute. reflexivity.
Defined.

Lemma permute_dialogue_short_speaker_witness :
  permute_dialogue (RG := Random.counter_random) 5 short_reply "B" 3 7
  = Return ([short_reply; short_reply; short_reply], 7).
Proof.
  apply (permute_dialogue_short_speaker (RG := Random.counter_random)
           5 short_reply "B" 3 7).
  vm_compute. lia.
Defined.

Lemma permute_dialogue_second_pass_witness :
  permute_dialogue (RG := Random.counter_random) 5 greeting "A" 2 0 = Timeout
  ∨ permute_dialogue (RG := Random.counter_random) 5 greeting "A" 2 0
    = Raise IndexError.
Proof.
  refine (proj1 (permute_dialogue_second_pass (RG := Random.counter_random)
                   5 greeting "A" 2 0 _ _ _)).
  - vm_compute. lia.
  - exists ("B", "hello"). split; [|discriminate].
    apply list_elem_of_further, list_elem_of_here.
  - lia.
Defined.

Lemma permute_dialogue_constant_speaker_witness :
  permute_dialogue (RG := Random.counter_random) 9 repeated_answer "A" 1 0
  = Timeout.
Proof.
  apply (permute_dialogue_constant_speaker (RG := Random.counter_random)
           9 repeated_answer "A" 1 0 2 "ok"); [reflexivity | lia | lia].
Defined.

Lemma permute_dialogue_length_witness :
  length [[("A", "how are you"); ("B", "hello"); ("A", "hi"); ("B", "fine")]]
  = 1
  ∧ Forall (λ p : list (string * string), p.*1 = greeting.*1)
      [[("A", "how are you"); ("B", "hello"); ("A", "hi"); ("B", "fine")]].
Proof.
  apply (permute_dialogue_length (RG := Random.counter_random)
           5 greeting "A" 1 0 _ 4).
  vm_compute. reflexivity.
Defined.
End PermuteMore.

(** ** More on the negatives of the dataset constructor *)

Module NegativeFacts.
Import Py Random Synth SynthFacts PermuteMore Scenarios.

(** A loop over [enumerate(idx)] that writes [g(vals[k])] at slot [idx[k]]
    is the write-back of the mapped values. *)
Lemma fold_enumerate_write_back {A B} (g : B → A) (vals : list B)
    (idx : list nat) (l : list A) (k0 : nat) :
  k0 + length idx ≤ length vals →
  foldl (λ acc p, match vals !! p.1 with
                  | Some v => <[p.2 := g v]> acc
                  | None => acc
                  end) l (imap (λ k i, (k0 + k, i)) idx)
  = write_back l idx (g <$> drop k0 vals).
Proof.
  revert l k0. induction idx as [|i idx IH]; intros l k0 Hlen; [done|].
  rewrite imap_cons. cbn [foldl fst snd]. rewrite Nat.add_0_r.
  simpl in Hlen.
  destruct (lookup_lt_is_Some_2 vals k0 ltac:(lia)) as [v Hv]. rewrite Hv.
  rewrite (drop_S vals v k0 Hv). cbn [fmap list_fmap].
  rewrite write_back_cons.
  rewrite (imap_ext _ (λ k i, (S k0 + k, i)))
    by (intros k x _; simpl; f_equal; lia).
  apply IH. lia.
Qed.

Section Negatives.
Context {U : Type} {U_eq_dec : EqDecision U}.
Context {G : Type} {RG : Random G}.

Lemma scatter_write_back (l : list U) selected vals :
  length selected ≤ length vals →
  scatter l selected vals = write_back l selected vals.
Proof.
  intros Hlen. unfold scatter, enumerate.
  etrans;
    [exact (fold_enumerate_write_back Datatypes.id vals selected l 0 Hlen)|].
  by rewrite drop_0, list_fmap_id.
Qed.

Lemma substitute_write_back (d : list (string * U)) target indices vals :
  length indices ≤ length vals →
  substitute d target indices vals
  = write_back d indices (pair target <$> vals).
Proof.
  intros Hlen. unfold substitute, enumerate.
  etrans;
    [exact (fold_enumerate_write_back (pair target) vals indices d 0 Hlen)|].
  by rewrite drop_0.
Qed.

Lemma speaker_indices_sublist (d : list (string * U)) spk :
  speaker_indices d spk `sublist_of` seq 0 (length d).
Proof.
  unfold speaker_indices, enumerate.
  assert ((imap pair d).*1 = seq 0 (length d)) as <-.
  { apply list_eq. intros i. rewrite list_lookup_fmap, list_lookup_imap.
    destruct (d !! i) as [t|] eqn:E; simpl; symmetry.
    - apply lookup_seq. split; [done|]. by apply lookup_lt_Some in E.
    - apply lookup_ge_None. rewrite length_seq. by apply lookup_ge_None in E. }
  apply fmap_sublist, sublist_filter.
Qed.

Lemma speaker_indices_NoDup (d : list (string * U)) spk :
  NoDup (speaker_indices d spk).
Proof.
  eapply sublist_NoDup; [apply NoDup_seq | apply speaker_indices_sublist].
Qed.

Lemma speaker_indices_lt (d : list (string * U)) spk :
  Forall (λ i, i < length d) (speaker_indices d spk).
Proof.
  apply Forall_forall. intros i Hi.
  apply elem_of_speaker_indices in Hi as (u & Hu).
  by apply lookup_lt_Some in Hu.
Qed.

(** The utterances read at the positions of the target speaker, paired
    with the speaker, are the turns at those positions. *)
Lemma target_turns (d : list (string * U)) spk idx :
  Forall (λ i, ∃ u, d !! i = Some (spk, u)) idx →
  pair spk <$> omap (λ i, snd <$> d !! i) idx = omap (λ i, d !! i) idx
  ∧ length (omap (λ i, snd <$> d !! i) idx) = length idx.
Proof.
  induction 1 as [|i idx [u Hu] _ [IH1 IH2]]; [done|].
  cbn [omap list_omap]. fold (@omap list _ nat U).
  fold (@omap list _ nat (string * U)). rewrite Hu. cbn.
  by rewrite IH1, IH2.
Qed.

(** One pass of the retry loop proposes a rearrangement of the utterances
    of the target speaker. *)
Lemma shuffle_attempt_Permutation (utts : list U) (g : G) :
  2 ≤ length utts → (shuffle_attempt utts g).1 ≡ₚ utts.
Proof.
  intros Hlen. unfold shuffle_attempt.
  pose proof (randint_range 2 (length utts) g Hlen) as Hk.
  destruct (randint 2 (length utts) g) as [k g1]. simpl in Hk.
  pose proof (sample_length (length utts) k g1 ltac:(lia)) as Hsl.
  pose proof (sample_NoDup (length utts) k g1 ltac:(lia)) as Hnd.
  pose proof (sample_lt (length utts) k g1 ltac:(lia)) as Hlt.
  destruct (sample (length utts) k g1) as [selected g2].
  simpl in Hsl, Hnd, Hlt.
  pose proof (shuffle_Permutation U (omap (λ i, utts !! i) selected) g2)
    as Hp.
  destruct (shuffle (omap (λ i, utts !! i) selected) g2) as [sh g3].
  simpl in Hp. cbn [fst].
  destruct (omap_lookup_in_range utts selected Hlt) as [Hol _].
  rewrite scatter_write_back
    by (rewrite (Permutation_length Hp), Hol; done).
  by apply write_back_Permutation.
Qed.

Lemma shuffle_retry_Permutation remaining (utts : list U) (g : G) s :
  2 ≤ length utts →
  (shuffle_retry remaining utts g).1.1 = Some s → s ≡ₚ utts ∧ s ≠ utts.
Proof.
  intros Hlen. revert g. induction remaining as [|r IH]; intros g; [done|].
  cbn [shuffle_retry].
  pose proof (shuffle_attempt_Permutation utts g Hlen) as Hp.
  destruct (shuffle_attempt utts g) as [s1 g1]. simpl in Hp.
  destruct (decide (s1 ≠ utts)) as [Hne|Heq]; cbn.
  - by intros [= <-].
  - specialize (IH g1). destruct (shuffle_retry r utts g1) as [[f g2] n].
    exact IH.
Qed.

(** What the constructor does after it has picked a target speaker with
    positions [indices] and found [shuffled_utts]: the candidate negative
    is a rearrangement of the turns of the dialogue that touches only the
    target speaker's turns. *)
Lemma substitute_shape (d : list (string * U)) target shuffled_utts :
  let indices := speaker_indices d target in
  let utts := omap (λ idx, snd <$> d !! idx) indices in
  shuffled_utts ≡ₚ utts →
  let neg := substitute d target indices shuffled_utts in
  neg ≡ₚ d ∧ neg.*1 = d.*1
  ∧ ∀ i t, d !! i = Some t → t.1 ≠ target → neg !! i = Some t.
Proof.
  intros indices utts Hp neg.
  assert (Forall (λ i, ∃ u, d !! i = Some (target, u)) indices) as Hturns.
  { apply Forall_forall. intros i Hi. by apply elem_of_speaker_indices. }
  destruct (target_turns d target indices Hturns) as [Hpair Hlen].
  pose proof (speaker_indices_NoDup d target) as Hnd.
  pose proof (speaker_indices_lt d target) as Hlt.
  fold indices in Hnd, Hlt. fold utts in Hpair, Hlen.
  pose proof (Permutation_length Hp) as Hsl.
  assert (neg = write_back d indices (pair target <$> shuffled_utts)) as Hneg.
  { apply substitute_write_back. lia. }
  assert (neg ≡ₚ d) as Hperm.
  { rewrite Hneg. apply write_back_Permutation; [done | done |].
    rewrite Hp.
    exact (eq_rect _ (λ x, pair target <$> utts ≡ₚ x) (reflexivity _) _
             Hpair). }
  assert (∀ i, i ∉ indices → neg !! i = d !! i) as Hout.
  { intros i Hi. rewrite Hneg. by apply write_back_untouched. }
  assert (∀ k i, indices !! k = Some i →
            neg !! i = (pair target <$> shuffled_utts) !! k) as Hat.
  { intros k i Hk. rewrite Hneg.
    apply write_back_lookup; [done | done | rewrite length_fmap; lia | done]. }
  assert (∀ i t, d !! i = Some t → t.1 ≠ target → neg !! i = Some t) as Hun.
  { intros i [s u] Hi Hs. etrans; [apply Hout | exact Hi].
    intros Hin. apply elem_of_speaker_indices in Hin as (u' & Hu').
    rewrite Hi in Hu'. injection Hu' as -> _. done. }
  split; [done|]. split; [|done].
  apply list_eq. intros i. rewrite !list_lookup_fmap.
  destruct (decide (i ∈ indices)) as [Hin|Hnin].
  - pose proof Hin as Hin'.
    apply elem_of_speaker_indices in Hin' as (u & Hu).
    apply list_elem_of_lookup_1 in Hin as (k & Hk).
    destruct (lookup_lt_is_Some_2 shuffled_utts k) as [v Hv].
    { apply lookup_lt_Some in Hk. lia. }
    pose proof (Hat k i Hk) as Hi. rewrite list_lookup_fmap, Hv in Hi.
    transitivity (Some target);
      [exact (f_equal (fmap fst) Hi)
      | symmetry; exact (f_equal (fmap fst) Hu)].
  - exact (f_equal (fmap fst) (Hout i Hnin)).
Qed.

(** X6. A negative appended by the dataset constructor differs from the
    dialogue it was made from, has the same speaker at every position, and
    is a rearrangement of its turns, so every speaker keeps the same
    utterances; only the turns of one speaker, one with more than one
    turn, are touched. *)
Theorem synthesize_negative_shape (d neg : list (string * U)) (g g' : G) :
  synthesize_negative d g = Return (Some neg, g') →
  neg ≠ d ∧ neg.*1 = d.*1 ∧ neg ≡ₚ d
  ∧ (∀ spk, speaker_utterances neg spk ≡ₚ speaker_utterances d spk)
  ∧ ∃ target, target ∈ valid_speakers d
      ∧ ∀ i t, d !! i = Some t → t.1 ≠ target → neg !! i = Some t.
Proof.
  intros Hs. pose proof (synthesize_negative_differs d neg g g' Hs) as Hne.
  revert Hs. unfold synthesize_negative.
  destruct (decide (length (speakers d) < 2)); [discriminate|].
  destruct (decide (valid_speakers d = [])) as [|Hv]; [discriminate|].
  destruct (choice_nonempty (valid_speakers d) g Hv)
    as (target & g1 & -> & Hin).
  cbn [mbind result_bind bind].
  set (indices := speaker_indices d target).
  set (utts := omap (λ idx, snd <$> d !! idx) indices).
  assert (2 ≤ length utts) as Hlen.
  { unfold valid_speakers in Hin.
    apply list_elem_of_filter in Hin as [Hc _].
    rewrite utterance_count_indices in Hc.
    assert (Forall (λ i, ∃ u, d !! i = Some (target, u)) indices) as Hturns.
    { apply Forall_forall. intros i Hi. by apply elem_of_speaker_indices. }
    destruct (target_turns d target indices Hturns) as [_ Hl].
    fold utts in Hl. unfold indices in Hl. lia. }
  match goal with
  | |- context [shuffle_retry ?a ?b ?c] =>
      pose proof (shuffle_retry_Permutation a b c) as Hr;
      destruct (shuffle_retry a b c) as [[[s|] g2] passes]; [|discriminate]
  end.
  destruct (Hr s Hlen eq_refl) as [Hp _].
  destruct (substitute_shape d target s Hp) as (Hperm & Hspk & Hun).
  fold indices in Hperm, Hspk, Hun.
  match goal with
  | |- context [decide ?P] => destruct (decide P); [|discriminate]
  end.
  intros [= <- <-]. split; [done|]. split; [done|]. split; [done|].
  split; [|by eauto].
  intros spk. unfold speaker_utterances. by rewrite Hperm.
Qed.

(** X7. The constructor makes no negative, and draws nothing, for a
    dialogue with fewer than two distinct speakers (however many turns the
    one speaker has) and for a dialogue in which nobody speaks twice. *)
Theorem synthesize_negative_none (d : list (string * U)) (g : G) :
  length (speakers d) < 2 ∨ (∀ spk, utterance_count d spk ≤ 1) →
  synthesize_negative d g = Return (None, g).
Proof.
  intros Hd. unfold synthesize_negative.
  destruct (decide (length (speakers d) < 2)) as [|Hn]; [done|].
  destruct Hd as [|Hc]; [done|].
  rewrite decide_True; [done|].
  unfold valid_speakers. apply elem_of_nil_inv. intros spk Hin.
  apply list_elem_of_filter in Hin as [Hgt _]. specialize (Hc spk). lia.
Qed.

Lemma omap_lookup_fst_snd {A} (l : list A) (pairs : list (nat * A)) :
  Forall (λ p, l !! p.1 = Some p.2) pairs →
  omap (λ i, l !! i) (pairs.*1) = pairs.*2.
Proof.
  induction 1 as [|[i x] pairs Hp _ IH]; [done|].
  cbn [fmap list_fmap omap list_omap fst snd] in *.
  fold (@omap list _ nat A). rewrite Hp. f_equal. exact IH.
Qed.

(** The utterances the constructor reads at the positions of a speaker are
    that speaker's utterances, in order. *)
Lemma indexed_utterances (d : list (string * U)) spk :
  omap (λ idx, snd <$> d !! idx) (speaker_indices d spk)
  = speaker_utterances d spk.
Proof.
  assert (Forall (λ i, ∃ u, d !! i = Some (spk, u)) (speaker_indices d spk))
    as Hturns.
  { apply Forall_forall. intros i Hi. by apply elem_of_speaker_indices. }
  destruct (target_turns d spk _ Hturns) as [Hpair _].
  apply (f_equal (fmap snd)) in Hpair.
  rewrite <- list_fmap_compose in Hpair.
  rewrite (list_fmap_ext (snd ∘ pair spk) Datatypes.id) in Hpair by done.
  rewrite list_fmap_id in Hpair. rewrite Hpair.
  unfold speaker_indices, speaker_utterances, enumerate.
  rewrite omap_lookup_fst_snd.
  - exact (f_equal (fmap snd)
             (filter_imap_snd (λ t : string * U, t.1 = spk) (λ i, i) d)).
  - apply Forall_forall. intros [i t] Hin.
    apply list_elem_of_filter in Hin as [_ Hin].
    apply elem_of_lookup_imap in Hin as (i' & t' & Heq & Ht). by simplify_eq.
Qed.

Lemma scatter_replicate (n m : nat) (u : U) selected :
  scatter (replicate n u) selected (replicate m u) = replicate n u.
Proof.
  unfold scatter. induction (enumerate selected) as [|p pairs IH] using rev_ind;
    [done|].
  rewrite foldl_app. cbn [foldl]. rewrite IH.
  destruct (replicate m u !! p.1) as [v|] eqn:E; [|done].
  apply lookup_replicate in E as [-> _]. apply insert_replicate.
Qed.

(** When the utterances of the target speaker are all the same, every pass
    of the retry loop proposes them unchanged. *)
Lemma shuffle_attempt_constant (n : nat) (u : U) (g : G) :
  (shuffle_attempt (replicate n u) g).1 = replicate n u.
Proof.
  unfold shuffle_attempt.
  destruct (randint 2 _ g) as [k g1]. destruct (sample _ k g1) as [sel g2].
  destruct (omap_lookup_replicate n u sel) as [m Hm]. rewrite Hm.
  pose proof (shuffle_Permutation U (replicate m u) g2) as Hp.
  destruct (shuffle (replicate m u) g2) as [sh g3]. simpl in Hp.
  symmetry in Hp. apply replicate_Permutation in Hp as <-.
  apply scatter_replicate.
Qed.

Lemma shuffle_retry_constant remaining (n : nat) (u : U) (g : G) :
  ∃ g', shuffle_retry remaining (replicate n u) g = (None, g', remaining).
Proof.
  revert g. induction remaining as [|r IH]; intros g; [by eexists|].
  cbn [shuffle_retry].
  pose proof (shuffle_attempt_constant n u g) as Hs.
  destruct (shuffle_attempt (replicate n u) g) as [s g1]. simpl in Hs.
  rewrite decide_False by (intros Hne; by apply Hne).
  destruct (IH g1) as (g' & ->). by eexists.
Qed.

(** X8. The retry loop of the constructor gives up after exactly 20 passes
    when the utterances it shuffles are all the same; a dialogue in which
    every speaker with more than one turn repeats one utterance therefore
    gets no negative, and the constructor goes on. *)
Theorem synthesize_negative_gives_up (d : list (string * U)) (g : G) :
  (∀ spk, spk ∈ valid_speakers d →
          ∃ u, speaker_utterances d spk = replicate (utterance_count d spk) u) →
  (∃ g', synthesize_negative d g = Return (None, g'))
  ∧ ∀ spk u g1, speaker_utterances d spk = replicate (utterance_count d spk) u →
      ∃ g2, shuffle_retry max_attempts (speaker_utterances d spk) g1
            = (None, g2, 20).
Proof.
  intros Hconst. split.
  - unfold synthesize_negative.
    destruct (decide (length (speakers d) < 2)); [by eauto|].
    destruct (decide (valid_speakers d = [])) as [|Hv]; [by eauto|].
    destruct (choice_nonempty (valid_speakers d) g Hv)
      as (target & g1 & -> & Hin).
    cbn [mbind result_bind bind]. rewrite indexed_utterances.
    destruct (Hconst target Hin) as (u & ->).
    destruct (shuffle_retry_constant max_attempts (utterance_count d target)
                u g1) as (g2 & ->).
    by eauto.
  - intros spk u g1 ->. apply shuffle_retry_constant.
Qed.

(** X9. The examples of the dataset, in order: the dialogues labelled 1 are
    exactly the loaded dialogues, in loading order; every label is 0 or 1;
    there are as many 1s as loaded dialogues and at most as many 0s. *)
Theorem build_examples_labels (ds : list (list (string * U))) (g : G) ex g' :
  build_examples ds g = Return (ex, g') →
  (filter (λ e : list (string * U) * nat, e.2 = 1) ex).*1 = ds
  ∧ HT.binary (ex.*2)
  ∧ HT.count_label 1 (ex.*2) = length ds
  ∧ HT.count_label 0 (ex.*2) ≤ length ds.
Proof.
  unfold HT.binary, HT.count_label.
  revert g ex. induction ds as [|d ds IH]; intros g ex Hb.
  - cbn in Hb. simplify_eq. repeat split; [constructor | done].
  - cbn [build_examples] in Hb.
    destruct (synthesize_negative d g) as [[o g1]| |];
      cbn [mbind result_bind bind] in Hb; try done.
    destruct (build_examples ds g1) as [[ex1 g2]| |] eqn:Eb;
      cbn [mbind result_bind bind] in Hb; try done.
    injection Hb as <- <-.
    destruct (IH _ _ Eb) as (Hpos & Hbin & Hc1 & Hc0).
    rewrite filter_cons_True by done.
    destruct o as [neg|]; cbn [app fmap list_fmap fst snd].
    + rewrite filter_cons_False by done.
      rewrite filter_cons_True, !filter_cons_False, filter_cons_True by done.
      cbn [length]. rewrite Hc1.
      split; [f_equal; exact Hpos|].
      repeat split; [by repeat constructor | lia].
    + rewrite filter_cons_True, filter_cons_False by done.
      cbn [length]. rewrite Hc1.
      split; [f_equal; exact Hpos|].
      repeat split; [by repeat constructor | lia].
Qed.
End Negatives.

Lemma synthesize_negative_shape_witness :
  let neg := [("A", "how are you"); ("B", "hello"); ("A", "hi"); ("B", "fine")]
  in neg ≠ greeting ∧ neg.*1 = greeting.*1 ∧ neg ≡ₚ greeting.
Proof.
  destruct (synthesize_negative_shape (RG := Random.counter_random)
              greeting
              [("A", "how are you"); ("B", "hello"); ("A", "hi");
               ("B", "fine")] 0 4) as (H1 & H2 & H3 & _).
  - vm_compute. reflexivity.
  - cbv zeta. done.
Defined.

Lemma synthesize_negative_gives_up_witness :
  ∃ g', synthesize_negative (RG := Random.counter_random) repeated_answer 0
        = Return (None, g').
Proof.
  apply (synthesize_negative_gives_up (RG := Random.counter_random)
           repeated_answer 0).
  intros spk Hin. exists "ok".
  assert (valid_speakers repeated_answer = ["A"]) as Hv
    by (vm_compute; reflexivity).
  rewrite Hv in Hin. apply list_elem_of_singleton in Hin as ->.
  reflexivity.
Defined.

Lemma build_examples_labels_witness :
  HT.count_label 1 [1; 0; 1] = 2 ∧ HT.count_label 0 [1; 0; 1] ≤ 2.
Proof.
  destruct (build_examples_labels (RG := Random.counter_random)
              [greeting; [("A", "ok"); ("B", "hi")]] 1
              [(greeting, 1);
               ([("A", "hi"); ("B", "fine"); ("A", "how are you");
                 ("B", "hello")], 0);
               ([("A", "ok"); ("B", "hi")], 1)] 8)
    as (_ & _ & H1 & H0).
  - vm_compute. reflexivity.
  - split; [exact H1 | exact H0].
Defined.

Lemma synthesize_negative_none_witness :
  synthesize_negative (RG := Random.counter_random)
    [("A", "hi"); ("A", "are you there"); ("A", "hello")] 3
  = Return (None, 3).
Proof.
  apply (synthesize_negative_none (RG := Random.counter_random)).
  left. vm_compute. lia.
Defined.
End NegativeFacts.

(** ** A whole epoch of [train_one_epoch] (LCD notebook) *)

Module EpochFacts.
Import Py Random Tensor Features Loss LCD SynthFacts LossFacts TrainingFacts.
Local Open Scope R_scope.

Section Epoch.
Context {U : Type}.
Context {G : Type} {RG : Random G}.
Variable W : Type.
Variable encoder : list U → W → list vec * W.
Variable scorer_fwd scorer_bwd : vec → W → R * W.
Variable optimizer_step : R → W → W.

Local Abbreviation pair_state := (pair_state (G := G) W).
Local Abbreviation epoch_state := (epoch_state (G := G) W).
Local Abbreviation tracks_last := (tracks_last (G := G) W).
Local Abbreviation train_position :=
  (train_position (G := G) W scorer_fwd scorer_bwd).
Local Abbreviation train_positions :=
  (train_positions (G := G) W scorer_fwd scorer_bwd).
Local Abbreviation train_dialogue :=
  (train_dialogue (U := U) (G := G) W encoder scorer_fwd scorer_bwd
     optimizer_step).
Local Abbreviation train_dialogues :=
  (train_dialogues (U := U) (G := G) W encoder scorer_fwd scorer_bwd
     optimizer_step).
Local Abbreviation train_one_epoch :=
  (train_one_epoch (U := U) (G := G) W encoder scorer_fwd scorer_bwd
     optimizer_step).

Lemma bounded_margin_loss_default_nonneg p n :
  0 <= bounded_margin_loss_default p n.
Proof.
  unfold bounded_margin_loss_default, default_lambda_upper,
    default_lambda_lower.
  apply bounded_margin_loss_nonneg; lra.
Qed.

(** The loss accumulated over the positions of a dialogue never
    decreases. *)
Lemma train_position_loss speakers embeddings i (st st' : pair_state) :
  train_position speakers embeddings i st = Return st' →
  dialogue_loss W st <= dialogue_loss W st'.
Proof.
  unfold LCD.train_position.
  destruct (decide (candidates speakers (length embeddings) i = []))
    as [|Hne]; [intros [= <-]; lra|].
  destruct (choice_nonempty _ (prng W st) Hne) as (j & g' & -> & _).
  cbn [mbind result_bind bind].
  repeat match goal with
         | |- context [scorer_fwd ?f ?w] => destruct (scorer_fwd f w)
         | |- context [scorer_bwd ?f ?w] => destruct (scorer_bwd f w)
         end.
  intros [= <-]. cbn [dialogue_loss].
  match goal with
  | |- _ <= _ + bounded_margin_loss_default ?p ?n =>
      pose proof (bounded_margin_loss_default_nonneg p n)
  end.
  lra.
Qed.

Lemma train_positions_loss speakers embeddings range (st st' : pair_state) :
  train_positions speakers embeddings range st = Return st' →
  dialogue_loss W st <= dialogue_loss W st'.
Proof.
  revert st. induction range as [|i range IH]; intros st.
  - intros [= <-]. lra.
  - cbn [LCD.train_positions].
    destruct (train_position speakers embeddings i st) as [st1| |] eqn:E1;
      cbn [mbind result_bind bind]; try done.
    intros H2. apply train_position_loss in E1. apply IH in H2. lra.
Qed.

(** One dialogue of the epoch: either the counters are untouched, or the
    dialogue has at least three turns and is counted once. *)
Lemma train_dialogue_step (d : list (string * U)) (st : epoch_state) :
  ∃ st' pairs,
    train_dialogue d st = Return (st', pairs)
    ∧ ((total W st' = total W st ∧ correct W st' = correct W st
        ∧ total_loss W st' = total_loss W st)
       ∨ ((3 ≤ length d)%nat ∧ total W st' = S (total W st)
          ∧ (correct W st ≤ correct W st' ≤ S (correct W st))%nat
          ∧ total_loss W st <= total_loss W st')).
Proof.
  unfold LCD.train_dialogue.
  destruct (decide (length d < 3)%nat) as [|Hlen];
    [exists st, []; split; [reflexivity | by left]|].
  destruct (encoder d.*2 (world W st)) as [embeddings w].
  match goal with
  | |- context [LCD.train_positions _ _ _ ?s ?e ?r ?st0] =>
      destruct (train_positions_tracks W scorer_fwd scorer_bwd s e r st0)
        as (ps & Eps & Hc & Hl);
      [split; [reflexivity | intros ? ?; discriminate]|];
      pose proof (train_positions_loss s e r st0 ps Eps) as Hloss;
      rewrite Eps
  end.
  cbn [dialogue_loss] in Hloss. cbn [mbind result_bind bind].
  destruct (decide (0 < pair_count W ps)%nat) as [Hpos|Hzero].
  - destruct (computed W ps) as [|p0 ps0] eqn:Ec using rev_ind;
      [simpl in Hc; lia|].
    clear IHps0. destruct p0 as [sp sn].
    destruct (Hl sp sn) as [-> ->]; [apply last_snoc|].
    eexists _, _. split; [reflexivity|]. right. cbn [correct total total_loss].
    split; [lia|]. split; [done|].
    split; [destruct (Rgt_dec sp sn); lia|].
    assert (0 <= dialogue_loss W ps / INR (pair_count W ps)).
    { apply Rmult_le_pos; [done|].
      apply Rlt_le, Rinv_0_lt_compat, lt_0_INR. lia. }
    lra.
  - eexists _, _. split; [reflexivity|]. by left.
Qed.

Lemma train_dialogues_bounds (ds : list (list (string * U)))
    (st : epoch_state) :
  ∃ st',
    train_dialogues ds st = Return st'
    ∧ (total W st ≤ total W st')%nat
    ∧ (total W st'
       ≤ total W st + length (filter (λ d, 3 ≤ length d)%nat ds))%nat
    ∧ (correct W st ≤ correct W st')%nat
    ∧ (correct W st' + total W st ≤ correct W st + total W st')%nat
    ∧ total_loss W st <= total_loss W st'.
Proof.
  revert st. induction ds as [|d ds IH]; intros st.
  - exists st. cbn. repeat split; try lia; lra.
  - cbn [LCD.train_dialogues].
    destruct (train_dialogue_step d st) as (st1 & pairs & -> & Hstep).
    cbn [mbind result_bind bind].
    destruct (IH st1) as (st' & -> & H1 & H2 & H3 & H4 & H5).
    exists st'. split; [reflexivity|].
    destruct Hstep as [(Ht & Hc & Hl)|(Hlen & Ht & Hc & Hl)].
    + rewrite Ht, Hc, Hl in *.
      destruct (decide (3 ≤ length d)%nat).
      * rewrite filter_cons_True by done. cbn [length].
        repeat split; try lia; lra.
      * rewrite filter_cons_False by done. repeat split; try lia; lra.
    + rewrite filter_cons_True by done. cbn [length].
      repeat split; try lia; lra.
Qed.

(** X10. [train_one_epoch] always completes, on any list of dialogues
    and whatever the networks compute. The accuracy it returns lies
    between 0 and 1 and is [correct / total] (0 when nothing was
    counted), the loss it returns is not negative, and at most one
    prediction is counted per dialogue of at least three turns. (As in
    [candidates], the encoder is taken to yield no more embeddings than
    the dialogue has turns.) *)
Theorem train_one_epoch_summary (dialogues : list (list (string * U)))
    (w : W) (g : G) :
  ∃ loss accuracy st,
    train_one_epoch dialogues w g = Return (loss, accuracy, st)
    ∧ loss = total_loss W st ∧ 0 <= loss
    ∧ 0 <= accuracy <= 1
    ∧ (correct W st ≤ total W st)%nat
    ∧ (total W st ≤ length (filter (λ d, 3 ≤ length d)%nat dialogues))%nat
    ∧ (total W st = 0%nat → accuracy = 0)
    ∧ ((0 < total W st)%nat
       → accuracy = INR (correct W st) / INR (total W st)).
Proof.
  unfold LCD.train_one_epoch.
  match goal with
  | |- context [LCD.train_dialogues _ _ _ _ _ _ ?st0] =>
      destruct (train_dialogues_bounds dialogues st0)
        as (st & -> & H1 & H2 & H3 & H4 & H5)
  end.
  cbn [total correct total_loss] in *. cbn [mbind result_bind bind].
  eexists _, _, st. split; [reflexivity|].
  split; [done|]. split; [done|].
  assert (correct W st ≤ total W st)%nat as Hct by lia.
  destruct (decide (0 < total W st)%nat) as [Hpos|Hzero].
  - assert (0 < INR (total W st)) by (apply lt_0_INR; lia).
    assert (0 <= INR (correct W st)) by apply pos_INR.
    assert (INR (correct W st) <= INR (total W st)) by (by apply le_INR).
    split.
    { split.
      - apply Rmult_le_pos; [done|]. by apply Rlt_le, Rinv_0_lt_compat.
      - apply Rmult_le_reg_r with (INR (total W st)); [done|].
        unfold Rdiv. rewrite Rmult_assoc, Rinv_l by lra. lra. }
    repeat split; try done; lia.
  - split; [lra|]. repeat split; try done; lia.
Qed.

Lemma filter_none {A} (P : A → Prop) `{∀ x, Decision (P x)} (l : list A) :
  Forall (λ x, ¬ P x) l → filter P l = [].
Proof.
  induction 1 as [|x l Hx _ IH]; [done|].
  by rewrite filter_cons_False.
Qed.

(** In a dialogue whose turns all have the same speaker no position has
    a candidate negative. *)
Lemma candidates_single_speaker (speakers : list string) spk i :
  Forall (λ s, s = spk) speakers →
  (i < length speakers)%nat →
  candidates speakers (length speakers) i = [].
Proof.
  intros Hall Hi. unfold candidates.
  apply filter_none, Forall_forall. intros j Hj [_ Hne].
  apply elem_of_seq in Hj as [_ Hj]. simpl in Hj.
  destruct (lookup_lt_is_Some_2 speakers i Hi) as [si Hsi].
  destruct (lookup_lt_is_Some_2 speakers j Hj) as [sj Hsj].
  rewrite Forall_lookup in Hall.
  rewrite (Hall _ _ Hsi) in Hsi. rewrite (Hall _ _ Hsj) in Hsj.
  apply Hne. by rewrite Hsi, Hsj.
Qed.

Lemma train_positions_no_candidates speakers embeddings range
    (st : pair_state) :
  Forall (λ i, candidates speakers (length embeddings) i = []) range →
  train_positions speakers embeddings range st = Return st.
Proof.
  induction 1 as [|i range Hi _ IH]; [done|].
  cbn [LCD.train_positions]. unfold LCD.train_position.
  rewrite decide_True by done. cbn [mbind result_bind bind]. exact IH.
Qed.

(** X11. A dialogue in which every turn has the same speaker takes no
    part in training, however long it is: no pair is scored, nothing is
    drawn from the random generator, the optimizers do not step, and the
    counters and the loss of the epoch are unchanged. (The encoder yields
    one embedding per utterance.) *)
Theorem train_dialogue_single_speaker (d : list (string * U)) spk
    (st : epoch_state) :
  Forall (λ t, t.1 = spk) d →
  length (encoder d.*2 (world W st)).1 = length d →
  ∃ st',
    train_dialogue d st = Return (st', [])
    ∧ total W st' = total W st ∧ correct W st' = correct W st
    ∧ total_loss W st' = total_loss W st ∧ rng W st' = rng W st
    ∧ score_pos W st' = score_pos W st ∧ score_neg W st' = score_neg W st
    ∧ (world W st' = world W st
       ∨ world W st' = (encoder d.*2 (world W st)).2).
Proof.
  intros Hall Hlen. unfold LCD.train_dialogue.
  destruct (decide (length d < 3)%nat);
    [exists st; repeat split; by left|].
  destruct (encoder d.*2 (world W st)) as [embeddings w]. simpl in Hlen.
  rewrite train_positions_no_candidates.
  - cbn [mbind result_bind bind pair_count]. rewrite decide_False by lia.
    eexists. split; [reflexivity|]. cbn. repeat split. by right.
  - apply Forall_forall. intros i Hi. apply elem_of_seq in Hi as [_ Hi].
    rewrite Hlen, <- (length_fmap fst d).
    apply candidates_single_speaker with spk.
    + by apply Forall_fmap.
    + rewrite length_fmap. lia.
Qed.
End Epoch.

(** X26. The negative that [train_one_epoch] and [eval_one_epoch] draw
    for position [i] is an utterance of the dialogue said by a speaker
    other than the speaker of turn [i] (the comment in
    [eval_one_epoch] says "from the same speaker"); it is never the true
    successor [i + 1], and never turn [i] itself. *)
Theorem negative_sample_other_speaker {G : Type} {RG : Random G}
    (speakers : list string) (n i neg_idx : nat) (g g' : G) :
  choice (candidates speakers n i) g = Return (neg_idx, g') →
  (neg_idx < n)%nat
  ∧ neg_idx ≠ (i + 1)%nat
  ∧ speakers !! neg_idx ≠ speakers !! i
  ∧ neg_idx ≠ i.
Proof.
  unfold choice. destruct (randbelow _ g) as [k g1].
  destruct (candidates speakers n i !! k) as [j|] eqn:Ek; [|discriminate].
  intros [= -> ->]. apply list_elem_of_lookup_2 in Ek.
  unfold candidates in Ek. apply list_elem_of_filter in Ek as [[H1 H2] H3].
  apply elem_of_seq in H3. split; [lia|]. split; [done|]. split; [done|].
  intros ->. by apply H2.
Qed.

Lemma negative_sample_other_speaker_witness :
  (0 < 3)%nat ∧ 0%nat ≠ (1 + 1)%nat
  ∧ ["A"; "B"; "A"] !! 0%nat ≠ ["A"; "B"; "A"] !! 1%nat ∧ 0%nat ≠ 1%nat.
Proof.
  apply (negative_sample_other_speaker (RG := Random.counter_random)
           ["A"; "B"; "A"] 3 1 0 0%nat 1%nat).
  reflexivity.
Defined.

Lemma train_dialogue_single_speaker_witness :
  ∃ st',
    LCD.train_dialogue (G := nat) unit
      (λ us w, (map (λ _ : string, [0; 0]) us, w))
      (λ _ w, (0, w)) (λ _ w, (0, w)) (λ _ w, w)
      [("A", "a"); ("A", "b"); ("A", "c")]
      {| total_loss := 0; correct := 0%nat; total := 0%nat;
         score_pos := None; score_neg := None; world := tt; rng := 0%nat |}
    = Return (st', []).
Proof.
  destruct (train_dialogue_single_speaker (G := nat) unit
              (λ us w, (map (λ _ : string, [0; 0]) us, w))
              (λ _ w, (0, w)) (λ _ w, (0, w)) (λ _ w, w)
              [("A", "a"); ("A", "b"); ("A", "c")] "A"
              {| total_loss := 0; correct := 0%nat; total := 0%nat;
                 score_pos := None; score_neg := None; world := tt;
                 rng := 0%nat |})
    as (st' & H & _).
  - repeat constructor.
  - reflexivity.
  - by exists st'.
Defined.
End EpochFacts.

(** ** Validation and checkpoints of the pairwise scorer (LCD notebook) *)

Module ValidationFacts.
Import Py Random Tensor Features Loss SynthFacts LossFacts EpochFacts.
Import Validation.
Local Open Scope R_scope.

Lemma ratio_range (c t : nat) :
  (c ≤ t)%nat → (0 < t)%nat → 0 <= INR c / INR t <= 1.
Proof.
  intros Hct Ht.
  assert (0 < INR t) by (apply lt_0_INR; lia).
  assert (0 <= INR c) by apply pos_INR.
  assert (INR c <= INR t) by (by apply le_INR).
  split.
  - apply Rmult_le_pos; [done|]. by apply Rlt_le, Rinv_0_lt_compat.
  - apply Rmult_le_reg_r with (INR t); [done|].
    unfold Rdiv. rewrite Rmult_assoc, Rinv_l by lra. lra.
Qed.

Section EvalFacts.
Context {U : Type}.
Context {G : Type} {RG : Random G}.
Variable encoder : list U → list vec.
Variable scorer_fwd scorer_bwd : vec → R.

Local Abbreviation eval_state := (eval_state (G := G)).
Local Abbreviation eval_position :=
  (eval_position (G := G) scorer_fwd scorer_bwd).
Local Abbreviation eval_positions :=
  (eval_positions (G := G) scorer_fwd scorer_bwd).
Local Abbreviation eval_dialogue :=
  (eval_dialogue (U := U) (G := G) encoder scorer_fwd scorer_bwd).
Local Abbreviation eval_dialogues :=
  (eval_dialogues (U := U) (G := G) encoder scorer_fwd scorer_bwd).
Local Abbreviation eval_one_epoch :=
  (eval_one_epoch (U := U) (G := G) encoder scorer_fwd scorer_bwd).
Local Abbreviation scored_positions := (scored_positions (U := U) encoder).
Local Abbreviation advances := (advances (G := G)).

Lemma advances_refl st : advances 0 st st.
Proof. unfold Validation.advances. repeat split; try lia; lra. Qed.

Lemma advances_trans n m st1 st2 st3 :
  advances n st1 st2 → advances m st2 st3 → advances (n + m) st1 st3.
Proof.
  unfold Validation.advances. intros (? & ? & ? & ?) (? & ? & ? & ?).
  repeat split; try lia; lra.
Qed.

Lemma eval_position_advances speakers embeddings i (st : eval_state) :
  ∃ st',
    eval_position speakers embeddings i st = Return st'
    ∧ advances
        (if decide (LCD.candidates speakers (length embeddings) i = [])
         then 0 else 1)%nat st st'.
Proof.
  unfold Validation.eval_position.
  destruct (decide (LCD.candidates speakers (length embeddings) i = []))
    as [|Hne]; [exists st; split; [done | apply advances_refl]|].
  destruct (choice_nonempty _ (rng st) Hne) as (j & g' & -> & _).
  cbn [mbind result_bind bind]. eexists. split; [reflexivity|].
  unfold Validation.advances. cbn [total correct total_loss].
  match goal with
  | |- context [bounded_margin_loss_default ?p ?n] =>
      pose proof (bounded_margin_loss_default_nonneg p n);
      destruct (Rgt_dec p n)
  end; repeat split; try lia; lra.
Qed.

Lemma eval_positions_advances speakers embeddings range (st : eval_state) :
  ∃ st',
    eval_positions speakers embeddings range st = Return st'
    ∧ advances
        (length (filter (λ i, LCD.candidates speakers (length embeddings) i
                              ≠ []) range)) st st'.
Proof.
  revert st. induction range as [|i range IH]; intros st.
  - exists st. split; [done | apply advances_refl].
  - cbn [Validation.eval_positions].
    destruct (eval_position_advances speakers embeddings i st)
      as (st1 & -> & H1).
    cbn [mbind result_bind bind].
    destruct (IH st1) as (st2 & -> & H2). exists st2. split; [done|].
    destruct (decide (LCD.candidates speakers (length embeddings) i = []))
      as [He|Hne].
    + rewrite filter_cons_False by (intros Hn; by apply Hn).
      exact (advances_trans 0 _ _ _ _ H1 H2).
    + rewrite filter_cons_True by done.
      exact (advances_trans 1 _ _ _ _ H1 H2).
Qed.

Lemma eval_dialogue_advances (d : list (string * U)) (st : eval_state) :
  ∃ st',
    eval_dialogue d st = Return st'
    ∧ advances (length (scored_positions d)) st st'.
Proof.
  unfold Validation.eval_dialogue, Validation.scored_positions.
  destruct (decide (length d < 3)%nat);
    [exists st; split; [done | apply advances_refl]|].
  apply eval_positions_advances.
Qed.

Lemma eval_dialogues_advances (ds : list (list (string * U)))
    (st : eval_state) :
  ∃ st',
    eval_dialogues ds st = Return st'
    ∧ advances (length (concat (scored_positions <$> ds))) st st'.
Proof.
  revert st. induction ds as [|d ds IH]; intros st.
  - exists st. split; [done | apply advances_refl].
  - cbn [Validation.eval_dialogues].
    destruct (eval_dialogue_advances d st) as (st1 & -> & H1).
    cbn [mbind result_bind bind].
    destruct (IH st1) as (st2 & -> & H2). exists st2. split; [done|].
    cbn [fmap list_fmap concat]. rewrite length_app.
    exact (advances_trans _ _ _ _ _ H1 H2).
Qed.

(** X12. [eval_one_epoch] always completes. Unlike the training loop it
    counts every pair it scores: [total] is the number of positions with
    a candidate negative, over all the dialogues of at least three
    turns. The accuracy returned is [correct / total], between 0 and 1,
    and 0 when no pair was scored; the loss returned is not negative.
    (As in [candidates], the encoder is taken to yield no more
    embeddings than the dialogue has turns.) *)
Theorem eval_one_epoch_summary (dialogues : list (list (string * U)))
    (g : G) :
  ∃ loss accuracy st,
    eval_one_epoch dialogues g = Return (loss, accuracy, st)
    ∧ loss = total_loss st ∧ 0 <= loss
    ∧ total st = length (concat (scored_positions <$> dialogues))
    ∧ (correct st ≤ total st)%nat
    ∧ 0 <= accuracy <= 1
    ∧ (total st = 0%nat → accuracy = 0)
    ∧ ((0 < total st)%nat → accuracy = INR (correct st) / INR (total st)).
Proof.
  unfold Validation.eval_one_epoch.
  match goal with
  | |- context [Validation.eval_dialogues _ _ _ _ ?st0] =>
      destruct (eval_dialogues_advances dialogues st0)
        as (st & -> & Ht & Hc1 & Hc2 & Hl)
  end.
  cbn [total correct total_loss] in *. cbn [mbind result_bind bind].
  eexists _, _, st. split; [reflexivity|].
  split; [done|]. split; [done|]. split; [lia|]. split; [lia|].
  destruct (decide (0 < total st)%nat) as [Hpos|Hzero].
  - split; [apply ratio_range; lia|]. split; [lia | done].
  - split; [lra|]. split; [done | lia].
Qed.

(** What the training cell uses of an evaluation. *)
Lemma eval_one_epoch_accuracy (dialogues : list (list (string * U)))
    (g : G) :
  ∃ loss accuracy st,
    eval_one_epoch dialogues g = Return (loss, accuracy, st)
    ∧ 0 <= accuracy <= 1
    ∧ (Forall (λ d, scored_positions d = []) dialogues → accuracy = 0).
Proof.
  unfold Validation.eval_one_epoch.
  match goal with
  | |- context [Validation.eval_dialogues _ _ _ _ ?st0] =>
      destruct (eval_dialogues_advances dialogues st0)
        as (st & -> & Ht & Hc1 & Hc2 & Hl)
  end.
  cbn [total correct total_loss] in *. cbn [mbind result_bind bind].
  eexists _, _, st. split; [reflexivity|].
  destruct (decide (0 < total st)%nat) as [Hpos|Hzero].
  - split; [apply ratio_range; lia|]. intros Hall. exfalso.
    assert (concat (scored_positions <$> dialogues) = []) as Hnil.
    { clear -Hall. induction Hall as [|d ds Hd _ IH]; [done|].
      cbn [fmap list_fmap concat]. by rewrite Hd, IH. }
    rewrite Hnil in Ht. simpl in Ht. lia.
  - split; [lra | done].
Qed.
End EvalFacts.

Section CellFacts.
Context {U : Type}.
Context {G : Type} {RG : Random G}.
Variable W : Type.
Variable encoder : list U → W → list vec * W.
Variable scorer_fwd scorer_bwd : vec → W → R * W.
Variable optimizer_step : R → W → W.
Variable encoder_eval : W → list U → list vec.
Variable scorer_fwd_eval scorer_bwd_eval : W → vec → R.

Local Abbreviation cell_state := (cell_state (G := G) W).
Local Abbreviation keeps_best := (keeps_best (G := G) W).
Local Abbreviation val_accs := (val_accs (G := G) W).
Local Abbreviation run_epoch :=
  (run_epoch (U := U) (G := G) W encoder scorer_fwd scorer_bwd
     optimizer_step encoder_eval scorer_fwd_eval scorer_bwd_eval).
Local Abbreviation run_epochs :=
  (run_epochs (U := U) (G := G) W encoder scorer_fwd scorer_bwd
     optimizer_step encoder_eval scorer_fwd_eval scorer_bwd_eval).
Local Abbreviation training_cell :=
  (training_cell (U := U) (G := G) W encoder scorer_fwd scorer_bwd
     optimizer_step encoder_eval scorer_fwd_eval scorer_bwd_eval).

Lemma train_one_epoch_returns (ds : list (list (string * U))) (w : W)
    (g : G) :
  ∃ loss accuracy st,
    LCD.train_one_epoch W encoder scorer_fwd scorer_bwd optimizer_step
      ds w g = Return (loss, accuracy, st).
Proof.
  unfold LCD.train_one_epoch.
  match goal with
  | |- context [LCD.train_dialogues _ _ _ _ _ _ ?st0] =>
      destruct (train_dialogues_bounds W encoder scorer_fwd scorer_bwd
                  optimizer_step ds st0) as (st & -> & _)
  end.
  cbn [mbind result_bind bind]. by eauto.
Qed.

(** One epoch of the cell: it completes, prints one line, and keeps
    [keeps_best]; [val_acc] is the accuracy it printed. *)
Lemma run_epoch_keeps_best (train_data val_data : list (list (string * U)))
    (st : cell_state) :
  keeps_best st →
  ∃ st' line,
    run_epoch train_data val_data (length (printed W st)) st = Return st'
    ∧ printed W st' = printed W st ++ [line]
    ∧ keeps_best st'
    ∧ ((∀ w, Forall (λ d, Validation.scored_positions (encoder_eval w) d = [])
               val_data) →
       saved W st = [] → saved W st' = []).
Proof.
  intros (Hb0 & Hrange & Hbound & Hnone & Hlast).
  unfold Validation.run_epoch.
  destruct (train_one_epoch_returns train_data (weights W st)
              (generator W st)) as (tl & ta & trained & ->).
  cbn [mbind result_bind bind].
  destruct (eval_one_epoch_accuracy (encoder_eval (LCD.world W trained))
              (scorer_fwd_eval (LCD.world W trained))
              (scorer_bwd_eval (LCD.world W trained)) val_data
              (LCD.rng W trained))
    as (vl & va & evaluated & -> & Hva & Hzero).
  cbn [mbind result_bind bind].
  assert (length (val_accs st) = length (printed W st)) as Hlen
    by (unfold Validation.val_accs; by rewrite length_fmap).
  destruct (Rgt_dec va (best_val_acc W st)) as [Hgt|Hle].
  - eexists _, _. split; [reflexivity|]. split; [reflexivity|].
    split.
    + unfold Validation.keeps_best, Validation.val_accs.
      cbn [best_val_acc saved printed].
      rewrite fmap_app. cbn [fmap list_fmap snd].
      fold (val_accs st).
      split; [lra|].
      split; [apply Forall_app; split; [done | by apply Forall_singleton]|].
      split.
      { apply Forall_app. split; [|apply Forall_singleton; lra].
        eapply Forall_impl; [exact Hbound|]. intros a Ha. simpl in Ha. lra. }
      split; [intros Hs; by destruct (saved W st)|].
      intros epoch w. rewrite last_snoc. intros [= <- <-].
      split; [lra|]. rewrite length_app. cbn [length].
      split; [lia|].
      replace (length (printed W st) + 1 - 1)%nat
        with (length (val_accs st)) by lia.
      split.
      { rewrite lookup_app_r by lia. by rewrite Nat.sub_diag. }
      intros j a Hj Ha. rewrite lookup_app_l in Ha by lia.
      rewrite Forall_lookup in Hbound. specialize (Hbound _ _ Ha).
      simpl in Hbound. lra.
    + intros Hall Hs. exfalso.
      rewrite (Hzero (Hall _)) in Hgt. rewrite (Hnone Hs) in Hgt. lra.
  - eexists _, _. split; [reflexivity|]. split; [reflexivity|].
    split; [|done].
    unfold Validation.keeps_best, Validation.val_accs.
    cbn [best_val_acc saved printed].
    rewrite fmap_app. cbn [fmap list_fmap snd]. fold (val_accs st).
    split; [done|].
    split; [apply Forall_app; split; [done | by apply Forall_singleton]|].
    split; [apply Forall_app; split; [done | apply Forall_singleton; lra]|].
    split; [done|].
    intros epoch w Hl. destruct (Hlast epoch w Hl) as (H1 & H2 & H3 & H4).
    split; [done|]. rewrite length_app. cbn [length]. split; [lia|].
    split.
    { rewrite lookup_app_l by lia. exact H3. }
    intros j a Hj Ha. rewrite lookup_app_l in Ha by lia. by eapply H4.
Qed.

Lemma run_epochs_keeps_best (train_data val_data : list (list (string * U)))
    (n : nat) (st : cell_state) :
  keeps_best st →
  ∃ st',
    run_epochs train_data val_data (seq (length (printed W st)) n) st
    = Return st'
    ∧ length (printed W st') = (length (printed W st) + n)%nat
    ∧ keeps_best st'
    ∧ ((∀ w, Forall (λ d, Validation.scored_positions (encoder_eval w) d = [])
               val_data) →
       saved W st = [] → saved W st' = []).
Proof.
  revert st. induction n as [|n IH]; intros st Hst.
  - exists st. cbn. split; [done|]. split; [lia | done].
  - cbn [seq Validation.run_epochs].
    destruct (run_epoch_keeps_best train_data val_data st Hst)
      as (st1 & line & -> & Hp & Hst1 & Hs1).
    cbn [mbind result_bind bind].
    assert (S (length (printed W st)) = length (printed W st1)) as ->
      by (rewrite Hp, length_app; simpl; lia).
    destruct (IH st1 Hst1) as (st2 & -> & Hl2 & Hst2 & Hs2).
    exists st2. split; [done|].
    split; [rewrite Hl2, Hp, length_app; simpl; lia|].
    split; [done|]. intros Hall Hs. by apply Hs2, Hs1.
Qed.

(** X13. The training cell always completes and prints one line per
    epoch, with a validation accuracy between 0 and 1. A checkpoint is
    written only when the validation accuracy is strictly above
    [best_val_acc], which starts at 0: at the end [best_val_acc] bounds
    every validation accuracy; if nothing was saved, every validation
    accuracy was 0; otherwise the file holds the save of the first epoch
    that reached the highest validation accuracy (a later epoch that
    only equals it does not overwrite the file). *)
Theorem training_cell_checkpoint (num_epochs : nat)
    (train_data val_data : list (list (string * U))) (w : W) (g : G) :
  ∃ st,
    training_cell num_epochs train_data val_data w g = Return st
    ∧ length (printed W st) = num_epochs
    ∧ Forall (λ a, 0 <= a <= 1) (val_accs st)
    ∧ Forall (λ a, a <= best_val_acc W st) (val_accs st)
    ∧ (saved W st = [] → Forall (λ a, a = 0) (val_accs st))
    ∧ (∀ epoch w', last (saved W st) = Some (epoch, w') →
         (1 ≤ epoch ≤ num_epochs)%nat
         ∧ 0 < best_val_acc W st
         ∧ val_accs st !! (epoch - 1)%nat = Some (best_val_acc W st)
         ∧ ∀ j a, (j < epoch - 1)%nat → val_accs st !! j = Some a →
                  a < best_val_acc W st).
Proof.
  unfold Validation.training_cell.
  match goal with
  | |- context [Validation.run_epochs _ _ _ _ _ _ _ _ _ _ _ ?st0] =>
      destruct (run_epochs_keeps_best train_data val_data num_epochs st0)
        as (st & Hrun & Hlen & (Hb0 & Hrange & Hbound & Hnone & Hlast) & _)
  end.
  { unfold Validation.keeps_best, Validation.val_accs. cbn.
    split; [lra|]. repeat split; try done. }
  cbn [printed length] in Hrun, Hlen. exists st.
  split; [exact Hrun|]. split; [lia|]. split; [done|]. split; [done|].
  split.
  - intros Hs. rewrite (Hnone Hs) in Hbound.
    rewrite Forall_forall in Hrange, Hbound. apply Forall_forall.
    intros a Ha. specialize (Hrange a Ha). specialize (Hbound a Ha).
    simpl in *. lra.
  - intros epoch w' Hl. destruct (Hlast epoch w' Hl) as (H1 & H2 & H3 & H4).
    split; [lia|]. by repeat split.
Qed.

(** X14. When no pair of the validation dialogues can be scored (for
    instance when they all have fewer than three turns),
    [eval_one_epoch] returns accuracy 0 at every epoch, which is never
    above the initial [best_val_acc]: the cell completes without ever
    writing a checkpoint. *)
Theorem training_cell_saves_nothing (num_epochs : nat)
    (train_data val_data : list (list (string * U))) (w : W) (g : G) :
  (∀ w, Forall (λ d, Validation.scored_positions (encoder_eval w) d = [])
          val_data) →
  ∃ st,
    training_cell num_epochs train_data val_data w g = Return st
    ∧ saved W st = [] ∧ best_val_acc W st = 0
    ∧ length (printed W st) = num_epochs.
Proof.
  intros Hall. unfold Validation.training_cell.
  match goal with
  | |- context [Validation.run_epochs _ _ _ _ _ _ _ _ _ _ _ ?st0] =>
      destruct (run_epochs_keeps_best train_data val_data num_epochs st0)
        as (st & Hrun & Hlen & (Hb0 & Hrange & Hbound & Hnone & Hlast) & Hs)
  end.
  { unfold Validation.keeps_best, Validation.val_accs. cbn.
    split; [lra|]. repeat split; try done. }
  cbn [printed length saved] in Hrun, Hlen, Hs. exists st.
  split; [exact Hrun|]. specialize (Hs Hall eq_refl).
  split; [done|]. split; [by apply Hnone | lia].
Qed.
End CellFacts.

Lemma training_cell_saves_nothing_witness :
  ∃ st,
    Validation.training_cell (G := nat) unit
      (λ us w, (map (λ _ : string, [0; 0]) us, w))
      (λ _ w, (0, w)) (λ _ w, (0, w)) (λ _ w, w)
      (λ w us, map (λ _ : string, [0; 0]) us) (λ _ _, 0) (λ _ _, 0)
      8 [Scenarios.greeting] [[("A", "hi"); ("B", "hello")]] tt 0%nat
    = Return st
    ∧ Validation.saved unit st = [].
Proof.
  destruct (training_cell_saves_nothing (G := nat) unit
              (λ us w, (map (λ _ : string, [0; 0]) us, w))
              (λ _ w, (0, w)) (λ _ w, (0, w)) (λ _ w, w)
              (λ w us, map (λ _ : string, [0; 0]) us) (λ _ _, 0) (λ _ _, 0)
              8 [Scenarios.greeting] [[("A", "hi"); ("B", "hello")]] tt
              0%nat)
    as (st & H & Hs & _).
  - intros w. repeat constructor.
  - by exists st.
Defined.
End ValidationFacts.

(** ** Batches of the document classifier (HT notebook) *)

Module BatchingFacts.
Import Py Tensor Corpus HT Batching.
Local Open Scope R_scope.

Lemma length_le_max_list {A} (ls : list (list A)) (l : list A) :
  l ∈ ls → (length l ≤ max_list (length <$> ls))%nat.
Proof.
  intros Hin. apply max_list_elem_of_le.
  apply list_elem_of_fmap. by exists l.
Qed.

(** On a non-empty batch [collate_fn] returns, and this is what. *)
Lemma collate_fn_nonempty (batch : list (list json * nat)) :
  batch ≠ [] →
  let maxlen := max_list (length <$> batch.*1) in
  collate_fn batch
  = Return
      ((λ utts, utts ++ replicate (maxlen - length utts) (JString ""))
         <$> batch.*1,
       (λ utts : list json,
          replicate (length utts) 1 ++ replicate (maxlen - length utts) 0)
         <$> batch.*1,
       (λ l, [INR l]) <$> batch.*2).
Proof. by destruct batch. Qed.

Lemma collate_fn_returns (batch : list (list json * nat)) c :
  collate_fn batch = Return c → batch ≠ [].
Proof. by destruct batch. Qed.

(** X15. [collate_fn] on a non-empty batch: every padded utterance list
    and every mask row has the length of the longest item, which some
    item attains; an item's utterances are a prefix of its padded list
    and the rest is empty strings; its mask row is 1 exactly on the
    positions of its own utterances; the labels come back in order, one
    row each. *)
Theorem collate_fn_spec (batch : list (list json * nat)) :
  batch ≠ [] →
  let maxlen := max_list (length <$> batch.*1) in
  ∃ padded_utts mask labels,
    collate_fn batch = Return (padded_utts, mask, labels)
    ∧ length padded_utts = length batch ∧ length mask = length batch
    ∧ labels = (λ l, [INR l]) <$> batch.*2
    ∧ (∃ utts, utts ∈ batch.*1 ∧ length utts = maxlen)
    ∧ ∀ k utts l, batch !! k = Some (utts, l) →
        ∃ row mrow,
          padded_utts !! k = Some row ∧ mask !! k = Some mrow
          ∧ length row = maxlen ∧ length mrow = maxlen
          ∧ take (length utts) row = utts
          ∧ drop (length utts) row
            = replicate (maxlen - length utts) (JString "")
          ∧ ∀ j, ((j < length utts)%nat → mrow !! j = Some 1)
                 ∧ ((length utts ≤ j < maxlen)%nat → mrow !! j = Some 0).
Proof.
  intros Hne maxlen. eexists _, _, _.
  split; [exact (collate_fn_nonempty batch Hne)|].
  fold maxlen. rewrite !length_fmap.
  split; [done|]. split; [done|]. split; [done|]. split.
  - assert (length <$> batch.*1 ≠ []) as Hne' by (by destruct batch).
    pose proof (max_list_elem_of _ Hne') as Hin.
    apply list_elem_of_fmap in Hin as (utts & Hlen & Hin).
    exists utts. by split.
  - intros k utts l Hk.
    assert (batch.*1 !! k = Some utts) as Hk1
      by (by rewrite list_lookup_fmap, Hk).
    assert (length utts ≤ maxlen)%nat as Hle.
    { apply length_le_max_list. by eapply list_elem_of_lookup_2. }
    exists (utts ++ replicate (maxlen - length utts) (JString "")),
      (replicate (length utts) 1 ++ replicate (maxlen - length utts) 0).
    split; [by rewrite list_lookup_fmap, Hk1|].
    split; [by rewrite list_lookup_fmap, Hk1|].
    rewrite !length_app, !length_replicate.
    split; [lia|]. split; [lia|].
    split; [by rewrite take_app_length|].
    split; [by rewrite drop_app_length|].
    intros j. split; intros Hj.
    + rewrite lookup_app_l by (rewrite length_replicate; lia).
      by apply lookup_replicate_2.
    + rewrite lookup_app_r by (rewrite length_replicate; lia).
      rewrite length_replicate. apply lookup_replicate_2. lia.
Qed.

Lemma collate_fn_spec_witness :
  ∃ padded_utts mask labels,
    collate_fn [([JString "a"; JString "b"], 1%nat); ([JString "c"], 0%nat)]
    = Return (padded_utts, mask, labels)
    ∧ padded_utts !! 1%nat = Some [JString "c"; JString ""].
Proof.
  destruct (collate_fn_spec
              [([JString "a"; JString "b"], 1%nat); ([JString "c"], 0%nat)])
    as (padded & mask & labels & Hc & _ & _ & _ & _ & Hrow);
    [discriminate|].
  exists padded, mask, labels. split; [exact Hc|].
  destruct (Hrow 1%nat [JString "c"] 0%nat eq_refl)
    as (row & mrow & Hr & _ & Hlen & _ & Htake & Hdrop & _).
  rewrite Hr. f_equal.
  rewrite <- (take_drop 1 row). cbn [length] in Htake, Hdrop.
  rewrite Htake, Hdrop. reflexivity.
Defined.

(** [torch.split] succeeds exactly when the sizes add up, and then cuts
    the rows into consecutive chunks of those sizes. *)
Lemma split_exact (sizes : list nat) (rows : list vec) :
  length rows = sum_list sizes →
  ∃ chunks, split rows sizes = Some chunks
            ∧ concat chunks = rows ∧ length <$> chunks = sizes.
Proof.
  revert rows. induction sizes as [|n sizes IH]; intros rows Hlen.
  - destruct rows; [|done]. by exists [].
  - change (sum_list (n :: sizes)) with (n + sum_list sizes)%nat in Hlen.
    cbn [split].
    rewrite decide_True by lia.
    destruct (IH (drop n rows)) as (chunks & -> & Hc & Hl).
    { rewrite length_drop. lia. }
    cbn [mbind option_bind]. eexists. split; [reflexivity|].
    cbn [concat fmap list_fmap]. rewrite Hc, Hl, take_drop.
    split; [done|]. f_equal. rewrite length_take. lia.
Qed.

Lemma max_list_constant (m : nat) (ns : list nat) :
  ns ≠ [] → Forall (λ n, n = m) ns → max_list ns = m.
Proof.
  intros Hne Hall. pose proof (max_list_elem_of ns Hne) as Hin.
  rewrite Forall_forall in Hall. by apply Hall.
Qed.

Lemma collate_fn_shape (batch : list (list json * nat))
    padded_utts mask labels :
  collate_fn batch = Return (padded_utts, mask, labels) →
  padded_utts ≠ [] ∧ length padded_utts = length batch
  ∧ Forall (λ utts, length utts = max_list (length <$> batch.*1)) padded_utts
  ∧ labels = (λ l, [INR l]) <$> batch.*2.
Proof.
  intros Hc. pose proof (collate_fn_returns _ _ Hc) as Hne.
  rewrite (collate_fn_nonempty batch Hne) in Hc. injection Hc as <- _ <-.
  split; [by destruct batch|]. split; [by rewrite !length_fmap|].
  split; [|done].
  apply Forall_fmap, Forall_forall. intros utts Hin. simpl.
  rewrite length_app, length_replicate.
  pose proof (length_le_max_list _ _ Hin). lia.
Qed.

(** The logistic function is at most 1/2 on logits that are not
    positive. *)
Lemma logistic_le_half (x : R) : x <= 0 → 1 / (1 + exp (- x)) <= 1 / 2.
Proof.
  intros Hx. pose proof (exp_pos (- x)) as He.
  assert (1 / (1 + exp (- x)) * (1 + exp (- x)) = 1) as Hinv
    by (field; lra).
  assert (1 <= exp (- x)) as H1.
  { rewrite <- exp_0. destruct (Req_dec x 0) as [->|Hne].
    - rewrite Ropp_0. lra.
    - left. apply exp_increasing. lra. }
  nra.
Qed.

(** X18. The class predicted from a logit,
    [(torch.sigmoid(logit) > 0.5).long()], for any [sigmoid] that is at
    most 0.5 on logits that are not positive (the logistic function is,
    and so is its rounding to floats, 0.5 being a float): a logit of 0
    or below gives class 0, so class 1 is predicted for strictly
    positive logits only. The converse is not stated: in floating point
    the sigmoid of a small positive logit is exactly 0.5, and the class
    is 0. *)
Theorem predict_threshold (sigmoid : R → R) (logit : R) :
  (∀ x, x <= 0 → sigmoid x <= 1 / 2) →
  (logit <= 0 → predict sigmoid logit = 0%Z)
  ∧ (predict sigmoid logit = 1%Z → 0 < logit)
  ∧ (predict sigmoid logit = 0%Z ∨ predict sigmoid logit = 1%Z).
Proof.
  intros Hs. unfold predict.
  destruct (Rgt_dec (sigmoid logit) (1 / 2)) as [Hgt|Hle].
  - assert (0 < logit) as Hpos.
    { apply Rnot_le_lt. intros Hl. specialize (Hs logit Hl). lra. }
    split; [intros Hl; lra|]. split; [done | by right].
  - split; [done|]. split; [discriminate | by left].
Qed.

Lemma predict_threshold_witness :
  predict (λ x, 1 / (1 + exp (- x))) (-1) = 0%Z.
Proof.
  apply (predict_threshold (λ x, 1 / (1 + exp (- x))) (-1)).
  - exact logistic_le_half.
  - lra.
Defined.

Lemma predict_binary (sigmoid : R → R) (logit : R) :
  predict sigmoid logit = 0%Z ∨ predict sigmoid logit = 1%Z.
Proof. unfold predict. destruct (Rgt_dec _ _); by eauto. Qed.

Lemma long_INR (n : nat) : long (INR n) = Z.of_nat n.
Proof.
  unfold long. destruct (Rle_dec 0 (INR n)) as [|Hn];
    [apply Int_part_INR|].
  exfalso. apply Hn, pos_INR.
Qed.

Lemma long_labels (labels : list nat) :
  long <$> concat ((λ l, [INR l]) <$> labels) = Z.of_nat <$> labels.
Proof.
  induction labels as [|l labels IH]; [done|].
  cbn [fmap list_fmap concat app]. by rewrite long_INR, <- IH.
Qed.

Lemma length_concat_rows {A} (rows : list (list A)) :
  Forall (λ row, length row = 1%nat) rows →
  length (concat rows) = length rows.
Proof.
  induction 1 as [|row rows Hr _ IH]; [done|].
  cbn [concat]. rewrite length_app, Hr, IH. done.
Qed.

Lemma count_equal_app (a b c d : list Z) :
  length a = length c →
  count_equal (a ++ b) (c ++ d)
  = (count_equal a c + count_equal b d)%nat.
Proof.
  intros Hlen. unfold count_equal.
  by rewrite zip_with_app, filter_app, length_app.
Qed.

Lemma count_equal_le (a c : list Z) :
  (count_equal a c ≤ length a)%nat.
Proof.
  unfold count_equal.
  etrans; [apply length_filter|]. rewrite length_zip_with. lia.
Qed.

Section Epochs.
Variable hidden_size : nat.
Variable sent_encoder : list json → list vec.
Variable doc_encoder : list (list vec) → list (list R) → list (list R).
Variable criterion : list (list R) → list (list R) → R.
Variable sigmoid : R → R.

Local Abbreviation embed_batch := (embed_batch hidden_size sent_encoder).
Local Abbreviation val_batch :=
  (val_batch hidden_size sent_encoder doc_encoder criterion sigmoid).
Local Abbreviation val_batches :=
  (val_batches hidden_size sent_encoder doc_encoder criterion sigmoid).
Local Abbreviation val_one_epoch :=
  (val_one_epoch hidden_size sent_encoder doc_encoder criterion sigmoid).

(** On utterance lists of one length, as [collate_fn] makes them, the
    embeddings are cut into the documents and nothing is appended. *)
Lemma embed_batch_rectangular (utter_lists : list (list json)) (m : nat) :
  (∀ sentences, length (sent_encoder sentences) = length sentences) →
  utter_lists ≠ [] →
  Forall (λ utts, length utts = m) utter_lists →
  ∃ chunks,
    embed_batch utter_lists = inr chunks
    ∧ concat chunks = sent_encoder (concat utter_lists)
    ∧ length <$> chunks = length <$> utter_lists.
Proof.
  intros Henc Hne Hrect. unfold Batching.embed_batch.
  destruct (split_exact (length <$> utter_lists)
              (sent_encoder (concat utter_lists)))
    as (chunks & -> & Hc & Hl).
  { rewrite Henc. apply length_concat. }
  destruct (length <$> utter_lists) as [|n ns] eqn:Es;
    [by destruct utter_lists|].
  rewrite <- Es in *.
  assert (max_list (length <$> utter_lists) = m) as ->.
  { apply max_list_constant; [by destruct utter_lists|].
    by apply Forall_fmap. }
  assert (Forall (λ e : list vec, length e = m) chunks) as Hm.
  { assert (Forall (λ n, n = m) (length <$> utter_lists)) as Hrect'
      by (by apply Forall_fmap).
    rewrite <- Hl in Hrect'. by apply Forall_fmap in Hrect'. }
  eexists. split; [reflexivity|].
  assert ((λ e : list vec, e ++ replicate (m - length e) (zeros hidden_size))
            <$> chunks = chunks) as ->.
  { clear -Hm. induction Hm as [|e chunks He _ IH]; [done|].
    cbn [fmap list_fmap]. rewrite IH, He, Nat.sub_diag. cbn [replicate].
    by rewrite app_nil_r. }
  done.
Qed.

(** X16. On a batch made by [collate_fn], the embedding step of the
    epoch functions succeeds and its zero padding never adds a row: the
    lists are already padded, so the padding positions reach the
    document encoder as the sentence encoder's embeddings of the empty
    string. (The sentence encoder yields one row per sentence.) *)
Theorem embed_batch_collated (batch : list (list json * nat))
    padded_utts mask labels :
  (∀ sentences, length (sent_encoder sentences) = length sentences) →
  collate_fn batch = Return (padded_utts, mask, labels) →
  let maxlen := max_list (length <$> batch.*1) in
  ∃ utter_emb_batch,
    embed_batch padded_utts = inr utter_emb_batch
    ∧ concat utter_emb_batch = sent_encoder (concat padded_utts)
    ∧ length utter_emb_batch = length batch
    ∧ Forall (λ e, length e = maxlen) utter_emb_batch.
Proof.
  intros Henc Hc maxlen.
  pose proof (collate_fn_returns _ _ Hc) as Hne.
  rewrite (collate_fn_nonempty batch Hne) in Hc. fold maxlen in Hc.
  injection Hc as <- _ _.
  match goal with
  | |- context [Batching.embed_batch _ _ ?p] =>
      assert (Forall (λ utts : list json, length utts = maxlen) p) as Hrect;
      [|destruct (embed_batch_rectangular p maxlen Henc) as
          (chunks & He & Hcat & Hlen); [by destruct batch | done |]]
  end.
  { apply Forall_fmap, Forall_forall. intros utts Hin. simpl.
    rewrite length_app, length_replicate.
    pose proof (length_le_max_list _ _ Hin). unfold maxlen. lia. }
  exists chunks. split; [done|]. split; [done|].
  split.
  - apply (f_equal length) in Hlen. by rewrite !length_fmap in Hlen.
  - assert (Forall (λ n, n = maxlen) (length <$> chunks)) as Hm
      by (rewrite Hlen; by apply Forall_fmap).
    by apply Forall_fmap in Hm.
Qed.

(** One batch of the validation, made by [collate_fn]. *)
Lemma val_batch_collated (batch : list (list json * nat)) c
    (st : val_state) :
  (∀ sentences, length (sent_encoder sentences) = length sentences) →
  (∀ embs mask, length (doc_encoder embs mask) = length embs
                ∧ Forall (λ row, length row = 1%nat) (doc_encoder embs mask)) →
  collate_fn batch = Return c →
  ∃ st' preds,
    val_batch c st = inr st'
    ∧ total st' = (total st + length batch)%nat
    ∧ all_labels st' = all_labels st ++ (Z.of_nat <$> batch.*2)
    ∧ all_preds st' = all_preds st ++ preds
    ∧ length preds = length batch
    ∧ Forall (λ p, p = 0%Z ∨ p = 1%Z) preds
    ∧ total_correct st'
      = (total_correct st + count_equal preds (Z.of_nat <$> batch.*2))%nat.
Proof.
  intros Henc Hdoc Hc. destruct c as [[padded_utts mask] labels].
  destruct (collate_fn_shape _ _ _ _ Hc) as (Hne & Hlen & Hrect & ->).
  destruct (embed_batch_rectangular padded_utts _ Henc Hne Hrect)
    as (chunks & He & _ & Hl).
  unfold Batching.val_batch. rewrite He.
  destruct (Hdoc chunks mask) as [Hn Hrows].
  assert (length chunks = length batch) as Hcb.
  { apply (f_equal length) in Hl. rewrite !length_fmap in Hl. lia. }
  eexists _, _. split; [reflexivity|].
  cbn [total all_labels all_preds total_correct].
  rewrite long_labels.
  split; [by rewrite Hlen|]. split; [done|]. split; [done|].
  split; [rewrite length_fmap, length_concat_rows by done; lia|].
  split; [|done].
  apply Forall_fmap, Forall_forall. intros x _. apply predict_binary.
Qed.

Lemma val_batches_collated (batches : list (list (list json * nat)))
    dataloader (st : val_state) :
  (∀ sentences, length (sent_encoder sentences) = length sentences) →
  (∀ embs mask, length (doc_encoder embs mask) = length embs
                ∧ Forall (λ row, length row = 1%nat) (doc_encoder embs mask)) →
  Forall2 (λ batch c, collate_fn batch = Return c) batches dataloader →
  length (all_preds st) = length (all_labels st) →
  ∃ st' preds,
    val_batches dataloader st = inr st'
    ∧ total st' = (total st + length (concat batches))%nat
    ∧ all_labels st'
      = all_labels st ++ (Z.of_nat <$> (concat batches).*2)
    ∧ all_preds st' = all_preds st ++ preds
    ∧ length preds = length (concat batches)
    ∧ Forall (λ p, p = 0%Z ∨ p = 1%Z) preds
    ∧ total_correct st'
      = (total_correct st
         + count_equal preds (Z.of_nat <$> (concat batches).*2))%nat.
Proof.
  intros Henc Hdoc Hall. revert st.
  induction Hall as [|batch c batches dataloader Hc _ IH]; intros st Hst.
  - exists st, []. cbn. rewrite !app_nil_r.
    repeat split; [lia | constructor | lia].
  - cbn [Batching.val_batches].
    destruct (val_batch_collated batch c st Henc Hdoc Hc)
      as (st1 & p1 & -> & Ht1 & Hl1 & Hp1 & Hn1 & Hb1 & Hc1).
    destruct (IH st1) as (st2 & p2 & -> & Ht2 & Hl2 & Hp2 & Hn2 & Hb2 & Hc2).
    { rewrite Hp1, Hl1, !length_app, length_fmap, length_fmap. lia. }
    exists st2, (p1 ++ p2). split; [done|].
    cbn [concat]. rewrite fmap_app, fmap_app, !length_app.
    split; [lia|].
    split; [by rewrite Hl2, Hl1, <- app_assoc|].
    split; [by rewrite Hp2, Hp1, <- app_assoc|].
    split; [lia|]. split; [by apply Forall_app|].
    rewrite count_equal_app by (by rewrite !length_fmap). lia.
Qed.

(** X17. [val_one_epoch] (and [test_one_epoch], which runs the same
    statements) over a loader that yields at least one batch made by
    [collate_fn]: it completes, counts every example once, keeps the
    labels in order, predicts 0 or 1 for each example, and returns the
    share of examples whose prediction equals the label, between 0 and
    1. With a loader that yields nothing the division by [total] raises
    [ZeroDivisionError]. (The sentence encoder yields one row per
    sentence and the document encoder one logit per document.) *)
Theorem val_one_epoch_accuracy (batches : list (list (list json * nat)))
    dataloader :
  (∀ sentences, length (sent_encoder sentences) = length sentences) →
  (∀ embs mask, length (doc_encoder embs mask) = length embs
                ∧ Forall (λ row, length row = 1%nat) (doc_encoder embs mask)) →
  batches ≠ [] →
  Forall2 (λ batch c, collate_fn batch = Return c) batches dataloader →
  (∃ avg_loss avg_acc st,
      val_one_epoch dataloader = inr (avg_loss, avg_acc, st)
      ∧ total st = length (concat batches) ∧ (0 < total st)%nat
      ∧ all_labels st = Z.of_nat <$> (concat batches).*2
      ∧ length (all_preds st) = total st
      ∧ Forall (λ p, p = 0%Z ∨ p = 1%Z) (all_preds st)
      ∧ total_correct st = count_equal (all_preds st) (all_labels st)
      ∧ avg_loss = total_loss st / INR (total st)
      ∧ avg_acc = INR (total_correct st) / INR (total st)
      ∧ 0 <= avg_acc <= 1)
  ∧ val_one_epoch [] = inl ZeroDivisionError.
Proof.
  intros Henc Hdoc Hne Hall. split; [|reflexivity].
  unfold Batching.val_one_epoch.
  match goal with
  | |- context [Batching.val_batches _ _ _ _ _ _ ?st0] =>
      destruct (val_batches_collated batches dataloader st0 Henc Hdoc Hall
                  eq_refl)
        as (st & preds & -> & Ht & Hl & Hp & Hn & Hb & Hc)
  end.
  cbn [total all_labels all_preds total_correct app plus] in *.
  assert (0 < length (concat batches))%nat as Hpos.
  { destruct Hall as [|batch c batches dataloader Hc0 _]; [done|].
    apply collate_fn_returns in Hc0. cbn [concat]. rewrite length_app.
    destruct batch; [done|]. simpl. lia. }
  rewrite decide_False by lia.
  eexists _, _, st. split; [reflexivity|].
  split; [done|]. split; [lia|]. split; [done|].
  split; [rewrite Hp; lia|]. split; [by rewrite Hp|].
  split; [by rewrite Hp, Hl|]. split; [done|]. split; [done|].
  apply ValidationFacts.ratio_range; [|lia].
  rewrite Hc, Ht, <- Hn. apply count_equal_le.
Qed.
End Epochs.

Lemma val_one_epoch_accuracy_witness :
  ∃ avg_loss avg_acc st,
    Batching.val_one_epoch 1 (map (λ _, [0])) (λ embs _, map (λ _, [1]) embs)
      (λ _ _, 0) (λ x, 1 / (1 + exp (- x)))
      [([[JString "a"; JString "b"]], [[1; 1]], [[INR 1]])]
    = inr (avg_loss, avg_acc, st)
    ∧ Batching.total st = 1%nat.
Proof.
  destruct (val_one_epoch_accuracy 1 (map (λ _, [0]))
              (λ embs _, map (λ _, [1]) embs) (λ _ _, 0)
              (λ x, 1 / (1 + exp (- x)))
              [[([JString "a"; JString "b"], 1%nat)]]
              [([[JString "a"; JString "b"]], [[1; 1]], [[INR 1]])])
    as [(avg_loss & avg_acc & st & H & Ht & _) _].
  - intros sentences. apply length_map.
  - intros embs mask. split; [apply length_map|].
    induction embs as [|e embs IH]; [constructor | by constructor].
  - discriminate.
  - repeat constructor.
  - by exists avg_loss, avg_acc, st.
Defined.

Lemma embed_batch_collated_witness :
  ∃ utter_emb_batch,
    Batching.embed_batch 1 (map (λ _, [0])) [[JString "a"; JString "b"]; [JString "c"; JString ""]]
    = inr utter_emb_batch
    ∧ length utter_emb_batch = 2%nat.
Proof.
  destruct (embed_batch_collated 1 (map (λ _, [0]))
              [([JString "a"; JString "b"], 1%nat); ([JString "c"], 0%nat)]
              [[JString "a"; JString "b"]; [JString "c"; JString ""]]
              [[1; 1]; [1; 0]] [[INR 1]; [INR 0]])
    as (e & He & _ & Hl & _).
  - intros sentences. apply length_map.
  - reflexivity.
  - by exists e.
Defined.
End BatchingFacts.

(** ** The two loaders, line by line *)

Module LoaderFacts.
Import Py Random Corpus HT SynthFacts.

Section Loading.
Variable json_loads : string → option json.
Variable strip : string → string.

Local Abbreviation ht_load_line := (ht_load_line json_loads strip).
Local Abbreviation ht_load_lines := (ht_load_lines json_loads strip).
Local Abbreviation ht_load_files := (ht_load_files json_loads strip).
Local Abbreviation lcd_load_line := (lcd_load_line json_loads).
Local Abbreviation lcd_load_lines := (lcd_load_lines json_loads).
Local Abbreviation lcd_load_files := (lcd_load_files json_loads).
Local Abbreviation load_dialogues_with_speakers :=
  (load_dialogues_with_speakers json_loads).

(** What one line can do to the state of the LCD loader. *)
Lemma lcd_load_line_cases filename line all printed :
  (lcd_load_line filename line all printed
   = (Return all, printed ++ [warning filename]))
  ∨ (lcd_load_line filename line all printed = (Return all, printed))
  ∨ (∃ d, (2 ≤ length d)
          ∧ lcd_load_line filename line all printed
            = (Return (all ++ [d]), printed))
  ∨ (∃ e, lcd_load_line filename line all printed = (Raise e, printed)).
Proof.
  unfold Corpus.lcd_load_line.
  destruct (json_loads line) as [data|]; [|by left].
  right. destruct (get_dialogue data) as [raw|e|] eqn:Eg;
    cbn [mbind result_bind bind]; [|by eauto|].
  - destruct (extract_turns raw) as [d|e|] eqn:Ex;
      cbn [mbind result_bind bind]; [|by eauto|].
    + case_decide; [|by eauto]. right. left. by exists d.
    + destruct raw; discriminate Ex.
  - destruct data; discriminate Eg.
Qed.

Lemma lcd_load_lines_inv filename lines all printed all' printed' :
  lcd_load_lines filename lines all printed = (Return all', printed') →
  Forall (λ d : dialogue, 2 ≤ length d) all →
  Forall (λ d : dialogue, 2 ≤ length d) all'
  ∧ length all' + length printed'
    ≤ length all + length printed + length lines
  ∧ all `prefix_of` all' ∧ printed `prefix_of` printed'.
Proof.
  revert all printed. induction lines as [|line lines IH];
    intros all printed Hl Hall.
  - injection Hl as <- <-. split; [done|]. split; [simpl; lia | done].
  - cbn [Corpus.lcd_load_lines] in Hl.
    destruct (lcd_load_line_cases filename line all printed)
      as [E|[E|[(d & Hd & E)|(e & E)]]]; rewrite E in Hl;
      try discriminate.
    + destruct (IH _ _ Hl Hall) as (H1 & H2 & H3 & H4).
      split; [done|]. rewrite length_app in H2. cbn [length] in *.
      split; [lia|]. split; [done|].
      etrans; [|exact H4]. by apply prefix_app_r.
    + destruct (IH _ _ Hl Hall) as (H1 & H2 & H3 & H4).
      split; [done|]. cbn [length]. split; [lia | done].
    + destruct (IH _ _ Hl) as (H1 & H2 & H3 & H4).
      { apply Forall_app. split; [done|]. by apply Forall_singleton. }
      split; [done|]. rewrite length_app in H2. cbn [length] in *.
      split; [lia|]. split; [|done].
      etrans; [|exact H3]. by apply prefix_app_r.
Qed.

Lemma lcd_load_files_inv files all printed all' printed' :
  lcd_load_files files all printed = (Return all', printed') →
  Forall (λ d : dialogue, 2 ≤ length d) all →
  Forall (λ d : dialogue, 2 ≤ length d) all'
  ∧ length all' + length printed'
    ≤ length all + length printed
      + length (concat (filter (λ f, endswith f.1 ".jsonl") files).*2)
  ∧ all `prefix_of` all' ∧ printed `prefix_of` printed'.
Proof.
  revert all printed. induction files as [|[filename lines] files IH];
    intros all printed Hl Hall.
  - injection Hl as <- <-. split; [done|]. split; [simpl; lia | done].
  - cbn [Corpus.lcd_load_files] in Hl.
    destruct (endswith filename ".jsonl") eqn:Ee.
    + rewrite filter_cons_True by (simpl; by rewrite Ee).
      destruct (Corpus.lcd_load_lines json_loads filename lines all printed)
        as [[all1|e|] printed1] eqn:E1; try discriminate.
      destruct (lcd_load_lines_inv _ _ _ _ _ _ E1 Hall)
        as (H1 & H2 & H3 & H4).
      destruct (IH _ _ Hl H1) as (H5 & H6 & H7 & H8).
      split; [done|]. cbn [fmap list_fmap concat snd].
      rewrite length_app. split; [lia|].
      split; by etrans.
    + rewrite filter_cons_False by (simpl; rewrite Ee; intros []).
      by apply IH.
Qed.

Lemma lcd_load_lines_printed (Q : string → Prop) filename lines all printed
    all' printed' :
  lcd_load_lines filename lines all printed = (Return all', printed') →
  Q (warning filename) → Forall Q printed → Forall Q printed'.
Proof.
  intros Hl Hq. revert all printed Hl.
  induction lines as [|line lines IH]; intros all printed Hl Hp.
  - by injection Hl as <- <-.
  - cbn [Corpus.lcd_load_lines] in Hl.
    destruct (lcd_load_line_cases filename line all printed)
      as [E|[E|[(d & Hd & E)|(e & E)]]]; rewrite E in Hl;
      try discriminate; try (by eapply IH).
    eapply IH; [exact Hl|]. apply Forall_app. split; [done|].
    by apply Forall_singleton.
Qed.

Lemma lcd_load_files_printed (Q : string → Prop) files all printed
    all' printed' :
  lcd_load_files files all printed = (Return all', printed') →
  Forall (λ f, Q (warning f.1)) files → Forall Q printed →
  Forall Q printed'.
Proof.
  intros Hl Hq. revert all printed Hl.
  induction Hq as [|[filename lines] files Hf _ IH]; intros all printed Hl Hp.
  - by injection Hl as <- <-.
  - cbn [Corpus.lcd_load_files] in Hl.
    destruct (endswith filename ".jsonl"); [|by eapply IH].
    destruct (Corpus.lcd_load_lines json_loads filename lines all printed)
      as [[all1|e|] printed1] eqn:E1; try discriminate.
    eapply IH; [exact Hl|]. by eapply lcd_load_lines_printed.
Qed.

(** X19. What [load_dialogues_with_speakers] returns: every dialogue has
    at least two turns; every line of a file whose name ends in
    [.jsonl] gives at most one dialogue or one warning, and the other
    files are not read; a file named otherwise changes nothing. *)
Theorem load_dialogues_with_speakers_spec
    (folder : list (string * list string)) ds printed :
  load_dialogues_with_speakers folder = (Return ds, printed) →
  Forall (λ d : dialogue, 2 ≤ length d) ds
  ∧ length ds + length printed
    ≤ length (concat (filter (λ f, endswith f.1 ".jsonl") folder).*2)
  ∧ Forall (λ line, ∃ f, f ∈ folder ∧ line = warning f.1) printed
  ∧ ∀ name lines before after,
      folder = before ++ (name, lines) :: after →
      endswith name ".jsonl" = false →
      load_dialogues_with_speakers (before ++ after) = (Return ds, printed).
Proof.
  intros Hl. unfold Corpus.load_dialogues_with_speakers in *.
  destruct (lcd_load_files_inv _ _ _ _ _ Hl) as (H1 & H2 & _); [done|].
  split; [done|]. split; [simpl in H2; lia|]. split.
  - eapply lcd_load_files_printed; [exact Hl| |constructor].
    apply Forall_forall. intros f Hf. by exists f.
  - clear H1 H2. intros name lines before after -> Hn. revert Hl.
    generalize (@nil dialogue) as all0. generalize (@nil string) as printed0.
    induction before as [|[filename lines'] before IH];
      intros printed0 all0 Hl.
    + cbn [app Corpus.lcd_load_files] in Hl. by rewrite Hn in Hl.
    + cbn [app Corpus.lcd_load_files] in *.
      destruct (endswith filename ".jsonl"); [|by apply IH].
      destruct (Corpus.lcd_load_lines json_loads filename lines' all0
                  printed0) as [[all1|e|] printed1]; try discriminate.
      by apply IH.
Qed.

(** What one line can do to the state of the loader of the dataset
    constructor. *)
Lemma ht_load_line_cases max file line all printed :
  (ht_load_line max file line all printed
   = (Return all, printed ++ [warning file]))
  ∨ (ht_load_line max file line all printed = (Return all, printed))
  ∨ (∃ d, (2 ≤ length d)
          ∧ ht_load_line max file line all printed
            = (Return (all ++ [take max d]), printed))
  ∨ (∃ e, ht_load_line max file line all printed = (Raise e, printed)).
Proof.
  unfold Corpus.ht_load_line.
  case_decide; [by eauto|].
  destruct (json_loads (strip line)) as [data|]; [|by left].
  right. destruct (get_dialogue data) as [raw|e|] eqn:Eg;
    cbn [mbind result_bind bind]; [|by eauto|].
  - destruct (extract_turns raw) as [d|e|] eqn:Ex;
      cbn [mbind result_bind bind]; [|by eauto|].
    + case_decide; [|by eauto]. right. left. by exists d.
    + destruct raw; discriminate Ex.
  - destruct data; discriminate Eg.
Qed.

Lemma ht_load_lines_inv (Q : dialogue → Prop) max file lines all printed
    all' printed' :
  (∀ d : dialogue, 2 ≤ length d → Q (take max d)) →
  ht_load_lines max file lines all printed = (Return all', printed') →
  Forall Q all → Forall Q all'.
Proof.
  intros HQ. revert all printed. induction lines as [|line lines IH];
    intros all printed Hl Hall.
  - by injection Hl as <- <-.
  - cbn [Corpus.ht_load_lines] in Hl.
    destruct (ht_load_line_cases max file line all printed)
      as [E|[E|[(d & Hd & E)|(e & E)]]]; rewrite E in Hl;
      try discriminate; try (by eapply IH).
    eapply IH; [exact Hl|]. apply Forall_app. split; [done|].
    apply Forall_singleton. by apply HQ.
Qed.

Lemma ht_load_files_inv (Q : dialogue → Prop) max files all printed
    all' printed' :
  (∀ d : dialogue, 2 ≤ length d → Q (take max d)) →
  ht_load_files max files all printed = (Return all', printed') →
  Forall Q all → Forall Q all'.
Proof.
  intros HQ. revert all printed.
  induction files as [|[file lines] files IH]; intros all printed Hl Hall.
  - by injection Hl as <- <-.
  - cbn [Corpus.ht_load_files] in Hl.
    destruct (Corpus.ht_load_lines json_loads strip max file lines all
                printed) as [[all1|e|] printed1] eqn:E1; try discriminate.
    eapply IH; [exact Hl|]. by eapply ht_load_lines_inv.
Qed.

Lemma ht_load_lines_app max file lines1 lines2 all printed :
  ht_load_lines max file (lines1 ++ lines2) all printed
  = match ht_load_lines max file lines1 all printed with
    | (Return all1, printed1) => ht_load_lines max file lines2 all1 printed1
    | stop => stop
    end.
Proof.
  revert all printed. induction lines1 as [|line lines1 IH];
    intros all printed; [done|].
  cbn [app Corpus.ht_load_lines].
  destruct (Corpus.ht_load_line json_loads strip max file line all printed)
    as [[all1|e|] printed1]; [apply IH | done | done].
Qed.

Lemma ht_load_files_app max files1 files2 all printed :
  ht_load_files max (files1 ++ files2) all printed
  = match ht_load_files max files1 all printed with
    | (Return all1, printed1) => ht_load_files max files2 all1 printed1
    | stop => stop
    end.
Proof.
  revert all printed. induction files1 as [|[file lines] files1 IH];
    intros all printed; [done|].
  cbn [app Corpus.ht_load_files].
  destruct (Corpus.ht_load_lines json_loads strip max file lines all printed)
    as [[all1|e|] printed1]; [apply IH | done | done].
Qed.




Context {G : Type} {RG : Random G}.
Local Abbreviation init := (init (G := G) json_loads strip).

(** X20. Only [json.JSONDecodeError] is caught while loading. A line
    that parses to something that is not an object ([AttributeError]:
    no [get]), or to an object whose ["dialogue"] is [null], a boolean
    or a number ([TypeError]: not iterable), ends the constructor with
    that exception, whatever was loaded before it and whatever comes
    after it; the lines printed so far stay printed. *)
Theorem init_aborts_on_malformed_record
    (before after : list (string * list string)) (file : string)
    (pre rest : list string) (line : string) (max_utterances : nat)
    (seed_value : Z) all0 printed0 all1 printed1 obj e :
  ht_load_files max_utterances before [] [] = (Return all0, printed0) →
  ht_load_lines max_utterances file pre all0 printed0
  = (Return all1, printed1) →
  strip line ≠ "" →
  json_loads (strip line) = Some obj →
  get_dialogue obj ≫= extract_turns = Raise e →
  init (before ++ (file, pre ++ line :: rest) :: after) max_utterances
    seed_value = (Raise e, printed1)
  ∧ (e = AttributeError ↔ ∀ members, obj ≠ JObject members)
  ∧ (e = TypeError
     ↔ ∃ members, obj = JObject members
         ∧ match dict_get "dialogue" members (JArray []) with
           | JNull | JBool _ | JNumber _ => True
           | _ => False
           end).
Proof.
  intros Hb Hp Hne Hobj He. split.
  - unfold HT.init. rewrite ht_load_files_app, Hb.
    cbn [Corpus.ht_load_files]. rewrite ht_load_lines_app, Hp.
    cbn [Corpus.ht_load_lines]. unfold Corpus.ht_load_line.
    rewrite decide_False by done. rewrite Hobj.
    destruct (get_dialogue obj) as [raw| |];
      cbn [mbind result_bind bind] in *; [|by injection He as ->|done].
    destruct (extract_turns raw) as [d| |];
      cbn [mbind result_bind bind] in *; [done | by injection He as -> | done].
  - destruct obj as [| | | | |members]; cbn in He;
      try (injection He as <-;
           split; [split; [intros _ members; discriminate | done]|];
           split; [discriminate | intros (members & Hm & _); discriminate]).
    destruct (dict_get "dialogue" members (JArray [])) eqn:Ed; cbn in He;
      try discriminate; injection He as <-.
    all: split; [split; [discriminate | intros Hn; by destruct (Hn members)]|].
    all: split; [intros _; exists members; by rewrite Ed | done].
Qed.
End Loading.

Lemma init_aborts_on_malformed_record_witness :
  init (RG := Random.counter_random) Samples.loads (λ line, line)
    [("a.jsonl", ["ok"; "{oops"; "[1]"; "ok"])] 16 42
  = (Raise AttributeError, [warning "a.jsonl"]).
Proof.
  apply (init_aborts_on_malformed_record (RG := Random.counter_random)
           Samples.loads (λ line, line) [] [] "a.jsonl" ["ok"; "{oops"] ["ok"]
           "[1]" 16 42 [] []
           [[("A", JString "hi"); ("B", JString "yo")]] [warning "a.jsonl"]
           (JArray [JNumber 1]) AttributeError);
    try reflexivity.
  discriminate.
Defined.


Lemma load_dialogues_with_speakers_spec_witness :
  Forall (λ d : Corpus.dialogue, 2 ≤ length d)
    [[("A", JString "hi"); ("B", JString "yo")]].
Proof.
  apply (load_dialogues_with_speakers_spec Samples.loads
           [("a.jsonl", ["ok"; "{oops"]); ("notes.txt", ["ok"])]
           [[("A", JString "hi"); ("B", JString "yo")]] [warning "a.jsonl"]).
  reflexivity.
Defined.
End LoaderFacts.

(** ** The dataset of the document classifier, once built (HT notebook) *)

Module DatasetFacts.
Import Py Random Synth Corpus HT Batching SynthFacts LoaderFacts.
Import CriterionFacts.

Section Generic.
Context {U : Type} {U_eq_dec : EqDecision U}.
Context {G : Type} {RG : Random G}.

Lemma length_substitute (d : list (string * U)) target indices
    (shuffled_utts : list U) :
  length (substitute d target indices shuffled_utts) = length d.
Proof.
  unfold substitute. generalize (enumerate indices) as pairs.
  intros pairs. revert d. induction pairs as [|p pairs IH]; intros d; [done|].
  cbn [foldl]. rewrite IH.
  destruct (shuffled_utts !! p.1); [apply length_insert | done].
Qed.

Lemma synthesize_negative_length (d neg : list (string * U)) (g g' : G) :
  synthesize_negative d g = Return (Some neg, g') → length neg = length d.
Proof.
  unfold synthesize_negative.
  destruct (decide (length (speakers d) < 2)); [discriminate|].
  destruct (decide (valid_speakers d = [])) as [|Hv]; [discriminate|].
  destruct (choice (valid_speakers d) g) as [[spk g1]| |];
    cbn [mbind result_bind bind]; try discriminate.
  match goal with
  | |- context [shuffle_retry ?a ?b ?c] =>
      destruct (shuffle_retry a b c) as [[[s|] g2] passes]; [|discriminate]
  end.
  match goal with
  | |- context [decide ?P] =>
      destruct (decide P) as [Hne|]; [|discriminate]
  end.
  intros [= <- <-]. apply length_substitute.
Qed.

(** Every example of the dataset has as many turns as a loaded dialogue
    can have. *)
Lemma build_examples_lengths (P : nat → Prop)
    (ds : list (list (string * U))) (g : G) ex g' :
  build_examples ds g = Return (ex, g') →
  Forall (λ d, P (length d)) ds →
  Forall (λ e : list (string * U) * nat, P (length e.1)) ex.
Proof.
  intros Hb Hall. revert g ex Hb.
  induction Hall as [|d ds Hd _ IH]; intros g ex Hb.
  - injection Hb as <- <-. constructor.
  - cbn [build_examples] in Hb.
    destruct (synthesize_negative d g) as [[o g1]| |] eqn:Es;
      cbn [mbind result_bind bind] in Hb; try done.
    destruct (build_examples ds g1) as [[ex1 g2]| |] eqn:Eb;
      cbn [mbind result_bind bind] in Hb; try done.
    injection Hb as <- <-. constructor; [done|].
    apply Forall_app. split; [|by eapply IH].
    destruct o as [neg|]; [|constructor].
    apply Forall_singleton. simpl.
    by rewrite (synthesize_negative_length _ _ _ _ Es).
Qed.

Lemma build_examples_label_counts (ds : list (list (string * U))) (g : G)
    ex g' :
  build_examples ds g = Return (ex, g') →
  binary (ex.*2)
  ∧ count_label 1 (ex.*2) = length ds
  ∧ count_label 0 (ex.*2) ≤ length ds.
Proof.
  unfold binary, count_label.
  revert g ex. induction ds as [|d ds IH]; intros g ex Hb.
  - cbn in Hb. simplify_eq. repeat split; [constructor | done].
  - cbn [build_examples] in Hb.
    destruct (synthesize_negative d g) as [[o g1]| |];
      cbn [mbind result_bind bind] in Hb; try done.
    destruct (build_examples ds g1) as [[ex1 g2]| |] eqn:Eb;
      cbn [mbind result_bind bind] in Hb; try done.
    injection Hb as <- <-.
    destruct (IH _ _ Eb) as (Hbin & Hc1 & Hc0).
    destruct o as [neg|]; cbn [app fmap list_fmap fst snd].
    + rewrite filter_cons_True, !filter_cons_False, filter_cons_True by done.
      cbn [length]. rewrite Hc1.
      repeat split; [by repeat constructor | lia].
    + rewrite filter_cons_True, filter_cons_False by done.
      cbn [length]. rewrite Hc1.
      repeat split; [by repeat constructor | lia].
Qed.
End Generic.

Lemma list_index_in_range {A} (l : list A) (i : nat) (x : A) :
  l !! i = Some x → list_index l (Z.of_nat i) = Return x.
Proof.
  intros Hi. pose proof (lookup_lt_Some _ _ _ Hi). unfold list_index.
  rewrite (decide_False (P := (Z.of_nat i < 0)%Z)) by lia.
  rewrite decide_True by lia. by rewrite Nat2Z.id, Hi.
Qed.

Lemma list_index_negative {A} (l : list A) (idx : Z) :
  (- Z.of_nat (length l) ≤ idx < 0)%Z →
  list_index l idx = list_index l (idx + Z.of_nat (length l)).
Proof.
  intros Hi. unfold list_index.
  rewrite (decide_True (P := (idx < 0)%Z)) by lia.
  rewrite (decide_False (P := (idx + Z.of_nat (length l) < 0)%Z)) by lia.
  done.
Qed.

Lemma list_index_out_of_range {A} (l : list A) (idx : Z) :
  (Z.of_nat (length l) ≤ idx ∨ idx < - Z.of_nat (length l))%Z →
  list_index l idx = Raise IndexError.
Proof.
  intros Hi. unfold list_index.
  destruct (decide (idx < 0)%Z); by rewrite decide_False by lia.
Qed.

Section Items.
Variable json_loads : string → option json.
Variable strip : string → string.
Context {G : Type} {RG : Random G}.
Local Abbreviation init := (init (G := G) json_loads strip).

(** What a dataset that was built is made of. *)
Lemma init_returns_inv files max seed_value ds printed :
  init files max seed_value = (Return ds, printed) →
  ∃ all ex g',
    ht_load_files json_loads strip max files [] [] = (Return all, printed)
    ∧ all ≠ []
    ∧ build_examples all (seed seed_value) = Return (ex, g')
    ∧ dialogues ds = ex.*1 ∧ labels ds = ex.*2.
Proof.
  unfold HT.init.
  destruct (Corpus.ht_load_files _ _ _ _ _ _) as [[all|e|] printed'];
    cbn [mbind result_bind bind]; try (intros E; discriminate E).
  case_decide as Hall; [intros E; discriminate E|].
  destruct (build_examples_returns all (seed seed_value)) as (ex & g' & E).
  rewrite E. cbn [mbind result_bind bind]. intros [= <- <-].
  by exists all, ex, g'.
Qed.

(** X22. A dataset that the constructor has built is not empty and has
    one label per dialogue. Every index below its length gives an item:
    a list of at most [max_utterances] utterances (at least two when
    [max_utterances] is at least 2) with a label that is 0 or 1, and
    the same item is found by counting from the end; any other index
    raises [IndexError]. *)
Theorem dataset_items (files : list (string * list string))
    (max_utterances : nat) (seed_value : Z) ds printed :
  init files max_utterances seed_value = (Return ds, printed) →
  0 < len ds ∧ length (labels ds) = len ds
  ∧ (∀ i, i < len ds →
       ∃ utterances label,
         getitem ds (Z.of_nat i) = Return (utterances, label)
         ∧ length utterances ≤ max_utterances
         ∧ (2 ≤ max_utterances → 2 ≤ length utterances)
         ∧ (label = 0 ∨ label = 1)
         ∧ getitem ds (Z.of_nat i - Z.of_nat (len ds))
           = Return (utterances, label))
  ∧ (∀ idx, (Z.of_nat (len ds) ≤ idx ∨ idx < - Z.of_nat (len ds))%Z →
            getitem ds idx = Raise IndexError).
Proof.
  intros Hinit.
  destruct (init_returns_inv _ _ _ _ _ Hinit)
    as (all & ex & g' & Hload & Hne & Hb & Hd & Hl).
  assert (Forall (λ d : dialogue, length d ≤ max_utterances
                    ∧ (2 ≤ max_utterances → 2 ≤ length d)) all) as Hall.
  { eapply (ht_load_files_inv json_loads strip); [|exact Hload|constructor].
    intros d Hd2. rewrite length_take. lia. }
  pose proof (build_examples_lengths
                (λ n, n ≤ max_utterances ∧ (2 ≤ max_utterances → 2 ≤ n))
                all _ ex g' Hb Hall) as Hex.
  destruct (build_examples_label_counts all _ ex g' Hb) as (Hbin & Hc1 & _).
  assert (length (labels ds) = len ds) as Hlen
    by (unfold len; by rewrite Hd, Hl, !length_fmap).
  assert (0 < len ds) as Hpos.
  { unfold len. rewrite Hd, length_fmap.
    destruct all; [done|]. cbn [build_examples] in Hb.
    destruct (synthesize_negative _ _) as [[o g1]| |];
      cbn [mbind result_bind bind] in Hb; try done.
    destruct (build_examples all g1) as [[ex1 g2]| |];
      cbn [mbind result_bind bind] in Hb; try done.
    injection Hb as <- <-. simpl. lia. }
  split; [done|]. split; [done|]. split.
  - intros i Hi. unfold len in Hi, Hlen.
    destruct (lookup_lt_is_Some_2 (dialogues ds) i Hi) as [d Hdi].
    destruct (lookup_lt_is_Some_2 (labels ds) i) as [l Hli]; [lia|].
    assert (getitem ds (Z.of_nat i) = Return (d.*2, l)) as Hget.
    { unfold getitem.
      rewrite (list_index_in_range _ _ _ Hdi). cbn [mbind result_bind bind].
      by rewrite (list_index_in_range _ _ _ Hli). }
    exists (d.*2), l. split; [done|].
    assert (∃ e, ex !! i = Some e ∧ e.1 = d ∧ e.2 = l) as (e & He & <- & <-).
    { rewrite Hd, list_lookup_fmap in Hdi. rewrite Hl, list_lookup_fmap in Hli.
      destruct (ex !! i) as [e|]; [|done]. exists e.
      simpl in *. by simplify_eq. }
    rewrite Forall_lookup in Hex. destruct (Hex _ _ He) as [H1 H2].
    rewrite length_fmap. split; [done|]. split; [done|].
    split.
    { unfold binary in Hbin. rewrite <- Hl, Forall_lookup in Hbin.
      exact (Hbin i _ Hli). }
    rewrite <- Hget. unfold getitem, len.
    rewrite (list_index_negative (dialogues ds)) by lia.
    rewrite (list_index_negative (labels ds)) by lia.
    rewrite Hlen.
    by replace (Z.of_nat i - Z.of_nat (length (dialogues ds))
                + Z.of_nat (length (dialogues ds)))%Z with (Z.of_nat i) by lia.
  - intros idx Hidx. unfold getitem.
    rewrite (list_index_out_of_range (dialogues ds)); [reflexivity|].
    unfold len in Hidx. lia.
Qed.

(** X27. A batch drawn from a dataset that the constructor has built
    with [max_utterances >= 1]: every requested item exists, [collate_fn]
    returns, the padded length is at least 1 and at most
    [max_utterances], and every mask row starts with 1, so no document
    of the batch is padding only and position 0, which the document
    encoder reads, is a real utterance. *)
Theorem dataset_batch (files : list (string * list string))
    (max_utterances : nat) (seed_value : Z) ds printed
    (indices : list nat) :
  init files max_utterances seed_value = (Return ds, printed) →
  1 ≤ max_utterances →
  indices ≠ [] →
  Forall (λ i, i < len ds) indices →
  ∃ batch padded_utts mask labels,
    Forall2 (λ i item, getitem ds (Z.of_nat i) = Return item) indices batch
    ∧ collate_fn batch = Return (padded_utts, mask, labels)
    ∧ length mask = length indices
    ∧ Forall (λ row : list R,
                1 ≤ length row ≤ max_utterances ∧ row !! 0 = Some 1%R) mask
    ∧ Forall (λ utts : list json, 1 ≤ length utts ≤ max_utterances)
        padded_utts.
Proof.
  intros Hinit Hmax Hne Hidx.
  destruct (init_returns_inv _ _ _ _ _ Hinit)
    as (all & ex & g' & Hload & _ & Hb & Hd & Hl).
  assert (Forall (λ d : dialogue, 1 ≤ length d ≤ max_utterances) all)
    as Hall.
  { eapply (ht_load_files_inv json_loads strip); [|exact Hload|constructor].
    intros d Hd2. rewrite length_take. lia. }
  pose proof (build_examples_lengths (λ n, 1 ≤ n ≤ max_utterances)
                all _ ex g' Hb Hall) as Hex.
  assert (∀ i, i < len ds →
            ∃ item, getitem ds (Z.of_nat i) = Return item
                    ∧ 1 ≤ length item.1 ≤ max_utterances) as Hitem.
  { intros i Hi. unfold len in Hi.
    destruct (lookup_lt_is_Some_2 (dialogues ds) i Hi) as [d Hdi].
    destruct (lookup_lt_is_Some_2 (labels ds) i) as [l Hli].
    { rewrite Hl, length_fmap. rewrite Hd, length_fmap in Hi. exact Hi. }
    exists (d.*2, l). split.
    - unfold getitem.
      rewrite (list_index_in_range _ _ _ Hdi). cbn [mbind result_bind bind].
      by rewrite (list_index_in_range _ _ _ Hli).
    - cbn [fst]. rewrite length_fmap.
      rewrite Hd, list_lookup_fmap in Hdi.
      destruct (ex !! i) as [e|] eqn:He; [|done].
      rewrite Forall_lookup in Hex. specialize (Hex _ _ He).
      simpl in Hdi, Hex. by simplify_eq. }
  assert (∃ batch,
            Forall2 (λ i item, getitem ds (Z.of_nat i) = Return item)
              indices batch
            ∧ Forall (λ item : list json * nat,
                        1 ≤ length item.1 ≤ max_utterances) batch)
    as (batch & Hget & Hlen).
  { clear Hne. induction Hidx as [|i indices Hi _ IH].
    - exists []. split; constructor.
    - destruct IH as (batch & H1 & H2).
      destruct (Hitem i Hi) as (item & Hg & Hr).
      exists (item :: batch). split; by constructor. }
  assert (batch ≠ []) as Hbne.
  { destruct Hget; [done | discriminate]. }
  assert (1 ≤ max_list (length <$> batch.*1) ≤ max_utterances) as Hml.
  { assert (length <$> batch.*1 ≠ []) as Hne' by (by destruct batch).
    pose proof (max_list_elem_of _ Hne') as Hin.
    apply list_elem_of_fmap in Hin as (utts & -> & Hin).
    apply list_elem_of_fmap in Hin as (item & -> & Hin).
    rewrite Forall_forall in Hlen. by apply Hlen. }
  eexists batch, _, _, _. split; [exact Hget|].
  split; [exact (BatchingFacts.collate_fn_nonempty batch Hbne)|].
  cbn zeta. rewrite !length_fmap.
  split; [symmetry; by eapply Forall2_length|].
  split.
  - apply Forall_fmap, Forall_fmap, Forall_forall. intros item Hin. simpl.
    rewrite Forall_forall in Hlen. specialize (Hlen _ Hin).
    pose proof (BatchingFacts.length_le_max_list batch.*1 item.1) as Hle.
    rewrite length_app, !length_replicate.
    split.
    + assert (length item.1 ≤ max_list (length <$> batch.*1))
        by (apply Hle, list_elem_of_fmap; by exists item).
      lia.
    + destruct (length item.1) as [|k] eqn:Ek; [lia | done].
  - apply Forall_fmap, Forall_fmap, Forall_forall. intros item Hin. simpl.
    rewrite Forall_forall in Hlen. specialize (Hlen _ Hin).
    pose proof (BatchingFacts.length_le_max_list batch.*1 item.1) as Hle.
    rewrite length_app, length_replicate.
    assert (length item.1 ≤ max_list (length <$> batch.*1))
      by (apply Hle, list_elem_of_fmap; by exists item).
    lia.
Qed.

(** X23. The cell that prepares the losses never divides by zero on
    datasets that the constructor has built: both have at least one
    positive example, and the positive-class weights it computes lie
    between 0 and 1, since a dialogue gets at most one negative. *)
Theorem init_setup_criteria files max_utterances seed_value train printed
    files' max_utterances' seed_value' val printed' :
  init files max_utterances seed_value = (Return train, printed) →
  init files' max_utterances' seed_value' = (Return val, printed') →
  ∃ s,
    setup_criteria (labels train) (labels val) = Some s
    ∧ (0 <= train_pos_weight s <= 1)%R
    ∧ (0 <= val_pos_weight s <= 1)%R
    ∧ pos_weight (train_criterion s) = train_pos_weight s
    ∧ pos_weight (val_criterion s) = train_pos_weight s.
Proof.
  intros Ht Hv.
  destruct (init_returns_inv _ _ _ _ _ Ht)
    as (all & ex & g' & _ & Hne & Hb & _ & Hl).
  destruct (init_returns_inv _ _ _ _ _ Hv)
    as (all' & ex' & g'' & _ & Hne' & Hb' & _ & Hl').
  destruct (build_examples_label_counts all _ ex g' Hb) as (Hbin & Hc1 & Hc0).
  destruct (build_examples_label_counts all' _ ex' g'' Hb')
    as (Hbin' & Hc1' & Hc0').
  rewrite <- Hl in Hbin, Hc1, Hc0. rewrite <- Hl' in Hbin', Hc1', Hc0'.
  destruct (sum_labels_count _ Hbin) as [Hs Hn].
  destruct (sum_labels_count _ Hbin') as [Hs' Hn'].
  assert (0 < count_label 1 (labels train)
          ∧ count_label 0 (labels train) ≤ count_label 1 (labels train))
    as [Hp1 Hp0].
  { rewrite Hc1. split; [|exact Hc0].
    destruct all; [done | simpl; apply Nat.lt_0_succ]. }
  assert (0 < count_label 1 (labels val)
          ∧ count_label 0 (labels val) ≤ count_label 1 (labels val))
    as [Hp1' Hp0'].
  { rewrite Hc1'. split; [|exact Hc0'].
    destruct all'; [done | simpl; apply Nat.lt_0_succ]. }
  clear Hc1 Hc0 Hc1' Hc0'.
  unfold setup_criteria. rewrite Hn, Hn', Hs, Hs'.
  rewrite decide_False by lia. rewrite decide_False by lia.
  eexists. split; [reflexivity|].
  cbn [train_pos_weight val_pos_weight train_criterion val_criterion
       pos_weight].
  rewrite <- !INR_IZR_INZ.
  split; [apply ValidationFacts.ratio_range; lia|].
  split; [apply ValidationFacts.ratio_range; lia | done].
Qed.
End Items.

Lemma dataset_items_witness :
  getitem {| dialogues := [[("A", JString "hi"); ("B", JString "yo")]];
             labels := [1]; max_utterances := 16 |} 1
  = Raise IndexError.
Proof.
  destruct (dataset_items (RG := Random.counter_random) Samples.loads
              (λ line, line) [("a.jsonl", ["ok"])] 16 42
              {| dialogues := [[("A", JString "hi"); ("B", JString "yo")]];
                 labels := [1]; max_utterances := 16 |} [])
    as (_ & _ & _ & Hout).
  - reflexivity.
  - apply Hout. left. vm_compute. discriminate.
Defined.

Lemma dataset_batch_witness :
  ∃ batch padded_utts mask labels,
    Forall2
      (λ i item,
         getitem {| dialogues := [[("A", JString "hi"); ("B", JString "yo")]];
                    labels := [1]; max_utterances := 16 |} (Z.of_nat i)
         = Return item) [0; 0] batch
    ∧ collate_fn batch = Return (padded_utts, mask, labels)
    ∧ length mask = 2.
Proof.
  destruct (dataset_batch (RG := Random.counter_random) Samples.loads
              (λ line, line) [("a.jsonl", ["ok"])] 16 42
              {| dialogues := [[("A", JString "hi"); ("B", JString "yo")]];
                 labels := [1]; max_utterances := 16 |} [] [0; 0])
    as (batch & padded & mask & labels & H1 & H2 & H3 & _).
  - reflexivity.
  - lia.
  - discriminate.
  - repeat constructor.
  - by exists batch, padded, mask, labels.
Defined.

Lemma init_setup_criteria_witness :
  ∃ s,
    setup_criteria [1] [1] = Some s ∧ (0 <= train_pos_weight s <= 1)%R.
Proof.
  destruct (init_setup_criteria (RG := Random.counter_random) Samples.loads
              (λ line, line) [("a.jsonl", ["ok"])] 16 42
              {| dialogues := [[("A", JString "hi"); ("B", JString "yo")]];
                 labels := [1]; max_utterances := 16 |} []
              [("a.jsonl", ["ok"])] 16 42
              {| dialogues := [[("A", JString "hi"); ("B", JString "yo")]];
                 labels := [1]; max_utterances := 16 |} [])
    as (s & Hs & Hr & _).
  - reflexivity.
  - reflexivity.
  - by exists s.
Defined.
End DatasetFacts.

(** ** Padding tokens and mean pooling (LCD notebook) *)

Module PoolingFacts.
Import Tensor Encoder EncoderFacts.
Local Open Scope R_scope.

Lemma masked_embeddings_app rows rows' mask mask' :
  length rows = length mask →
  masked_embeddings (rows ++ rows') (mask ++ mask')
  = masked_embeddings rows mask ++ masked_embeddings rows' mask'.
Proof. intros Hl. unfold masked_embeddings. by apply zip_with_app. Qed.

(** X24. Tokens that the tokenizer adds as padding, with attention mask
    0, do not change the embedding of a sentence: pooling over the
    tokens followed by any number of masked-out tokens gives the mean
    over the tokens alone. *)
Theorem mean_pool_ignores_padding (d : nat) (embeddings padding : list vec)
    (attention_mask : list Z) :
  length embeddings = length attention_mask →
  Forall (λ e, length e = d) padding →
  mean_pool d (embeddings ++ padding)
    (attention_mask ++ replicate (length padding) 0%Z)
  = mean_pool d embeddings attention_mask.
Proof.
  intros Hlen Hpad. unfold mean_pool. f_equal.
  - rewrite masked_embeddings_app by done.
    unfold sum_tokens. rewrite foldr_app.
    fold (sum_tokens d (masked_embeddings padding
                          (replicate (length padding) 0%Z))).
    by rewrite sum_tokens_masked_zero.
  - unfold counts. by rewrite foldr_app, sum_mask_zeros.
Qed.

Lemma length_mean_pool (d : nat) (embeddings : list vec)
    (attention_mask : list Z) :
  Forall (λ e, length e = d) embeddings →
  length (mean_pool d embeddings attention_mask) = d.
Proof.
  intros Hw. unfold mean_pool, vdiv. rewrite length_map.
  apply length_sum_tokens. unfold masked_embeddings.
  revert attention_mask. induction Hw as [|e rows He _ IH];
    intros [|m mask]; cbn [zip_with]; try constructor.
  - unfold vscale. by rewrite length_map.
  - apply IH.
Qed.

(** X28. The shape that the docstring of [SentenceEncoder.forward]
    announces, [(len(sentences), hidden_size)]: when the tokenizer gives
    one mask and the transformer one block of token vectors of width
    [hidden_size] per sentence, the result has one row per sentence and
    every row has width [hidden_size], however many tokens a sentence
    has and whatever its mask. *)
Theorem forward_shape (hidden_size : nat)
    (tokenizer : list string → list (list Z))
    (model : list string → list (list vec)) (sentences : list string) :
  length (tokenizer sentences) = length sentences →
  length (model sentences) = length sentences →
  Forall (Forall (λ e, length e = hidden_size)) (model sentences) →
  length (forward hidden_size tokenizer model sentences) = length sentences
  ∧ Forall (λ row, length row = hidden_size)
      (forward hidden_size tokenizer model sentences).
Proof.
  intros Ht Hm Hw. unfold forward. split.
  - rewrite length_zip_with. lia.
  - clear Ht Hm. generalize (tokenizer sentences) as masks.
    induction Hw as [|toks rest Htoks _ IH]; intros [|mask masks];
      cbn [zip_with]; try constructor.
    + by apply length_mean_pool.
    + apply IH.
Qed.

Lemma forward_shape_witness :
  length (forward 2 (λ _, [[1%Z; 0%Z]]) (λ _, [[[1; 2]; [3; 4]]]) ["hi"])
  = 1%nat.
Proof.
  apply (forward_shape 2 (λ _, [[1%Z; 0%Z]]) (λ _, [[[1; 2]; [3; 4]]])
           ["hi"]); [reflexivity | reflexivity |].
  by repeat constructor.
Defined.

Lemma mean_pool_ignores_padding_witness :
  mean_pool 1 [[2]; [5]] [1%Z; 0%Z] = mean_pool 1 [[2]] [1%Z].
Proof.
  apply (mean_pool_ignores_padding 1 [[2]] [[5]] [1%Z]).
  - reflexivity.
  - by apply Forall_singleton.
Defined.
End PoolingFacts.

(** ** The rows of [test_experiment] (LCD notebook) *)

Module ExperimentFacts.
Import Py Random Tensor Features LCD Synth SynthFacts InferenceFacts.
Import PermuteMore EvaluationFacts.
Local Open Scope R_scope.

Section Rows.
Context {U : Type} {U_eq_dec : EqDecision U}.
Context {G : Type} {RG : Random G}.
Variable encoder : list U → list vec.
Variable scorer_fwd scorer_bwd : vec → R.
Variable f1_score accuracy_score : list nat → list nat → R.

Local Abbreviation compute_dialogue_pred :=
  (compute_dialogue_pred encoder scorer_fwd scorer_bwd).
Local Abbreviation score_permuted :=
  (score_permuted encoder scorer_fwd scorer_bwd).
Local Abbreviation test_loop :=
  (test_loop (G := G) encoder scorer_fwd scorer_bwd).
Local Abbreviation test_experiment :=
  (test_experiment (G := G) encoder scorer_fwd scorer_bwd f1_score
     accuracy_score).

Local Abbreviation pred_loop := (pred_loop (U := U) scorer_fwd scorer_bwd).

Lemma pred_loop_binary embeddings range :
  (pred_loop embeddings range).1 = 0%nat
  ∨ (pred_loop embeddings range).1 = 1%nat.
Proof.
  induction range as [|i range IH]; [by right|].
  cbn [LCD.pred_loop]. destruct (Rlt_dec _ _); [by left|].
  by destruct (LCD.pred_loop _ _ _ _).
Qed.

Lemma compute_dialogue_pred_binary (d : list (string * U)) label calls :
  compute_dialogue_pred d = Return (label, calls) →
  label = 0%nat ∨ label = 1%nat.
Proof.
  unfold LCD.compute_dialogue_pred. destruct d as [|t d]; [done|].
  match goal with
  | |- context [LCD.pred_loop _ _ ?e ?r] =>
      pose proof (pred_loop_binary e r) as Hb;
      destruct (pred_loop e r) as [l c]
  end.
  intros [= <- _]. exact Hb.
Qed.

(** The rows of the permutations of one dialogue: one per permutation,
    in order, all with true label 0. *)
Lemma score_permuted_rows (permuted : list (list (string * U))) rows :
  score_permuted permuted = Return rows →
  rows.*1.*1 = permuted
  ∧ rows.*1.*2 = replicate (length permuted) 0%nat
  ∧ Forall (λ p, p = 0%nat ∨ p = 1%nat) (rows.*2).
Proof.
  revert rows. induction permuted as [|perm permuted IH]; intros rows Hs.
  - injection Hs as <-. by repeat split.
  - cbn [LCD.score_permuted] in Hs.
    destruct (compute_dialogue_pred perm) as [[score2 calls]| |] eqn:Ep;
      cbn [mbind result_bind bind] in Hs; try done.
    destruct (score_permuted permuted) as [rows'| |] eqn:Er;
      cbn [mbind result_bind bind] in Hs; try done.
    injection Hs as <-. destruct (IH _ eq_refl) as (H1 & H2 & H3).
    cbn [fmap list_fmap fst snd length replicate].
    split; [by f_equal|]. split; [by f_equal|].
    constructor; [by eapply compute_dialogue_pred_binary | done].
Qed.

Lemma test_loop_rows budget (dialogues : list (list (string * U)))
    (num_permutations : nat) (g : G) rows g' :
  test_loop budget dialogues num_permutations g = Return (rows, g') →
  let long := filter (λ d : list (string * U), 3 ≤ length d)%nat dialogues in
  length rows = ((1 + num_permutations) * length long)%nat
  ∧ (filter (λ r : LCD.row, r.1.2 = 1%nat) rows).*1.*1 = long
  ∧ length (filter (λ r : LCD.row, r.1.2 = 0%nat) rows)
    = (num_permutations * length long)%nat
  ∧ Forall (λ r : LCD.row, (r.1.2 = 0%nat ∨ r.1.2 = 1%nat)
                           ∧ (r.2 = 0%nat ∨ r.2 = 1%nat)) rows.
Proof.
  revert g rows. induction dialogues as [|d dialogues IH]; intros g rows Hr.
  - injection Hr as <- <-. cbn [filter list_filter length fmap list_fmap].
    repeat split; [lia | lia | constructor].
  - cbn [LCD.test_loop] in Hr. cbn zeta.
    destruct (decide (length d < 3)%nat) as [Hs|Hl].
    { rewrite filter_cons_False by lia. by eapply IH. }
    rewrite filter_cons_True by lia.
    destruct (compute_dialogue_pred d) as [[score calls]| |] eqn:Ep;
      cbn [mbind result_bind bind] in Hr; try done.
    destruct (choice ["A"; "B"] g) as [[speaker g1]| |];
      cbn [mbind result_bind bind] in Hr; try done.
    destruct (permute_dialogue budget d speaker num_permutations g1)
      as [[permuted g2]| |] eqn:Epd;
      cbn [mbind result_bind bind] in Hr; try done.
    destruct (LCD.score_permuted encoder scorer_fwd scorer_bwd permuted)
      as [prow| |] eqn:Es; cbn [mbind result_bind bind] in Hr; try done.
    destruct (LCD.test_loop encoder scorer_fwd scorer_bwd budget dialogues
                num_permutations g2) as [[more g3]| |] eqn:Em;
      cbn [mbind result_bind bind] in Hr; try done.
    injection Hr as <- <-.
    destruct (IH _ _ Em) as (H1 & H2 & H3 & H4).
    destruct (score_permuted_rows _ _ Es) as (Hp1 & Hp2 & Hp3).
    destruct (permute_loop_returns budget d speaker num_permutations
                (other_turns d speaker) g1 permuted g2) as [Hn _];
      [by left | exact Epd |].
    assert (length prow = num_permutations) as Hpl.
    { rewrite <- Hn, <- Hp1. by rewrite !length_fmap. }
    assert (Forall (λ r : LCD.row, r.1.2 = 0%nat) prow) as Hzero.
    { assert (Forall (λ l, l = 0%nat) prow.*1.*2) as Hz.
      { rewrite Hp2. apply Forall_forall. intros x Hx.
        by apply elem_of_replicate in Hx as [-> _]. }
      rewrite !Forall_fmap in Hz. eapply Forall_impl; [exact Hz|].
      by intros r Hr. }
    assert (filter (λ r : LCD.row, r.1.2 = 1%nat) prow = []) as Hf1.
    { apply EpochFacts.filter_none. eapply Forall_impl; [exact Hzero|].
      intros r Hr. simpl in Hr. rewrite Hr. discriminate. }
    assert (filter (λ r : LCD.row, r.1.2 = 0%nat) prow = prow) as Hf0.
    { clear -Hzero. induction Hzero as [|r prow Hr _ IH]; [done|].
      rewrite filter_cons_True by done. by rewrite IH. }
    cbn [length]. rewrite length_app.
    rewrite filter_cons_True by done. rewrite filter_cons_False by done.
    rewrite !filter_app, Hf1, Hf0. cbn [app fmap list_fmap fst].
    rewrite length_app, H2, H3.
    unfold LCD.row, Synth.dialogue, Synth.turn in *. rewrite H1, Hpl.
    match goal with
    | |- context [length (filter ?P dialogues)] =>
        generalize (length (filter P dialogues)) as L; intros L
    end.
    split; [lia|]. split; [done|]. split; [lia|].
    constructor.
    { split; [by right | by eapply compute_dialogue_pred_binary]. }
    apply Forall_app. split; [|done].
    apply Forall_forall. intros r Hin. split.
    + left. rewrite Forall_forall in Hzero. by apply Hzero.
    + rewrite Forall_forall in Hp3. apply Hp3.
      apply list_elem_of_fmap. by exists r.
Qed.

(** X25. Whenever [test_experiment] returns, the lists [true] and [pred]
    have one entry per scored dialogue: each dialogue of at least three
    turns gives one entry with true label 1, in the order of the input,
    and [num_permutations] entries with true label 0; shorter dialogues
    give none; every prediction is 0 or 1. *)
Theorem test_experiment_rows budget (dialogues : list (list (string * U)))
    (num_permutations : nat) (g : G) f1 accuracy true pred rows :
  test_experiment budget dialogues num_permutations g
  = Return (f1, accuracy, true, pred, rows) →
  let long := filter (λ d : list (string * U), 3 ≤ length d)%nat dialogues in
  length true = ((1 + num_permutations) * length long)%nat
  ∧ length pred = length true
  ∧ length (filter (λ l, l = 1%nat) true) = length long
  ∧ length (filter (λ l, l = 0%nat) true)
    = (num_permutations * length long)%nat
  ∧ Forall (λ p, p = 0%nat ∨ p = 1%nat) pred
  ∧ (filter (λ r : LCD.row, r.1.2 = 1%nat) rows).*1.*1 = long
  ∧ f1 = f1_score true pred ∧ accuracy = accuracy_score true pred.
Proof.
  unfold LCD.test_experiment.
  destruct (LCD.test_loop encoder scorer_fwd scorer_bwd budget dialogues
              num_permutations g) as [[rows' g']| |] eqn:El;
    cbn [mbind result_bind bind]; try done.
  intros [= <- <- <- <- <-]. cbn zeta.
  destruct (test_loop_rows _ _ _ _ _ _ El) as (H1 & H2 & H3 & H4).
  assert (∀ l, length (filter (λ x, x = l) rows'.*1.*2)
               = length (filter (λ r : LCD.row, r.1.2 = l) rows')) as Hf.
  { intros l. clear. induction rows' as [|r rows' IH]; [done|].
    cbn [fmap list_fmap]. destruct (decide (r.1.2 = l)) as [He|Hn].
    - rewrite !filter_cons_True by done. cbn [length]. by rewrite IH.
    - rewrite !filter_cons_False by done. exact IH. }
  rewrite !length_fmap, !Hf, H3.
  split; [done|]. split; [done|].
  split; [by rewrite <- H2, !length_fmap|]. split; [done|].
  split; [|done].
  apply Forall_fmap. eapply Forall_impl; [exact H4|]. by intros r [_ Hr].
Qed.
End Rows.

Lemma test_experiment_rows_witness :
  length [1; 0]%nat = ((1 + 1) * 1)%nat.
Proof.
  destruct (test_experiment_rows (G := nat) (λ _ : list string, [])
              (λ _, 1) (λ _, 1) (λ _ _, 0) (λ _ _, 0) 5
              [Scenarios.short_reply; [("A", "hi")]] 1 1%nat
              0 0 [1; 0]%nat [1; 1]%nat
              [(Scenarios.short_reply, 1, 1); (Scenarios.short_reply, 0, 1)]%nat)
    as (H & _).
  - vm_compute. reflexivity.
  - exact H.
Defined.
End ExperimentFacts.
